(** * Bit permutations ranked and unranked through Pascal's triangle

    A shallow embedding of [nth_bit_permutation.cpp]: the table builder
    [make_pascal_triangle], the two engines [rank_from_permutation] and
    [permutation_from_rank], the self-test [bit_permutation_test] and
    [main], followed by the properties proved about them.

    Conventions of the embedding.
    - A C++ [unsigned] is a [Z] in [0, 2^32); every arithmetic result is
      reduced with [wrap].
    - A [std::vector] is a [list]; [operator[]] outside the vector is
      undefined in C++ and is [None] / [Fault] here.
    - A shift by a count that is not below the width of its operand is
      undefined in C++ where it is evaluated, used or not; the call or
      the test that evaluates one is [Undefined] here.
    - The two [for(;;)] loops are iterated by [run], one [step] per loop
      body, with a bound on the number of completed bodies; the
      [do ... while] loop of the self-test by [iterate].
    - What the program writes to [std::cout] is left out. *)

From Stdlib Require Import ZArith List Bool Lia ZifyBool Sorted Ascii.
From Stdlib Require String.
Import String.StringSyntax.
Delimit Scope string_scope with string.
Import ListNotations.
Local Open Scope Z_scope.

(* ================================================================= *)
(** ** Machine integers and vectors *)

Definition wrap (z : Z) : Z := z mod 2 ^ 32.

(** [#define MAXBITS 32] *)
Definition MAXBITS : Z := 32.

(** [v[i]] for a [std::vector]: defined only below [v.size()]. *)
Definition vec_at {A : Type} (v : list A) (i : Z) : option A :=
  if (0 <=? i) && (i <? Z.of_nat (length v))
  then nth_error v (Z.to_nat i) else None.

(** [v[i] = x] on an existing slot; [fill_rows], its only caller, has read
    [v[i]] before. *)
Fixpoint vec_set {A : Type} (v : list A) (i : nat) (x : A) : list A :=
  match v, i with
  | [], _ => []
  | _ :: tl, O => x :: tl
  | h :: tl, S i' => h :: vec_set tl i' x
  end.

Definition table : Type := list (list Z).

(** [pascalt[row][col]] *)
Definition tbl_get (pascalt : table) (row col : Z) : option Z :=
  match vec_at pascalt row with
  | Some r => vec_at r col
  | None => None
  end.

(* ================================================================= *)
(** ** make_pascal_triangle *)

(** The inner loop of the builder, [j = 1 .. prev.size()-1]: it pushes
    [prev[j-1] + prev[j]]. *)
Fixpoint inner_sums (prev : list Z) : list Z :=
  match prev with
  | a :: (b :: _) as tl => wrap (a + b) :: inner_sums tl
  | _ => []
  end.

(** What one pass of the outer loop pushes onto row [i], read from row
    [i-1]: [prev[0]], the inner sums, [prev.back()]. [prev[0]] and
    [prev.back()] of an empty vector are undefined. *)
Definition pushed_entries (prev : list Z) : option (list Z) :=
  match prev with
  | [] => None
  | first :: _ => Some (first :: inner_sums prev ++ [last prev 0])
  end.

(** The outer loop, [count] passes from [i] on, on the table being
    filled. *)
Fixpoint fill_rows (count : nat) (i : Z) (pascalt : table) : option table :=
  match count with
  | O => Some pascalt
  | S count' =>
      match vec_at pascalt (i - 1), vec_at pascalt i with
      | Some prev, Some target =>
          match pushed_entries prev with
          | Some entries =>
              fill_rows count' (i + 1)
                (vec_set pascalt (Z.to_nat i) (target ++ entries))
          | None => None
          end
      | _, _ => None
      end
  end.

(** [clear(); resize(MAXBITS+1); pascalt[0].push_back(1);] then the loop
    for [i = 1 .. MAXBITS]. The result is the new value of the global
    [pascalt]; [clear()] makes it independent of the old one. *)
Definition make_pascal_triangle : option table :=
  let cleared : table := repeat [] (Z.to_nat (MAXBITS + 1)) in
  match cleared with
  | [] => None
  | row0 :: rest =>
      fill_rows (Z.to_nat MAXBITS) 1 ((row0 ++ [1]) :: rest)
  end.

(** The global table once [make_pascal_triangle] has run ([main] calls it
    before anything else). *)
Definition built_table : table :=
  match make_pascal_triangle with
  | Some t => t
  | None => []
  end.

(* ================================================================= *)
(** ** Loops *)

(** What one pass through a [for(;;)] body does: go round again, leave the
    loop with the function's return value, or hit undefined behaviour. *)
Inductive step_result (S : Type) : Type :=
| Continue (s : S)
| Break (v : Z)
| Fault.
Arguments Continue {S} s.
Arguments Break {S} v.
Arguments Fault {S}.

(** What a call does. [Undefined] is undefined behaviour anywhere in the
    call. [OutOfFuel] is the bound of [run] being reached; it never happens
    for the engines on the built table ([rank_bound_enough],
    [unrank_bound_enough]). *)
Inductive outcome : Type :=
| Done (v : Z)
| Undefined
| OutOfFuel.

(** [run step n s]: iterate the loop from [s], allowing [n] completed
    bodies. *)
Fixpoint run {S : Type} (step : S -> step_result S) (n : nat) (s : S)
  : outcome :=
  match step s with
  | Break v => Done v
  | Fault => Undefined
  | Continue s' =>
      match n with
      | O => OutOfFuel
      | S n' => run step n' s'
      end
  end.

(** Reading a value that may not exist: a table cell out of range, or the
    result of a shift by an invalid count. *)
Definition reading {A S : Type} (o : option A) (k : A -> step_result S)
  : step_result S :=
  match o with
  | Some a => k a
  | None => Fault
  end.

Notation "'read' x '<-' o ';' k" := (reading o (fun x => k))
  (at level 10, x name, o at level 100, k at level 200).

(** [1 << count] on a 32-bit [int], stored in an [unsigned]. With a count
    outside [0, 32) evaluating the shift is undefined behaviour: [None].
    Both engines evaluate it in a declaration before their loop, with the
    count [ntotbits - 1], which is [0u - 1] for [ntotbits = 0]. *)
Definition shl_one (count : Z) : option Z :=
  if (0 <=? count) && (count <? 32) then Some (wrap (Z.shiftl 1 count))
  else None.

(** [thisbit >>= 1] *)
Definition shr_one (thisbit : option Z) : option Z :=
  option_map (fun t => Z.shiftr t 1) thisbit.

(** Iterations [run] allows the engines: as many as the table has rows.
    No call on the built table needs more. *)
Definition LOOP_BOUND : nat := Z.to_nat (MAXBITS + 1).

(* ================================================================= *)
(** ** The engines *)

Section Engines.

(** The global table as the call finds it. *)
Variable pascalt : table.

(** *** rank_from_permutation *)

Record rank_state : Type := mk_rank_state {
  rk_total : Z;
  rk_row : Z;
  rk_col : Z;
  rk_thisbit : option Z
}.

(** The declarations in front of the loop. [rk_thisbit] is [None] when
    [1 << (ntotbits - 1)] is undefined; [rank_from_permutation] does not
    enter the loop then. *)
Definition rank_init (ntotbits nsetbits : Z) : rank_state :=
  let row := ntotbits in
  {| rk_total := 0;
     rk_row := row;
     rk_col := wrap (row - nsetbits);
     rk_thisbit := shl_one (wrap (ntotbits - 1)) |}.

Definition rank_step (bitmap : Z) (s : rank_state)
  : step_result rank_state :=
  read entry <- tbl_get pascalt (rk_row s) (rk_col s);
  if entry =? 1 then Break (rk_total s)
  else
    let row := wrap (rk_row s - 1) in
    read thisbit <- rk_thisbit s;
    if negb (Z.land bitmap thisbit =? 0) then
      read smaller <- tbl_get pascalt row (wrap (rk_col s - 1));
      Continue {| rk_total := wrap (rk_total s + smaller);
                  rk_row := row;
                  rk_col := rk_col s;
                  rk_thisbit := Some (Z.shiftr thisbit 1) |}
    else
      Continue {| rk_total := rk_total s;
                  rk_row := row;
                  rk_col := wrap (rk_col s - 1);
                  rk_thisbit := Some (Z.shiftr thisbit 1) |}.

(** A call: the declarations, where an undefined shift makes the whole call
    undefined, then the loop. *)
Definition rank_from_permutation (bitmap ntotbits nsetbits : Z) : outcome :=
  let s := rank_init ntotbits nsetbits in
  match rk_thisbit s with
  | Some _ => run (rank_step bitmap) LOOP_BOUND s
  | None => Undefined
  end.

(** *** permutation_from_rank *)

Record unrank_state : Type := mk_unrank_state {
  ur_rank : Z;
  ur_res : Z;
  ur_row : Z;
  ur_col : Z;
  ur_thisbit : option Z
}.

(** The declarations in front of the loop, [ur_thisbit] as in
    [rank_init]. *)
Definition unrank_init (rank ntotbits nsetbits : Z) : unrank_state :=
  let row := ntotbits in
  {| ur_rank := rank;
     ur_res := 0;
     ur_row := row;
     ur_col := wrap (row - nsetbits);
     ur_thisbit := shl_one (wrap (ntotbits - 1)) |}.

(** [col > 0 && rank < pascalt[row][col-1]]: the cell is read only when
    [col > 0]. *)
Definition bit_is_clear (rank row col : Z) : option bool :=
  if 0 <? col then
    match tbl_get pascalt row (wrap (col - 1)) with
    | Some entry => Some (rank <? entry)
    | None => None
    end
  else Some false.

(** [if (col) rank -= pascalt[row][col-1];] *)
Definition rank_after_set (rank row col : Z) : option Z :=
  if negb (col =? 0) then
    match tbl_get pascalt row (wrap (col - 1)) with
    | Some entry => Some (wrap (rank - entry))
    | None => None
    end
  else Some rank.

Definition unrank_step (s : unrank_state) : step_result unrank_state :=
  if ur_row s =? 0 then Break (ur_res s)
  else
    let row := wrap (ur_row s - 1) in
    read clear <- bit_is_clear (ur_rank s) row (ur_col s);
    if clear then
      Continue {| ur_rank := ur_rank s;
                  ur_res := ur_res s;
                  ur_row := row;
                  ur_col := wrap (ur_col s - 1);
                  ur_thisbit := shr_one (ur_thisbit s) |}
    else
      read rank <- rank_after_set (ur_rank s) row (ur_col s);
      read thisbit <- ur_thisbit s;
      Continue {| ur_rank := rank;
                  ur_res := Z.lor (ur_res s) thisbit;
                  ur_row := row;
                  ur_col := ur_col s;
                  ur_thisbit := Some (Z.shiftr thisbit 1) |}.

Definition permutation_from_rank (rank ntotbits nsetbits : Z) : outcome :=
  let s := unrank_init rank ntotbits nsetbits in
  match ur_thisbit s with
  | Some _ => run unrank_step LOOP_BOUND s
  | None => Undefined
  end.

End Engines.

(* ================================================================= *)
(** ** Vocabulary of the specification *)

(** The binomial coefficient, by Pascal's rule on unbounded integers.
    [binom_factorial] below ties it to the closed form with factorials. *)
Fixpoint binom (n k : nat) : Z :=
  match n, k with
  | _, O => 1
  | O, S _ => 0
  | S n', S k' => binom n' k' + binom n' k
  end.

Fixpoint factorial (n : nat) : Z :=
  match n with
  | O => 1
  | S m => Z.of_nat n * factorial m
  end.

(** [C(n, k)] on the integers the engines are called with. *)
Definition choose (n k : Z) : Z := binom (Z.to_nat n) (Z.to_nat k).

(** Row [i] of Pascal's triangle: [C(i,0) .. C(i,i)]. *)
Definition binom_row (i : nat) : list Z := map (binom i) (seq 0 (S i)).

(** Population count of the low [width] bits. *)
Fixpoint popcount (width : nat) (b : Z) : nat :=
  match width with
  | O => O
  | S w => ((if Z.testbit b (Z.of_nat w) then 1 else 0) + popcount w b)%nat
  end.

(** A bit-vector of class [(ntotbits, nsetbits)]: nothing at or above
    position [ntotbits], and [nsetbits] ones below it. *)
Definition in_class (b ntotbits nsetbits : Z) : bool :=
  (0 <=? b) && (b <? 2 ^ ntotbits)
  && (Z.of_nat (popcount (Z.to_nat ntotbits) b) =? nsetbits).

(** All the values of class [(ntotbits, nsetbits)], in ascending order. *)
Definition class_members (ntotbits nsetbits : Z) : list Z :=
  filter (fun b => in_class b ntotbits nsetbits)
    (map Z.of_nat (seq 0 (Z.to_nat (2 ^ ntotbits)))).

(** The loop-head states a loop passes through from [s0]. *)
Inductive reachable {S : Type} (step : S -> step_result S) (s0 : S)
  : S -> Prop :=
| reach_start : reachable step s0 s0
| reach_next (s s' : S) :
    reachable step s0 s -> step s = Continue s' -> reachable step s0 s'.

(** The value each engine computes from a loop-head position of [row]
    remaining bit positions and [col] remaining zeros, written by recursion
    on [row]. [rank_run] and [unrank_run] show that the loops compute
    them. *)
Fixpoint rank_value (row col : nat) (bitmap : Z) : Z :=
  match row with
  | O => 0
  | S row' =>
      if (col =? 0)%nat || (col =? row)%nat then 0
      else if Z.testbit bitmap (Z.of_nat row')
           then binom row' (col - 1) + rank_value row' col bitmap
           else rank_value row' (col - 1) bitmap
  end.

Fixpoint unrank_value (row col : nat) (rank : Z) : Z :=
  match row with
  | O => 0
  | S row' =>
      if (0 <? col)%nat && (rank <? binom row' (col - 1))
      then unrank_value row' (col - 1) rank
      else Z.lor (2 ^ Z.of_nat row')
             (unrank_value row' col
                (if (0 <? col)%nat then rank - binom row' (col - 1)
                 else rank))
  end.

(* ================================================================= *)
(** ** Loop heads and their invariants *)

(** The single bit a loop head at [row] is about to look at:
    [thisbit = 1 << (row - 1)] whenever a position remains. *)
Definition bit_at (row : nat) (thisbit : option Z) : Prop :=
  forall m : nat, row = S m -> thisbit = Some (2 ^ Z.of_nat m).

(** A loop head of the rank engine at [row], [col]. *)
Definition rank_at (total : Z) (row col : nat) (thisbit : option Z)
  : rank_state :=
  mk_rank_state total (Z.of_nat row) (Z.of_nat col) thisbit.

(** A loop head of the unrank engine at [row], [col]. *)
Definition unrank_at (rank res : Z) (row col : nat) (thisbit : option Z)
  : unrank_state :=
  mk_unrank_state rank res (Z.of_nat row) (Z.of_nat col) thisbit.

(** What holds at every loop head of the rank engine. *)
Definition rank_inv (s : rank_state) : Prop :=
  exists row col : nat,
    (col <= row <= 32)%nat /\
    rk_row s = Z.of_nat row /\ rk_col s = Z.of_nat col /\
    bit_at row (rk_thisbit s) /\
    0 <= rk_total s /\ rk_total s + binom row col <= 2 ^ 32.

(** What holds at every loop head of the unrank engine. *)
Definition unrank_inv (s : unrank_state) : Prop :=
  exists row col : nat,
    (col <= row <= 32)%nat /\
    ur_row s = Z.of_nat row /\ ur_col s = Z.of_nat col /\
    bit_at row (ur_thisbit s) /\
    0 <= ur_rank s < binom row col.

(* ================================================================= *)
(** ** Checks run over every class *)

(** Equality of two outcomes. *)
Definition outcome_eqb (a b : outcome) : bool :=
  match a, b with
  | Done x, Done y => x =? y
  | Undefined, Undefined => true
  | OutOfFuel, OutOfFuel => true
  | _, _ => false
  end.

(** The widths [0 .. MAXBITS]. *)
Definition widths : list Z := map Z.of_nat (seq 0 (S (Z.to_nat MAXBITS))).

(** The widths [1 .. MAXBITS]: those for which [1 << (ntotbits - 1)] is
    defined. *)
Definition shift_widths : list Z := map Z.of_nat (seq 1 (Z.to_nat MAXBITS)).

(** [check] on every class [(n, k)] with [k <= n] and [1 <= n <= MAXBITS]. *)
Definition on_classes (check : Z -> Z -> bool) : bool :=
  forallb (fun n => forallb (fun k => (n <? k) || check n k) widths)
    shift_widths.

(** What [permutation_from_rank] does one past the last rank, checked
    against the table's own [C(n, k)]. *)
Definition past_last_rank_checked (n k : Z) : bool :=
  match tbl_get built_table n k with
  | Some c =>
      outcome_eqb (permutation_from_rank built_table c n k)
        (if n - k <=? 1 then Done (2 ^ n - 1) else Undefined)
  | None => false
  end.

(** The four boundary calls of a width. *)
Definition boundary_checked (n : Z) : bool :=
  outcome_eqb (rank_from_permutation built_table 0 n 0) (Done 0)
  && outcome_eqb (permutation_from_rank built_table 0 n 0) (Done 0)
  && outcome_eqb (rank_from_permutation built_table (2 ^ n - 1) n n) (Done 0)
  && outcome_eqb (permutation_from_rank built_table 0 n n) (Done (2 ^ n - 1))
  && in_class 0 n 0 && in_class (2 ^ n - 1) n n.

(* ================================================================= *)
(** ** Enumerating a class *)

(** The ranks of class [(ntotbits, nsetbits)]:
    [0 .. C(ntotbits,nsetbits) - 1]. *)
Definition all_ranks (ntotbits nsetbits : Z) : list Z :=
  map Z.of_nat (seq 0 (Z.to_nat (choose ntotbits nsetbits))).

(* ================================================================= *)
(** ** bit_permutation_test and main *)

(** [operator<] on the characters of the string [nd]. The test only ever
    holds the characters 0 and 1 in it. *)
Definition char_lt (a b : ascii) : bool := (N_of_ascii a <? N_of_ascii b)%N.

(** [nd[i]] for a [std::string]: its characters, the null character at
    [nd.size()], undefined beyond. *)
Definition str_at (nd : list ascii) (i : Z) : option ascii :=
  if i =? Z.of_nat (length nd) then Some Ascii.zero else vec_at nd i.

(** The loop that reads the string [nd] as a binary number, last
    character first: [count] passes from [i] on. *)
Fixpoint bits_loop (count : nat) (nd : list ascii) (ntotbits i bits val : Z)
  : option Z :=
  match count with
  | O => Some bits
  | S count' =>
      match str_at nd (wrap (wrap (ntotbits - i) - 1)) with
      | None => None
      | Some c =>
          bits_loop count' nd ntotbits (wrap (i + 1))
            (if Ascii.eqb c "1"%char then wrap (bits + val) else bits)
            (wrap (Z.shiftl val 1))
      end
  end.

(** [bits = 0; val = 1; for (i = 0; i < ntotbits; ++i) ...] *)
Definition bits_of_string (nd : list ascii) (ntotbits : Z) : option Z :=
  bits_loop (Z.to_nat ntotbits) nd ntotbits 0 0 1.

(** [while (v) { ++ctz; v >>= 1; }]; an [unsigned] is 0 after 32
    shifts. *)
Fixpoint ctz_loop (passes : nat) (v ctz : Z) : Z :=
  if v =? 0 then ctz
  else match passes with
       | O => ctz
       | S passes' => ctz_loop passes' (Z.shiftr v 1) (wrap (ctz + 1))
       end.

(** [x >> count] on an [unsigned]; as for [shl_one], evaluating it with a
    count outside [0, 32) is undefined behaviour: [None]. *)
Definition shr (x count : Z) : option Z :=
  if (0 <=? count) && (count <? 32) then Some (Z.shiftr x count) else None.

(** The "next bit permutation" of the test, lines 100-112: the new value
    of [bitperm], or [None] when the shift of line 112 is undefined. The
    count [ctz + 1] is 33 for [bitperm = 0] and 32 for [bitperm = 2^31]. *)
Definition next_bit_permutation (bitperm : Z) : option Z :=
  let t := Z.lor bitperm (wrap (bitperm - 1)) in
  let v := bitperm in
  let ctz :=
    if negb (v =? 0)
    then ctz_loop 32 (Z.shiftr (Z.lxor v (wrap (v - 1))) 1) 0
    else 32 in
  let not_t := wrap (Z.lnot t) in
  match shr (wrap (Z.land not_t (wrap (- not_t)) - 1)) (wrap (ctz + 1)) with
  | Some low => Some (Z.lor (wrap (t + 1)) low)
  | None => None
  end.

(** [std::next_permutation], the usual algorithm, in two scans from the
    back. [find_pivot lt after x before_rev]: [x] is the element at [ii],
    [after] the elements behind it, [before_rev] those in front of it,
    nearest first. It stops at the first [i] whose element is less than
    the one at [ii], and returns what is in front of [i] (reversed), the
    element at [i], and the range from [ii] to the end. *)
Fixpoint find_pivot {A : Type} (lt : A -> A -> bool)
         (after : list A) (x : A) (before_rev : list A)
  : option (list A * A * list A) :=
  match before_rev with
  | [] => None
  | y :: before_rev' =>
      if lt y x then Some (before_rev', y, x :: after)
      else find_pivot lt (x :: after) y before_rev'
  end.

(** The scan for [j], the last element the pivot is less than, and
    [iter_swap(i, j)], on the range behind the pivot read from the back:
    the element swapped in for the pivot, and the range with the pivot in
    its place. *)
Fixpoint swap_pivot {A : Type} (lt : A -> A -> bool)
         (pivot : A) (range_rev : list A) : option (A * list A) :=
  match range_rev with
  | [] => None
  | e :: rest =>
      if lt pivot e then Some (e, pivot :: rest)
      else match swap_pivot lt pivot rest with
           | Some (e', rest') => Some (e', e :: rest')
           | None => None
           end
  end.

(** The permuted range and the returned flag. The range behind the pivot
    is reversed after the swap, so it ends up as it was read from the
    back. *)
Definition next_permutation {A : Type} (lt : A -> A -> bool) (l : list A)
  : list A * bool :=
  match rev l with
  | [] => (l, false)
  | x :: before_rev =>
      match find_pivot lt [] x before_rev with
      | None => (rev l, false)
      | Some (front_rev, pivot, range) =>
          match swap_pivot lt pivot (rev range) with
          | Some (e, range') => (rev front_rev ++ e :: range', true)
          | None => (l, false)
          end
      end
  end.

(** How a run of the test ends: it returns, a check throws
    [std::runtime_error], or it has undefined behaviour. [TestOutOfFuel]
    is the bound of the model's loops being reached. *)
Inductive test_result : Type :=
| Passed
| Thrown (what : String.string)
| TestUndefined
| TestOutOfFuel.

(** [iterate step p s]: at most [p] passes of a loop body, stopping at the
    first that ends the loop. *)
Fixpoint iterate {S R : Type} (step : S -> S + R) (p : positive) (s : S)
  : S + R :=
  match p with
  | xH => step s
  | xO p' =>
      match iterate step p' s with
      | inl s' => iterate step p' s'
      | inr r => inr r
      end
  | xI p' =>
      match step s with
      | inl s' =>
          match iterate step p' s' with
          | inl s'' => iterate step p' s''
          | inr r => inr r
          end
      | inr r => inr r
      end
  end.

(** The variables of the [do ... while] loop that live across
    iterations. *)
Record test_state : Type := mk_test_state {
  ts_nd : list ascii;
  ts_bitperm : Z;
  ts_count : Z
}.

Definition engine_result (o : outcome) (k : Z -> test_state + test_result)
  : test_state + test_result :=
  match o with
  | Done v => k v
  | Undefined => inr TestUndefined
  | OutOfFuel => inr TestOutOfFuel
  end.

Section Test.

Variable pascalt : table.
Variables ntotbits nsetbits : Z.

(** One pass of the [do ... while] body, lines 91-120. The next value of
    [bitperm] is computed in every pass, the last one included, right
    after the first check. *)
Definition test_body (s : test_state) : test_state + test_result :=
  match bits_of_string (ts_nd s) ntotbits with
  | None => inr TestUndefined
  | Some bits =>
      if negb (ts_bitperm s =? bits)
      then inr (Thrown "bitperm is not equal to bits"%string)
      else
        match next_bit_permutation (ts_bitperm s) with
        | None => inr TestUndefined
        | Some bitperm =>
        engine_result (rank_from_permutation pascalt bits ntotbits nsetbits)
          (fun rankval =>
        if negb (rankval =? ts_count s)
        then inr (Thrown "rankval is not equal to rank"%string)
        else
        engine_result
          (permutation_from_rank pascalt (ts_count s) ntotbits nsetbits)
          (fun pfr =>
        if negb (pfr =? bits)
        then inr (Thrown "permutation_from_rank is not equal to bits"%string)
        else
          let count := wrap (ts_count s + 1) in
          let (nd, more) := next_permutation char_lt (ts_nd s) in
          if more then inl (mk_test_state nd bitperm count)
          else inr Passed))
        end
  end.

(** The declarations of the body of the two [for] loops, for one class:
    the string of [ntotbits - nsetbits] zeros and [nsetbits] ones,
    [bitperm = (1ULL << nsetbits) - 1] and [count = 0]. The shift is on 64
    bits; it is undefined from a count of 64 on. *)
Definition test_start : option test_state :=
  let nd := repeat "0"%char (Z.to_nat (wrap (ntotbits - nsetbits)))
            ++ repeat "1"%char (Z.to_nat nsetbits) in
  if (0 <=? nsetbits) && (nsetbits <? 64)
  then Some (mk_test_state nd (wrap (Z.shiftl 1 nsetbits mod 2 ^ 64 - 1)) 0)
  else None.

(** The test of one class: the declarations, then the [do ... while]
    loop. An [unsigned] counter cannot count more than [2^32]
    iterations. *)
Definition class_test : test_result :=
  match test_start with
  | None => TestUndefined
  | Some start =>
      match iterate test_body (2 ^ 32)%positive start with
      | inr r => r
      | inl _ => TestOutOfFuel
      end
  end.

End Test.

(** The classes the two [for] loops go through, in their order. *)
Definition test_classes : list (Z * Z) :=
  flat_map
    (fun ntotbits =>
       map (fun nsetbits => (ntotbits, nsetbits))
         (map Z.of_nat (seq 0 (S (Z.to_nat ntotbits)))))
    widths.

Fixpoint for_each_class (test : Z -> Z -> test_result)
         (classes : list (Z * Z)) : test_result :=
  match classes with
  | [] => Passed
  | (ntotbits, nsetbits) :: rest =>
      match test ntotbits nsetbits with
      | Passed => for_each_class test rest
      | r => r
      end
  end.

(** [bit_permutation_test], without what it writes to [std::cout]. *)
Definition bit_permutation_test (pascalt : table) : test_result :=
  for_each_class (class_test pascalt) test_classes.

(** [main], without what it writes to [std::cout]: the exit status. The
    20 vectors it prints are computed before the test runs. *)
Definition main : outcome :=
  match make_pascal_triangle with
  | None => Undefined
  | Some pascalt =>
      if forallb
           (fun i =>
              match permutation_from_rank pascalt i 8 5 with
              | Done _ => true
              | _ => false
              end)
           (map Z.of_nat (seq 0 20))
      then
        match bit_permutation_test pascalt with
        | Passed => Done 0
        | Thrown _ => Done 1
        | TestUndefined => Undefined
        | TestOutOfFuel => OutOfFuel
        end
      else Undefined
  end.

(* ================================================================= *)
(** ** Strings of 0 and 1 *)

Definition bit_char (b : bool) : ascii := if b then "1"%char else "0"%char.

(** The string of a list of bits, first bit first. *)
Definition binary_string (bs : list bool) : list ascii := map bit_char bs.

(** The number a list of bits spells, most significant bit first. *)
Fixpoint binary_value (bs : list bool) : Z :=
  match bs with
  | [] => 0
  | b :: bs' =>
      (if b then 2 ^ Z.of_nat (length bs') else 0) + binary_value bs'
  end.

(** [char_lt] on bits: only 0 is less than 1. *)
Definition bit_lt (x y : bool) : bool := negb x && y.

Definition zeros (n : nat) : list bool := repeat false n.
Definition ones (n : nat) : list bool := repeat true n.

(** The number of [false] in a list of bits. *)
Definition count_zeros (bs : list bool) : nat :=
  length (filter negb bs).

(** The bits of [b] below position [width], most significant first. *)
Fixpoint bits_below (width : nat) (b : Z) : list bool :=
  match width with
  | O => []
  | S w => Z.testbit b (Z.of_nat w) :: bits_below w b
  end.

(** [passes step n s]: [n] passes of a loop body, stopping at the first
    that ends the loop; [iterate] counts the same passes in binary. *)
Fixpoint passes {S R : Type} (step : S -> S + R) (n : nat) (s : S) : S + R :=
  match n with
  | O => inl s
  | S n' =>
      match step s with
      | inl s' => passes step n' s'
      | inr r => inr r
      end
  end.

(** The strings the test of class [(ntotbits, nsetbits)] goes through:
    [ntotbits] characters, [nsetbits] of them 1. *)
Definition of_class (ntotbits nsetbits : nat) (bs : list bool) : Prop :=
  length bs = ntotbits /\ count_zeros bs = (ntotbits - nsetbits)%nat.

(** The variables of the test loop of class [(ntotbits, nsetbits)] when
    the string spells the bits [bs]: [bitperm] is the number they spell
    and [count] its rank. *)
Definition test_at (ntotbits nsetbits : nat) (bs : list bool) : test_state :=
  mk_test_state (binary_string bs) (binary_value bs)
    (rank_value ntotbits (ntotbits - nsetbits) (binary_value bs)).

(* ================================================================= *)
(** ** Binomial coefficients *)

Lemma binom_pascal (n k : nat) :
  binom (S n) (S k) = binom n k + binom n (S k).
Proof. reflexivity. Qed.

Lemma binom_0_r (n : nat) : binom n 0 = 1.
Proof. destruct n; reflexivity. Qed.

Lemma binom_nonneg (n k : nat) : 0 <= binom n k.
Proof.
  revert k; induction n as [|n IH]; intros [|k]; simpl; try lia.
  pose proof (IH k); pose proof (IH (S k)); lia.
Qed.

Lemma binom_above (n k : nat) : (n < k)%nat -> binom n k = 0.
Proof.
  revert k; induction n as [|n IH]; intros [|k] H; simpl; try lia.
  rewrite (IH k), (IH (S k)) by lia. reflexivity.
Qed.

(** A coefficient that is not 0 has its column inside the row. *)
Lemma binom_supports (n k : nat) : 0 < binom n k -> (k <= n)%nat.
Proof.
  intros H. destruct (Nat.le_gt_cases k n) as [L|G]; [exact L|].
  rewrite binom_above in H by exact G. lia.
Qed.

Lemma binom_diag (n : nat) : binom n n = 1.
Proof.
  induction n as [|n IH]; simpl; [reflexivity|].
  rewrite IH, binom_above by lia. reflexivity.
Qed.

Lemma binom_pos (n k : nat) : (k <= n)%nat -> 1 <= binom n k.
Proof.
  revert k; induction n as [|n IH]; intros [|k] H; simpl; try lia.
  pose proof (IH k ltac:(lia)). pose proof (binom_nonneg n (S k)). lia.
Qed.

Lemma binom_inner (n k : nat) : (0 < k < n)%nat -> 2 <= binom n k.
Proof.
  destruct n as [|n]; [lia|]. destruct k as [|k]; [lia|]. intros H.
  rewrite binom_pascal.
  pose proof (binom_pos n k ltac:(lia)).
  pose proof (binom_pos n (S k) ltac:(lia)). lia.
Qed.

Lemma binom_le_pow2 (n k : nat) : binom (S n) k <= 2 ^ Z.of_nat n.
Proof.
  revert k; induction n as [|n IH]; intros k.
  - destruct k as [|[|k]]; simpl; lia.
  - destruct k as [|k].
    + rewrite binom_0_r. pose proof (Z.pow_pos_nonneg 2 (Z.of_nat (S n))). lia.
    + rewrite binom_pascal.
      pose proof (IH k). pose proof (IH (S k)).
      replace (Z.of_nat (S n)) with (Z.of_nat n + 1) by lia.
      rewrite Z.pow_add_r by lia. lia.
Qed.

(** For [n <= 32] a coefficient fits an [unsigned] with room to spare. *)
Lemma binom_fits (n k : nat) : (n <= 32)%nat -> 0 <= binom n k <= 2 ^ 31.
Proof.
  intros H. split; [apply binom_nonneg|].
  destruct n as [|n].
  - destruct k; simpl; lia.
  - pose proof (binom_le_pow2 n k).
    assert (2 ^ Z.of_nat n <= 2 ^ 31) by (apply Z.pow_le_mono_r; lia). lia.
Qed.

Lemma factorial_pos (n : nat) : 0 < factorial n.
Proof. induction n as [|n IH]; [reflexivity|]. cbn [factorial]. nia. Qed.

(** The closed form: [C(n,k) * k! * (n-k)! = n!]. *)
Lemma binom_factorial (n k : nat) :
  (k <= n)%nat -> binom n k * factorial k * factorial (n - k) = factorial n.
Proof.
  revert k; induction n as [|n IH]; intros k H.
  - assert (k = O) by lia; subst; reflexivity.
  - destruct k as [|k].
    + rewrite binom_0_r. cbn [factorial Nat.sub]. lia.
    + rewrite binom_pascal.
      destruct (Nat.eq_dec k n) as [->|Hne].
      * rewrite (binom_above n (S n)), binom_diag, Nat.sub_diag by lia.
        change (factorial 0) with 1. lia.
      * pose proof (IH k ltac:(lia)) as E1.
        pose proof (IH (S k) ltac:(lia)) as E2.
        replace (n - k)%nat with (S (n - S k)) in E1 by lia.
        replace (S n - S k)%nat with (S (n - S k)) by lia.
        remember (n - S k)%nat as d.
        cbn [factorial] in *.
        remember (factorial k) as fk. remember (factorial d) as fd.
        remember (factorial n) as fn.
        remember (binom n k) as a. remember (binom n (S k)) as b.
        assert (Z.of_nat (S n) = Z.of_nat (S k) + Z.of_nat (S d)) by lia.
        nia.
Qed.

(* ================================================================= *)
(** ** The built table *)

Lemma wrap_small (z : Z) : 0 <= z < 2 ^ 32 -> wrap z = z.
Proof. intros H. apply Z.mod_small. exact H. Qed.

Lemma binom_row_length (i : nat) : length (binom_row i) = S i.
Proof. unfold binom_row. rewrite length_map, length_seq. reflexivity. Qed.

Lemma nth_error_seq (a n i : nat) :
  (i < n)%nat -> nth_error (seq a n) i = Some (a + i)%nat.
Proof.
  intros H. rewrite nth_error_nth' with (d := O) by (rewrite length_seq; lia).
  rewrite seq_nth by lia. reflexivity.
Qed.

Lemma binom_row_nth (i j : nat) :
  (j <= i)%nat -> nth_error (binom_row i) j = Some (binom i j).
Proof.
  intros H. unfold binom_row. apply map_nth_error.
  rewrite nth_error_seq by lia. reflexivity.
Qed.

Lemma inner_sums_cons (a b : Z) (tl : list Z) :
  inner_sums (a :: b :: tl) = wrap (a + b) :: inner_sums (b :: tl).
Proof. reflexivity. Qed.

(** The inner loop turns the entries of row [i] from column [a] on into
    the entries of row [i+1] from column [a+1] on; the sums do not wrap. *)
Lemma inner_sums_binom (i : nat) :
  (S i <= 32)%nat ->
  forall n a : nat,
    inner_sums (map (binom i) (seq a (S n))) =
    map (binom (S i)) (seq (S a) n).
Proof.
  intros Hi. induction n as [|n IH]; intros a; [reflexivity|].
  cbn [seq map]. rewrite inner_sums_cons.
  change (binom i (S a) :: map (binom i) (seq (S (S a)) n))
    with (map (binom i) (seq (S a) (S n))).
  rewrite IH. f_equal.
  rewrite <- (binom_pascal i a).
  pose proof (binom_fits (S i) (S a) Hi). apply wrap_small. lia.
Qed.

(** One pass of the outer loop pushes the next row of the triangle. *)
Lemma pushed_entries_binom (i : nat) :
  (S i <= 32)%nat -> pushed_entries (binom_row i) = Some (binom_row (S i)).
Proof.
  intros Hi.
  assert (Hlast : last (binom_row i) 0 = 1).
  { unfold binom_row. rewrite seq_S, map_app. cbn [map Nat.add].
    rewrite last_last. apply binom_diag. }
  unfold pushed_entries. rewrite Hlast.
  unfold binom_row at 2. rewrite inner_sums_binom by exact Hi.
  unfold binom_row.
  change (seq 0 (S i)) with (O :: seq 1 i).
  change (seq 0 (S (S i))) with (O :: seq 1 (S i)).
  cbn [map]. rewrite !binom_0_r. do 2 f_equal.
  rewrite (seq_S i 1), map_app. cbn [map Nat.add]. rewrite binom_diag.
  reflexivity.
Qed.

Lemma vec_at_nat {A : Type} (v : list A) (i : nat) :
  vec_at v (Z.of_nat i) = nth_error v i.
Proof.
  unfold vec_at. destruct (Nat.lt_ge_cases i (length v)) as [L|G].
  - replace ((0 <=? Z.of_nat i) && (Z.of_nat i <? Z.of_nat (length v)))
      with true by lia.
    rewrite Nat2Z.id. reflexivity.
  - replace ((0 <=? Z.of_nat i) && (Z.of_nat i <? Z.of_nat (length v)))
      with false by lia.
    symmetry. apply nth_error_None. exact G.
Qed.

Lemma vec_set_middle {A : Type} (before after : list A) (x y : A) (n : nat) :
  length before = n ->
  vec_set (before ++ x :: after) n y = before ++ y :: after.
Proof.
  intros <-. induction before as [|h before IH]; cbn [app length vec_set];
    [reflexivity|]. rewrite IH. reflexivity.
Qed.

(** The outer loop: with rows [0 .. i] filled and [count] empty rows after
    them, [count] passes fill those too. *)
Lemma fill_rows_binom (count : nat) :
  forall (i : nat) (rest : table),
    (i + count <= 32)%nat ->
    fill_rows count (Z.of_nat (S i))
      (map binom_row (seq 0 (S i)) ++ repeat [] count ++ rest) =
    Some (map binom_row (seq 0 (S i + count)) ++ rest).
Proof.
  induction count as [|count IH]; intros i rest Hi.
  - cbn [fill_rows repeat app]. rewrite Nat.add_0_r. reflexivity.
  - cbn [fill_rows].
    replace (Z.of_nat (S i) - 1) with (Z.of_nat i) by lia.
    rewrite !vec_at_nat.
    assert (Hlen : length (map binom_row (seq 0 (S i))) = S i)
      by (rewrite length_map, length_seq; reflexivity).
    rewrite nth_error_app1 by lia.
    rewrite (map_nth_error binom_row i (seq 0 (S i)) (d := i))
      by (apply nth_error_seq; lia).
    rewrite nth_error_app2 by lia. rewrite Hlen, Nat.sub_diag.
    cbn [repeat app nth_error].
    rewrite pushed_entries_binom by lia.
    rewrite Nat2Z.id, vec_set_middle by exact Hlen. cbn [app].
    replace (Z.of_nat (S i) + 1) with (Z.of_nat (S (S i))) by lia.
    replace (map binom_row (seq 0 (S i)) ++
             binom_row (S i) :: repeat [] count ++ rest)
      with (map binom_row (seq 0 (S (S i))) ++ repeat [] count ++ rest).
    + rewrite IH by lia. do 4 f_equal. lia.
    + rewrite (seq_S (S i) 0), map_app, <- app_assoc. reflexivity.
Qed.

(** [make_pascal_triangle] runs, and its table is Pascal's triangle down
    to row [MAXBITS]. *)
Lemma make_pascal_triangle_rows :
  make_pascal_triangle = Some (map binom_row (seq 0 33)).
Proof.
  transitivity
    (fill_rows 32 (Z.of_nat 1)
       (map binom_row (seq 0 1) ++ repeat [] 32 ++ [])).
  - reflexivity.
  - rewrite fill_rows_binom by lia. rewrite app_nil_r. reflexivity.
Qed.

Lemma built_table_rows : built_table = map binom_row (seq 0 33).
Proof. unfold built_table. rewrite make_pascal_triangle_rows. reflexivity. Qed.

Lemma make_pascal_triangle_runs : make_pascal_triangle = Some built_table.
Proof. rewrite built_table_rows. exact make_pascal_triangle_rows. Qed.

Lemma built_rows : length built_table = 33%nat.
Proof. rewrite built_table_rows, length_map, length_seq. reflexivity. Qed.

Lemma built_row (i : nat) :
  (i <= 32)%nat -> nth_error built_table i = Some (binom_row i).
Proof.
  intros H. rewrite built_table_rows. apply map_nth_error.
  rewrite nth_error_seq by lia. reflexivity.
Qed.

Lemma built_row_length (i : nat) (row : list Z) :
  nth_error built_table i = Some row -> length row = S i.
Proof.
  intros H.
  assert (Hi : (i < 33)%nat).
  { rewrite <- built_rows. apply nth_error_Some. congruence. }
  rewrite built_row in H by lia.
  injection H as <-. apply binom_row_length.
Qed.

Lemma built_get (i j : nat) :
  (j <= i <= 32)%nat ->
  tbl_get built_table (Z.of_nat i) (Z.of_nat j) = Some (binom i j).
Proof.
  intros H. unfold tbl_get.
  rewrite vec_at_nat, built_row by lia.
  rewrite vec_at_nat. apply binom_row_nth. lia.
Qed.

(** Every cell the table has lies in the triangle. *)
Lemma built_get_inv (i j e : Z) :
  tbl_get built_table i j = Some e -> 0 <= j <= i /\ i <= 32.
Proof.
  unfold tbl_get, vec_at. rewrite built_rows.
  destruct ((0 <=? i) && (i <? Z.of_nat 33)) eqn:Hi; [|discriminate].
  destruct (nth_error built_table (Z.to_nat i)) as [row|] eqn:Hrow;
    [|discriminate].
  apply built_row_length in Hrow. rewrite Hrow.
  destruct ((0 <=? j) && (j <? Z.of_nat (S (Z.to_nat i)))) eqn:Hj;
    [|discriminate].
  intros _. lia.
Qed.

Lemma built_get_Z (i j : Z) :
  0 <= j <= i -> i <= 32 -> tbl_get built_table i j = Some (choose i j).
Proof.
  intros H1 H2. unfold choose.
  rewrite <- (Z2Nat.id i) at 1 by lia. rewrite <- (Z2Nat.id j) at 1 by lia.
  apply built_get. lia.
Qed.

(* ================================================================= *)
(** ** Words and single bits *)

Lemma wrap_pred (n : nat) :
  (n <= 32)%nat -> wrap (Z.of_nat (S n) - 1) = Z.of_nat n.
Proof. intros H. rewrite wrap_small; lia. Qed.

Lemma pow2_le_31 (m : nat) : (m <= 31)%nat -> 0 < 2 ^ Z.of_nat m <= 2 ^ 31.
Proof.
  intros H. split; [apply Z.pow_pos_nonneg; lia|].
  apply Z.pow_le_mono_r; lia.
Qed.

Lemma land_pow2 (b m : Z) :
  0 <= m -> Z.land b (2 ^ m) = if Z.testbit b m then 2 ^ m else 0.
Proof.
  intros Hm. apply Z.bits_inj'. intros i Hi.
  rewrite Z.land_spec, Z.pow2_bits_eqb by lia.
  destruct (Z.eqb_spec m i) as [->|Hne].
  - destruct (Z.testbit b i); simpl.
    + rewrite Z.pow2_bits_true by lia. reflexivity.
    + rewrite Z.bits_0. reflexivity.
  - rewrite andb_false_r.
    destruct (Z.testbit b m).
    + rewrite Z.pow2_bits_false by lia. reflexivity.
    + rewrite Z.bits_0. reflexivity.
Qed.

(** [bitmap & thisbit] as a condition, for [thisbit] a single bit. *)
Lemma land_pow2_test (b : Z) (m : nat) :
  negb (Z.land b (2 ^ Z.of_nat m) =? 0) = Z.testbit b (Z.of_nat m).
Proof.
  rewrite land_pow2 by lia.
  pose proof (Z.pow_pos_nonneg 2 (Z.of_nat m)).
  destruct (Z.testbit b (Z.of_nat m)); lia.
Qed.

Lemma shiftr_pow2 (m : nat) :
  Z.shiftr (2 ^ Z.of_nat (S m)) 1 = 2 ^ Z.of_nat m.
Proof.
  rewrite Z.shiftr_div_pow2 by lia.
  replace (Z.of_nat (S m)) with (Z.of_nat m + 1) by lia.
  rewrite Z.pow_add_r by lia. apply Z.div_mul. discriminate.
Qed.

Lemma shl_one_bit (n : nat) :
  (n <= 31)%nat -> shl_one (wrap (Z.of_nat (S n) - 1)) = Some (2 ^ Z.of_nat n).
Proof.
  intros H. rewrite wrap_pred by lia. unfold shl_one.
  replace ((0 <=? Z.of_nat n) && (Z.of_nat n <? 32)) with true by lia.
  rewrite Z.shiftl_1_l. pose proof (pow2_le_31 n H).
  rewrite wrap_small; [reflexivity|lia].
Qed.

Lemma bit_at_shift (m : nat) : bit_at m (Some (Z.shiftr (2 ^ Z.of_nat m) 1)).
Proof. intros m' ->. rewrite shiftr_pow2. reflexivity. Qed.

Lemma bit_at_init (n : nat) :
  (n <= 32)%nat -> bit_at n (shl_one (wrap (Z.of_nat n - 1))).
Proof. intros H m ->. apply shl_one_bit. lia. Qed.

(* ================================================================= *)
(** ** One iteration of each engine on the built table *)

Lemma rank_step_break (bitmap total : Z) (row col : nat) tb :
  (row <= 32)%nat -> col = O \/ col = row ->
  rank_step built_table bitmap (rank_at total row col tb) = Break total.
Proof.
  intros Hr Hc. unfold rank_step, rank_at, reading.
  cbn [rk_row rk_col rk_total].
  rewrite built_get by lia.
  destruct Hc as [->| ->]; [rewrite binom_0_r|rewrite binom_diag];
    reflexivity.
Qed.

Lemma rank_step_inner (bitmap total : Z) (row col : nat) :
  (S row <= 32)%nat -> (0 < col < S row)%nat ->
  0 <= total -> total + binom (S row) col <= 2 ^ 32 ->
  rank_step built_table bitmap
    (rank_at total (S row) col (Some (2 ^ Z.of_nat row))) =
  Continue
    (if Z.testbit bitmap (Z.of_nat row)
     then rank_at (total + binom row (col - 1)) row col
            (Some (Z.shiftr (2 ^ Z.of_nat row) 1))
     else rank_at total row (col - 1)
            (Some (Z.shiftr (2 ^ Z.of_nat row) 1))).
Proof.
  intros Hr Hc Ht Hsum.
  unfold rank_step, rank_at, reading;
    cbn [rk_row rk_col rk_total rk_thisbit].
  rewrite built_get by lia.
  pose proof (binom_inner (S row) col Hc) as H2.
  replace (binom (S row) col =? 1) with false by lia.
  rewrite land_pow2_test, wrap_pred by lia.
  assert (Hcol : wrap (Z.of_nat col - 1) = Z.of_nat (col - 1))
    by (rewrite wrap_small; lia).
  rewrite Hcol.
  destruct (Z.testbit bitmap (Z.of_nat row)); [|reflexivity].
  rewrite built_get by lia. cbn beta iota.
  destruct col as [|c]; [lia|].
  rewrite binom_pascal in Hsum.
  replace (S c - 1)%nat with c in * by lia.
  pose proof (binom_nonneg row c). pose proof (binom_pos row (S c) ltac:(lia)).
  rewrite wrap_small by lia. reflexivity.
Qed.

Lemma unrank_step_break (rank res : Z) (col : nat) tb :
  unrank_step built_table (unrank_at rank res O col tb) = Break res.
Proof. reflexivity. Qed.

Lemma unrank_step_body (rank res : Z) (row col : nat) :
  (S row <= 32)%nat -> (col <= S row)%nat ->
  0 <= rank < binom (S row) col ->
  unrank_step built_table
    (unrank_at rank res (S row) col (Some (2 ^ Z.of_nat row))) =
  Continue
    (if (0 <? col)%nat && (rank <? binom row (col - 1))
     then unrank_at rank res row (col - 1)
            (Some (Z.shiftr (2 ^ Z.of_nat row) 1))
     else unrank_at
            (if (0 <? col)%nat then rank - binom row (col - 1) else rank)
            (Z.lor res (2 ^ Z.of_nat row)) row col
            (Some (Z.shiftr (2 ^ Z.of_nat row) 1))).
Proof.
  intros Hr Hc Hrank.
  unfold unrank_step, unrank_at, reading;
    cbn [ur_row ur_col ur_rank ur_res ur_thisbit].
  replace (Z.of_nat (S row) =? 0) with false by lia.
  rewrite wrap_pred by lia.
  unfold bit_is_clear, rank_after_set.
  destruct col as [|c].
  - cbn. reflexivity.
  - replace (0 <? Z.of_nat (S c)) with true by lia.
    replace (negb (Z.of_nat (S c) =? 0)) with true by lia.
    replace (0 <? S c)%nat with true by lia.
    rewrite wrap_pred by lia.
    replace (S c - 1)%nat with c by lia.
    rewrite built_get by lia. cbn [andb shr_one option_map].
    destruct (rank <? binom row c) eqn:Hlt; [reflexivity|].
    pose proof (binom_fits (S row) (S c) Hr).
    pose proof (binom_nonneg row c).
    rewrite wrap_small by lia. reflexivity.
Qed.

(* ================================================================= *)
(** ** The loops compute [rank_value] and [unrank_value] *)

Lemma run_unfold {S : Type} (step : S -> step_result S) (n : nat) (s : S) :
  run step n s =
  match step s with
  | Break v => Done v
  | Fault => Undefined
  | Continue s' => match n with O => OutOfFuel | S n' => run step n' s' end
  end.
Proof. destruct n; reflexivity. Qed.

(** Once a run has ended, a larger bound changes nothing. *)
Lemma run_more {S : Type} (step : S -> step_result S) (n m : nat) (s : S) :
  run step n s <> OutOfFuel -> (n <= m)%nat -> run step m s = run step n s.
Proof.
  revert m s; induction n as [|n IH]; intros m s Hn Hle.
  - rewrite (run_unfold step m), (run_unfold step O) in *.
    destruct (step s); congruence.
  - destruct m as [|m]; [lia|]. cbn [run] in *.
    destruct (step s); try reflexivity. apply IH; [exact Hn|lia].
Qed.

Lemma rank_value_range (bitmap : Z) (row col : nat) :
  (col <= row)%nat -> 0 <= rank_value row col bitmap < binom row col.
Proof.
  revert col; induction row as [|row IH]; intros col H.
  - pose proof (binom_pos O col H). cbn [rank_value]. lia.
  - cbn [rank_value].
    destruct ((col =? 0)%nat || (col =? S row)%nat) eqn:E.
    + pose proof (binom_pos (S row) col H). lia.
    + destruct col as [|c]; [discriminate|].
      replace (S c - 1)%nat with c by lia. rewrite binom_pascal.
      pose proof (IH c ltac:(lia)). pose proof (IH (S c) ltac:(lia)).
      destruct (Z.testbit bitmap (Z.of_nat row)); lia.
Qed.

Lemma rank_run (bitmap : Z) (row : nat) :
  forall (col : nat) (total : Z) (fuel : nat) (tb : option Z),
    (col <= row <= 32)%nat -> (row <= fuel)%nat -> bit_at row tb ->
    0 <= total -> total + binom row col <= 2 ^ 32 ->
    run (rank_step built_table bitmap) fuel (rank_at total row col tb) =
    Done (total + rank_value row col bitmap).
Proof.
  induction row as [|row IH]; intros col total fuel tb Hc Hf Hb Ht Hs.
  - rewrite run_unfold, rank_step_break by lia. cbn [rank_value].
    f_equal. lia.
  - rewrite run_unfold. cbn [rank_value].
    destruct ((col =? 0)%nat || (col =? S row)%nat) eqn:E.
    + rewrite rank_step_break by lia. f_equal. lia.
    + rewrite (Hb row eq_refl), rank_step_inner by lia.
      destruct fuel as [|fuel]; [lia|].
      destruct col as [|c]; [discriminate|].
      replace (S c - 1)%nat with c by lia.
      rewrite binom_pascal in Hs.
      pose proof (binom_nonneg row c). pose proof (binom_nonneg row (S c)).
      destruct (Z.testbit bitmap (Z.of_nat row)).
      * rewrite IH; [f_equal; lia|lia|lia|apply bit_at_shift|lia|lia].
      * rewrite IH; [reflexivity|lia|lia|apply bit_at_shift|lia|lia].
Qed.

Lemma unrank_run (row : nat) :
  forall (col : nat) (rank res : Z) (fuel : nat) (tb : option Z),
    (col <= row <= 32)%nat -> (row <= fuel)%nat -> bit_at row tb ->
    0 <= rank < binom row col ->
    run (unrank_step built_table) fuel (unrank_at rank res row col tb) =
    Done (Z.lor res (unrank_value row col rank)).
Proof.
  induction row as [|row IH]; intros col rank res fuel tb Hc Hf Hb Hr.
  - rewrite run_unfold, unrank_step_break. cbn [unrank_value].
    rewrite Z.lor_0_r. reflexivity.
  - rewrite run_unfold, (Hb row eq_refl), unrank_step_body by lia.
    destruct fuel as [|fuel]; [lia|]. cbn [unrank_value].
    destruct col as [|c].
    + cbn [Nat.ltb Nat.leb andb]. rewrite binom_0_r in Hr.
      rewrite IH, Z.lor_assoc;
        [reflexivity|lia|lia|apply bit_at_shift|rewrite binom_0_r; lia].
    + replace (0 <? S c)%nat with true by lia.
      replace (S c - 1)%nat with c by lia. cbn [andb].
      rewrite binom_pascal in Hr.
      destruct (rank <? binom row c) eqn:Hlt.
      * rewrite IH; [reflexivity|lia|lia|apply bit_at_shift|lia].
      * assert (S c <= row)%nat by (apply binom_supports; lia).
        rewrite IH, Z.lor_assoc;
          [reflexivity|lia|lia|apply bit_at_shift|lia].
Qed.

(* ================================================================= *)
(** ** Bit-vectors and their classes *)

Lemma testbit_small (x : Z) (m i : nat) :
  0 <= x < 2 ^ Z.of_nat m -> (m <= i)%nat -> Z.testbit x (Z.of_nat i) = false.
Proof.
  intros Hx Hi. rewrite <- (Z.mod_small x (2 ^ Z.of_nat m)) by exact Hx.
  apply Z.mod_pow2_bits_high. lia.
Qed.

(** The top bit of a [S m]-bit value says which half it is in. *)
Lemma testbit_top (b : Z) (m : nat) :
  0 <= b < 2 ^ Z.of_nat (S m) ->
  Z.testbit b (Z.of_nat m) = (2 ^ Z.of_nat m <=? b).
Proof.
  intros Hb.
  replace (Z.of_nat (S m)) with (Z.of_nat m + 1) in Hb by lia.
  rewrite Z.pow_add_r in Hb by lia.
  pose proof (Z.pow_pos_nonneg 2 (Z.of_nat m)) as Hp.
  destruct (Z.leb_spec (2 ^ Z.of_nat m) b) as [Hle|Hlt].
  - apply Z.testbit_true; [lia|].
    replace (b / 2 ^ Z.of_nat m) with 1; [reflexivity|].
    apply Z.div_unique with (r := b - 2 ^ Z.of_nat m); lia.
  - apply (testbit_small b m m); lia.
Qed.

(** Dropping the top bit keeps the lower ones. *)
Lemma testbit_drop_top (b : Z) (m i : nat) :
  2 ^ Z.of_nat m <= b < 2 ^ Z.of_nat (S m) -> (i < m)%nat ->
  Z.testbit (b - 2 ^ Z.of_nat m) (Z.of_nat i) = Z.testbit b (Z.of_nat i).
Proof.
  intros Hb Hi.
  replace (Z.of_nat (S m)) with (Z.of_nat m + 1) in Hb by lia.
  rewrite Z.pow_add_r in Hb by lia.
  replace (b - 2 ^ Z.of_nat m) with (b mod 2 ^ Z.of_nat m).
  - apply Z.mod_pow2_bits_low. lia.
  - symmetry. apply Z.mod_unique with (q := 1); lia.
Qed.

Lemma lor_pow2_low (x : Z) (m : nat) :
  0 <= x < 2 ^ Z.of_nat m -> Z.lor (2 ^ Z.of_nat m) x = 2 ^ Z.of_nat m + x.
Proof.
  intros Hx.
  assert (E : Z.land (2 ^ Z.of_nat m) x = 0).
  { rewrite Z.land_comm, land_pow2 by lia.
    rewrite (testbit_small x m m) by lia. reflexivity. }
  rewrite <- Z.lxor_lor by exact E. symmetry.
  apply Z.add_nocarry_lxor. exact E.
Qed.

Lemma testbit_lor_pow2_low (x : Z) (m i : nat) :
  (i < m)%nat ->
  Z.testbit (Z.lor (2 ^ Z.of_nat m) x) (Z.of_nat i) = Z.testbit x (Z.of_nat i).
Proof.
  intros Hi. rewrite Z.lor_spec, Z.pow2_bits_false by lia. reflexivity.
Qed.

Lemma testbit_lor_pow2_top (x : Z) (m : nat) :
  Z.testbit (Z.lor (2 ^ Z.of_nat m) x) (Z.of_nat m) = true.
Proof. rewrite Z.lor_spec, Z.pow2_bits_true by lia. reflexivity. Qed.

Lemma popcount_ext (width : nat) (b b' : Z) :
  (forall i : nat, (i < width)%nat ->
                   Z.testbit b (Z.of_nat i) = Z.testbit b' (Z.of_nat i)) ->
  popcount width b = popcount width b'.
Proof.
  induction width as [|w IH]; intros H; [reflexivity|].
  cbn [popcount]. rewrite (H w) by lia. rewrite IH; [reflexivity|].
  intros i Hi. apply H. lia.
Qed.

Lemma popcount_le (width : nat) (b : Z) : (popcount width b <= width)%nat.
Proof.
  induction width as [|w IH]; cbn [popcount]; [lia|].
  destruct (Z.testbit b (Z.of_nat w)); lia.
Qed.

(** No ones: the vector is 0. *)
Lemma popcount_none (width : nat) (b : Z) :
  0 <= b < 2 ^ Z.of_nat width -> popcount width b = O -> b = 0.
Proof.
  revert b; induction width as [|w IH]; intros b Hb Hp.
  - simpl in Hb. lia.
  - cbn [popcount] in Hp. pose proof (testbit_top b w Hb) as Ht.
    destruct (Z.testbit b (Z.of_nat w)); [lia|].
    apply IH; lia.
Qed.

(** Only ones: the vector is [2^width - 1]. *)
Lemma popcount_all (width : nat) (b : Z) :
  0 <= b < 2 ^ Z.of_nat width -> popcount width b = width ->
  b = 2 ^ Z.of_nat width - 1.
Proof.
  revert b; induction width as [|w IH]; intros b Hb Hp.
  - simpl in Hb. simpl. lia.
  - cbn [popcount] in Hp. pose proof (testbit_top b w Hb) as Ht.
    pose proof (popcount_le w b).
    destruct (Z.testbit b (Z.of_nat w)); [|lia].
    replace (Z.of_nat (S w)) with (Z.of_nat w + 1) in * by lia.
    rewrite Z.pow_add_r in * by lia.
    assert (E : b - 2 ^ Z.of_nat w = 2 ^ Z.of_nat w - 1).
    { apply IH; [lia|].
      rewrite (popcount_ext w _ b); [lia|].
      intros i Hi. apply testbit_drop_top; [|lia].
      replace (Z.of_nat (S w)) with (Z.of_nat w + 1) by lia.
      rewrite Z.pow_add_r by lia. lia. }
    lia.
Qed.

(* ================================================================= *)
(** ** The two values are inverse to each other *)

Lemma rank_value_ext (row : nat) :
  forall (col : nat) (b b' : Z),
    (forall i : nat, (i < row)%nat ->
                     Z.testbit b (Z.of_nat i) = Z.testbit b' (Z.of_nat i)) ->
    rank_value row col b = rank_value row col b'.
Proof.
  induction row as [|row IH]; intros col b b' H; [reflexivity|].
  cbn [rank_value]. rewrite (H row) by lia.
  rewrite (IH col b b'), (IH (col - 1)%nat b b');
    try reflexivity; intros i Hi; apply H; lia.
Qed.

Lemma unrank_value_range (row : nat) :
  forall (col : nat) (rank : Z),
    0 <= unrank_value row col rank < 2 ^ Z.of_nat row.
Proof.
  induction row as [|row IH]; intros col rank; cbn [unrank_value].
  - simpl. lia.
  - replace (Z.of_nat (S row)) with (Z.of_nat row + 1) by lia.
    rewrite Z.pow_add_r by lia.
    destruct ((0 <? col)%nat && (rank <? binom row (col - 1))).
    + pose proof (IH (col - 1)%nat rank). lia.
    + match goal with
      | |- context [unrank_value row col ?r] =>
          pose proof (IH col r); rewrite lor_pow2_low by assumption
      end. lia.
Qed.

Lemma unrank_value_no_zero (row : nat) (rank : Z) :
  unrank_value row O rank = 2 ^ Z.of_nat row - 1.
Proof.
  induction row as [|row IH]; [reflexivity|].
  cbn [unrank_value Nat.ltb Nat.leb andb]. rewrite IH.
  pose proof (Z.pow_pos_nonneg 2 (Z.of_nat row)).
  rewrite lor_pow2_low by lia.
  replace (Z.of_nat (S row)) with (Z.of_nat row + 1) by lia.
  rewrite Z.pow_add_r by lia. lia.
Qed.

Lemma unrank_value_all_zero (row : nat) : unrank_value row row 0 = 0.
Proof.
  induction row as [|row IH]; [reflexivity|].
  cbn [unrank_value]. replace (S row - 1)%nat with row by lia.
  rewrite binom_diag. cbn. exact IH.
Qed.

(** Rank after unrank. *)
Lemma rank_unrank_value (row : nat) :
  forall (col : nat) (r : Z),
    (col <= row)%nat -> 0 <= r < binom row col ->
    rank_value row col (unrank_value row col r) = r.
Proof.
  induction row as [|row IH]; intros col r Hc Hr.
  - assert (col = O) by lia; subst. cbn in *. lia.
  - cbn [rank_value].
    destruct ((col =? 0)%nat || (col =? S row)%nat) eqn:E.
    + assert (binom (S row) col = 1).
      { destruct (Nat.eq_dec col O) as [->|];
          [apply binom_0_r|replace col with (S row) by lia; apply binom_diag]. }
      lia.
    + destruct col as [|c]; [discriminate|].
      cbn [unrank_value]. replace (0 <? S c)%nat with true by lia.
      replace (S c - 1)%nat with c by lia. cbn [andb].
      rewrite binom_pascal in Hr.
      destruct (r <? binom row c) eqn:Hlt.
      * rewrite (testbit_small _ row row)
          by (try apply unrank_value_range; lia).
        apply IH; lia.
      * assert (S c <= row)%nat by (apply binom_supports; lia).
        rewrite testbit_lor_pow2_top.
        rewrite (rank_value_ext row (S c) _
                   (unrank_value row (S c) (r - binom row c)))
          by (intros i Hi; apply testbit_lor_pow2_low; exact Hi).
        rewrite IH; lia.
Qed.

(** Unrank after rank, on a vector of the class. *)
Lemma unrank_rank_value (row : nat) :
  forall (col : nat) (b : Z),
    (col <= row)%nat -> 0 <= b < 2 ^ Z.of_nat row ->
    popcount row b = (row - col)%nat ->
    unrank_value row col (rank_value row col b) = b.
Proof.
  induction row as [|row IH]; intros col b Hc Hb Hp.
  - simpl in Hb. cbn. lia.
  - cbn [rank_value].
    destruct ((col =? 0)%nat || (col =? S row)%nat) eqn:E.
    + destruct (Nat.eq_dec col O) as [->|Hne].
      * rewrite unrank_value_no_zero. symmetry.
        apply popcount_all; [exact Hb|lia].
      * replace col with (S row) in * by lia.
        rewrite unrank_value_all_zero. symmetry.
        apply (popcount_none (S row)); [exact Hb|lia].
    + destruct col as [|c]; [discriminate|].
      replace (S c - 1)%nat with c by lia.
      cbn [popcount] in Hp. pose proof (testbit_top b row Hb) as Ht.
      destruct (Z.testbit b (Z.of_nat row)).
      * assert (Hhalf : 2 ^ Z.of_nat row <= b < 2 ^ Z.of_nat (S row)) by lia.
        set (b' := b - 2 ^ Z.of_nat row).
        assert (Hlow : forall i : nat, (i < row)%nat ->
                   Z.testbit b (Z.of_nat i) = Z.testbit b' (Z.of_nat i)).
        { intros i Hi. symmetry. apply testbit_drop_top; assumption. }
        rewrite (rank_value_ext row (S c) b b' Hlow).
        rewrite (popcount_ext row b b' Hlow) in Hp.
        assert (Hb' : 0 <= b' < 2 ^ Z.of_nat row).
        { subst b'. replace (Z.of_nat (S row)) with (Z.of_nat row + 1) in Hb
            by lia. rewrite Z.pow_add_r in Hb by lia. lia. }
        pose proof (rank_value_range b' row (S c) ltac:(lia)) as Hv.
        pose proof (binom_nonneg row c).
        cbn [unrank_value]. replace (0 <? S c)%nat with true by lia.
        replace (S c - 1)%nat with c by lia. cbn [andb].
        replace (binom row c + rank_value row (S c) b' <? binom row c)
          with false by lia.
        replace (binom row c + rank_value row (S c) b' - binom row c)
          with (rank_value row (S c) b') by lia.
        rewrite IH by lia. rewrite lor_pow2_low by exact Hb'.
        subst b'. lia.
      * pose proof (rank_value_range b row c ltac:(lia)) as Hv.
        cbn [unrank_value]. replace (0 <? S c)%nat with true by lia.
        replace (S c - 1)%nat with c by lia. cbn [andb].
        replace (rank_value row c b <? binom row c) with true by lia.
        apply IH; lia.
Qed.

(** A larger rank gives a larger vector. *)
Lemma unrank_value_increasing (row : nat) :
  forall (col : nat) (r1 r2 : Z),
    (col <= row)%nat -> 0 <= r1 -> r1 < r2 -> r2 < binom row col ->
    unrank_value row col r1 < unrank_value row col r2.
Proof.
  induction row as [|row IH]; intros col r1 r2 Hc H1 H12 H2.
  - assert (col = O) by lia; subst. cbn in H2. lia.
  - destruct col as [|c]; [rewrite binom_0_r in H2; lia|].
    cbn [unrank_value]. replace (0 <? S c)%nat with true by lia.
    replace (S c - 1)%nat with c by lia. cbn [andb].
    rewrite binom_pascal in H2.
    pose proof (unrank_value_range row c r1) as R1.
    pose proof (unrank_value_range row (S c) (r1 - binom row c)) as R1'.
    pose proof (unrank_value_range row (S c) (r2 - binom row c)) as R2'.
    destruct (r1 <? binom row c) eqn:L1; destruct (r2 <? binom row c) eqn:L2.
    + apply IH; lia.
    + rewrite lor_pow2_low by exact R2'. lia.
    + lia.
    + assert (S c <= row)%nat by (apply binom_supports; lia).
      rewrite !lor_pow2_low by assumption.
      pose proof (IH (S c) (r1 - binom row c) (r2 - binom row c)). lia.
Qed.

(** The vector of a valid rank is in the class. *)
Lemma popcount_unrank_value (row : nat) :
  forall (col : nat) (r : Z),
    (col <= row)%nat -> 0 <= r < binom row col ->
    popcount row (unrank_value row col r) = (row - col)%nat.
Proof.
  induction row as [|row IH]; intros col r Hc Hr; [reflexivity|].
  cbn [popcount unrank_value].
  destruct col as [|c].
  - cbn [Nat.ltb Nat.leb andb]. rewrite testbit_lor_pow2_top.
    rewrite (popcount_ext row _ (unrank_value row O r))
      by (intros i Hi; apply testbit_lor_pow2_low; exact Hi).
    rewrite binom_0_r in Hr.
    rewrite IH by (rewrite ?binom_0_r; lia). lia.
  - replace (0 <? S c)%nat with true by lia.
    replace (S c - 1)%nat with c by lia. cbn [andb].
    rewrite binom_pascal in Hr.
    destruct (r <? binom row c) eqn:Hlt.
    + rewrite (testbit_small _ row row) by (try apply unrank_value_range; lia).
      rewrite IH by lia. lia.
    + assert (S c <= row)%nat by (apply binom_supports; lia).
      rewrite testbit_lor_pow2_top.
      rewrite (popcount_ext row _ (unrank_value row (S c) (r - binom row c)))
        by (intros i Hi; apply testbit_lor_pow2_low; exact Hi).
      rewrite IH by lia. lia.
Qed.

Lemma binom_sym (n k : nat) : (k <= n)%nat -> binom n (n - k) = binom n k.
Proof.
  intros H.
  pose proof (binom_factorial n k H) as E1.
  pose proof (binom_factorial n (n - k) ltac:(lia)) as E2.
  replace (n - (n - k))%nat with k in E2 by lia.
  pose proof (factorial_pos k). pose proof (factorial_pos (n - k)).
  assert (E : binom n (n - k) * (factorial k * factorial (n - k)) =
              binom n k * (factorial k * factorial (n - k))) by lia.
  apply Z.mul_reg_r in E; [exact E|nia].
Qed.

(* ================================================================= *)
(** ** Calls of the engines on the built table *)

(** With [1 <= ntotbits <= 32] the shift in front of the loop is defined
    and a call is its loop; with [ntotbits = 0] the shift count is
    [2^32 - 1] and the call is undefined, whatever the table and the other
    arguments. *)
Lemma rank_call_loop (t : table) (bitmap ntotbits nsetbits : Z) :
  1 <= ntotbits <= 32 ->
  rank_from_permutation t bitmap ntotbits nsetbits =
  run (rank_step t bitmap) LOOP_BOUND (rank_init ntotbits nsetbits).
Proof.
  intros Hn. unfold rank_from_permutation, rank_init, shl_one.
  cbn [rk_thisbit]. rewrite wrap_small by lia.
  replace ((0 <=? ntotbits - 1) && (ntotbits - 1 <? 32)) with true by lia.
  reflexivity.
Qed.

Lemma unrank_call_loop (t : table) (rank ntotbits nsetbits : Z) :
  1 <= ntotbits <= 32 ->
  permutation_from_rank t rank ntotbits nsetbits =
  run (unrank_step t) LOOP_BOUND (unrank_init rank ntotbits nsetbits).
Proof.
  intros Hn. unfold permutation_from_rank, unrank_init, shl_one.
  cbn [ur_thisbit]. rewrite wrap_small by lia.
  replace ((0 <=? ntotbits - 1) && (ntotbits - 1 <? 32)) with true by lia.
  reflexivity.
Qed.

Lemma rank_call_width_0 (t : table) (bitmap nsetbits : Z) :
  rank_from_permutation t bitmap 0 nsetbits = Undefined.
Proof. reflexivity. Qed.

Lemma unrank_call_width_0 (t : table) (rank nsetbits : Z) :
  permutation_from_rank t rank 0 nsetbits = Undefined.
Proof. reflexivity. Qed.

(** A call whose first iteration faults is undefined, with or without a
    defined shift in front of the loop. *)
Lemma rank_call_fault (t : table) (bitmap ntotbits nsetbits : Z) :
  rank_step t bitmap (rank_init ntotbits nsetbits) = Fault ->
  rank_from_permutation t bitmap ntotbits nsetbits = Undefined.
Proof.
  intros H. unfold rank_from_permutation.
  destruct (rk_thisbit (rank_init ntotbits nsetbits)); [|reflexivity].
  rewrite run_unfold, H. reflexivity.
Qed.

Lemma unrank_call_fault (t : table) (rank ntotbits nsetbits : Z) :
  unrank_step t (unrank_init rank ntotbits nsetbits) = Fault ->
  permutation_from_rank t rank ntotbits nsetbits = Undefined.
Proof.
  intros H. unfold permutation_from_rank.
  destruct (ur_thisbit (unrank_init rank ntotbits nsetbits)); [|reflexivity].
  rewrite run_unfold, H. reflexivity.
Qed.

Section Calls.

Variables ntotbits nsetbits : Z.
Hypothesis class_ok : 0 <= nsetbits <= ntotbits.
Hypothesis width_ok : ntotbits <= 32.

Let row := Z.to_nat ntotbits.
Let col := (Z.to_nat ntotbits - Z.to_nat nsetbits)%nat.

Lemma choose_col : binom row col = choose ntotbits nsetbits.
Proof. unfold choose. subst row col. apply binom_sym. lia. Qed.

Lemma rank_init_at :
  rank_init ntotbits nsetbits =
  rank_at 0 row col (shl_one (wrap (Z.of_nat row - 1))).
Proof.
  unfold rank_init, rank_at. subst row col.
  rewrite wrap_small by lia. f_equal; try lia.
  rewrite Z2Nat.id by lia. reflexivity.
Qed.

Lemma unrank_init_at (rank : Z) :
  unrank_init rank ntotbits nsetbits =
  unrank_at rank 0 row col (shl_one (wrap (Z.of_nat row - 1))).
Proof.
  unfold unrank_init, unrank_at. subst row col.
  rewrite wrap_small by lia. f_equal; try lia.
  rewrite Z2Nat.id by lia. reflexivity.
Qed.

Lemma rank_iterations (bitmap : Z) (fuel : nat) :
  (row <= fuel)%nat ->
  run (rank_step built_table bitmap) fuel (rank_init ntotbits nsetbits) =
  Done (rank_value row col bitmap).
Proof.
  intros Hf. rewrite rank_init_at. 
  rewrite rank_run; try (subst row col; lia).
  - reflexivity.
  - apply bit_at_init. subst row; lia.
  - pose proof (binom_fits row col ltac:(subst row; lia)). lia.
Qed.

Lemma unrank_iterations (rank : Z) (fuel : nat) :
  0 <= rank < choose ntotbits nsetbits -> (row <= fuel)%nat ->
  run (unrank_step built_table) fuel (unrank_init rank ntotbits nsetbits) =
  Done (unrank_value row col rank).
Proof.
  intros Hr Hf. rewrite unrank_init_at. 
  rewrite unrank_run; try (subst row col; lia).
  - reflexivity.
  - apply bit_at_init. subst row; lia.
  - rewrite choose_col. exact Hr.
Qed.

Lemma rank_call (bitmap : Z) :
  1 <= ntotbits ->
  rank_from_permutation built_table bitmap ntotbits nsetbits =
  Done (rank_value row col bitmap).
Proof.
  intros Hpos. rewrite rank_call_loop by lia.
  apply rank_iterations. subst row. unfold LOOP_BOUND, MAXBITS. lia.
Qed.

Lemma unrank_call (rank : Z) :
  0 <= rank < choose ntotbits nsetbits -> 1 <= ntotbits ->
  permutation_from_rank built_table rank ntotbits nsetbits =
  Done (unrank_value row col rank).
Proof.
  intros Hr Hpos. rewrite unrank_call_loop by lia.
  apply unrank_iterations; [exact Hr|].
  subst row. unfold LOOP_BOUND, MAXBITS. lia.
Qed.

(** A class with more than one member, or with a member other than 0, has
    a width of at least one bit. *)
Lemma two_ranks_width (r : Z) :
  0 < r < choose ntotbits nsetbits -> 1 <= ntotbits.
Proof.
  intros Hr. destruct (Z.eq_dec ntotbits 0) as [E|]; [|lia].
  exfalso. assert (K : nsetbits = 0) by lia. rewrite E, K in Hr.
  cbn in Hr. lia.
Qed.

Lemma in_class_spec (b : Z) :
  in_class b ntotbits nsetbits = true ->
  0 <= b < 2 ^ Z.of_nat row /\ popcount row b = (row - col)%nat.
Proof.
  unfold in_class. subst row col. intros H.
  rewrite Z2Nat.id by lia. lia.
Qed.

End Calls.

(* ================================================================= *)
(** ** Invariants of the loops *)

Lemma rank_inv_step (bitmap : Z) (s : rank_state) :
  rank_inv s ->
  match rank_step built_table bitmap s with
  | Fault => False
  | Break _ => True
  | Continue s' =>
      rank_inv s' /\ 1 <= rk_col s /\ rk_col s - 1 <= rk_row s' /\
      rk_row s' = rk_row s - 1
  end.
Proof.
  intros (row & col & Hc & Hrow & Hcol & Hb & Ht & Hs).
  destruct s as [total r c tb]; cbn in Hrow, Hcol, Hb, Ht, Hs |- *.
  subst r c. change (mk_rank_state total (Z.of_nat row) (Z.of_nat col) tb)
    with (rank_at total row col tb).
  destruct (Nat.eq_dec col O) as [->|Hc0];
    [rewrite rank_step_break by lia; exact I|].
  destruct (Nat.eq_dec col row) as [->|Hcr];
    [rewrite rank_step_break by lia; exact I|].
  destruct row as [|row]; [lia|].
  rewrite (Hb row eq_refl), rank_step_inner by lia.
  destruct col as [|c]; [lia|]. rewrite binom_pascal in Hs.
  replace (S c - 1)%nat with c by lia.
  pose proof (binom_nonneg row c). pose proof (binom_nonneg row (S c)).
  destruct (Z.testbit bitmap (Z.of_nat row));
    unfold rank_at; cbn [rk_row rk_col rk_total rk_thisbit];
    (split; [|lia]).
  - exists row, (S c). cbn [rk_row rk_col rk_total rk_thisbit].
    repeat split; try lia. apply bit_at_shift.
  - exists row, c. cbn [rk_row rk_col rk_total rk_thisbit].
    repeat split; try lia. apply bit_at_shift.
Qed.

Lemma rank_inv_break (bitmap : Z) (s : rank_state) :
  rank_inv s -> rk_col s = 0 \/ rk_col s = rk_row s ->
  rank_step built_table bitmap s = Break (rk_total s).
Proof.
  intros (row & col & Hc & Hrow & Hcol & _) Hedge.
  destruct s as [total r c tb]; cbn in Hrow, Hcol, Hedge |- *. subst r c.
  apply (rank_step_break bitmap total row col tb); lia.
Qed.

Lemma unrank_inv_step (s : unrank_state) :
  unrank_inv s ->
  match unrank_step built_table s with
  | Fault => False
  | Break _ => ur_row s = 0
  | Continue s' =>
      unrank_inv s' /\ ur_row s' = ur_row s - 1 /\
      (0 < ur_col s -> ur_col s - 1 <= ur_row s')
  end.
Proof.
  intros (row & col & Hc & Hrow & Hcol & Hb & Hr).
  destruct s as [rank res r c tb]; cbn in Hrow, Hcol, Hb, Hr |- *.
  subst r c.
  change (mk_unrank_state rank res (Z.of_nat row) (Z.of_nat col) tb)
    with (unrank_at rank res row col tb).
  destruct row as [|row]; [reflexivity|].
  rewrite (Hb row eq_refl), unrank_step_body by lia.
  destruct col as [|c].
  - cbn [Nat.ltb Nat.leb andb]. unfold unrank_at.
    cbn [ur_row ur_col ur_rank ur_thisbit]. split; [|lia].
    exists row, O. cbn [ur_row ur_col ur_rank ur_thisbit].
    rewrite binom_0_r in *. repeat split; try lia. apply bit_at_shift.
  - replace (0 <? S c)%nat with true by lia.
    replace (S c - 1)%nat with c by lia. cbn [andb].
    rewrite binom_pascal in Hr.
    destruct (rank <? binom row c) eqn:Hlt; unfold unrank_at;
      cbn [ur_row ur_col ur_rank ur_thisbit]; (split; [|lia]).
    + exists row, c. cbn [ur_row ur_col ur_rank ur_thisbit].
      repeat split; try lia. apply bit_at_shift.
    + assert (S c <= row)%nat by (apply binom_supports; lia).
      exists row, (S c). cbn [ur_row ur_col ur_rank ur_thisbit].
      repeat split; try lia. apply bit_at_shift.
Qed.

Lemma rank_inv_init (ntotbits nsetbits : Z) :
  0 <= nsetbits <= ntotbits -> ntotbits <= 32 ->
  rank_inv (rank_init ntotbits nsetbits).
Proof.
  intros Hc Hw. rewrite rank_init_at by assumption.
  eexists _, _. unfold rank_at. cbn [rk_row rk_col rk_total rk_thisbit].
  split; [|split; [reflexivity|split; [reflexivity|split]]].
  - lia.
  - apply bit_at_init. lia.
  - match goal with
    | |- context [binom ?n ?k] => pose proof (binom_fits n k ltac:(lia))
    end. lia.
Qed.

Lemma unrank_inv_init (rank ntotbits nsetbits : Z) :
  0 <= nsetbits <= ntotbits -> ntotbits <= 32 ->
  0 <= rank < choose ntotbits nsetbits ->
  unrank_inv (unrank_init rank ntotbits nsetbits).
Proof.
  intros Hc Hw Hr. rewrite unrank_init_at by assumption.
  eexists _, _. unfold unrank_at. cbn [ur_row ur_col ur_rank ur_thisbit].
  split; [|split; [reflexivity|split; [reflexivity|split]]].
  - lia.
  - apply bit_at_init. lia.
  - rewrite choose_col by assumption. exact Hr.
Qed.

Lemma rank_inv_reachable (bitmap : Z) (s0 s : rank_state) :
  rank_inv s0 -> reachable (rank_step built_table bitmap) s0 s -> rank_inv s.
Proof.
  intros H0 Hreach. induction Hreach as [|s s' _ IH Hstep]; [exact H0|].
  pose proof (rank_inv_step bitmap s IH) as Hs.
  rewrite Hstep in Hs. apply Hs.
Qed.

Lemma unrank_inv_reachable (s0 s : unrank_state) :
  unrank_inv s0 -> reachable (unrank_step built_table) s0 s -> unrank_inv s.
Proof.
  intros H0 Hreach. induction Hreach as [|s s' _ IH Hstep]; [exact H0|].
  pose proof (unrank_inv_step s IH) as Hs.
  rewrite Hstep in Hs. apply Hs.
Qed.

(** The bound of [run] is never what ends a call: whatever the
    arguments, the rank loop has left, or faulted, within [LOOP_BOUND]
    bodies. *)
Lemma rank_bound_any (bitmap : Z) (row : nat) :
  forall (fuel : nat) (s : rank_state),
    rk_row s = Z.of_nat row -> (row <= fuel)%nat ->
    run (rank_step built_table bitmap) fuel s <> OutOfFuel.
Proof.
  induction row as [|row IH]; intros fuel s Hrow Hf;
    rewrite run_unfold; unfold rank_step, reading;
    destruct (tbl_get built_table (rk_row s) (rk_col s)) as [e|] eqn:He;
    try discriminate;
    destruct (Z.eqb_spec e 1) as [->|Hne]; try discriminate;
    destruct (rk_thisbit s) as [tb|]; try discriminate.
  - exfalso. pose proof (built_get_inv _ _ _ He) as Hin.
    assert (Hcol : rk_col s = Z.of_nat 0) by lia.
    rewrite Hrow, Hcol in He. rewrite built_get in He by lia.
    cbn in He. congruence.
  - destruct fuel as [|fuel]; [lia|].
    destruct (negb (Z.land bitmap tb =? 0)).
    + destruct
        (tbl_get built_table (wrap (rk_row s - 1)) (wrap (rk_col s - 1)));
        [|discriminate].
      apply IH; [|lia]. cbn [rk_row]. rewrite Hrow.
      pose proof (built_get_inv _ _ _ He). apply wrap_pred. lia.
    + apply IH; [|lia]. cbn [rk_row]. rewrite Hrow.
      pose proof (built_get_inv _ _ _ He). apply wrap_pred. lia.
Qed.

Lemma rank_loop_bound (bitmap ntotbits nsetbits : Z) (fuel : nat) :
  (LOOP_BOUND <= fuel)%nat ->
  run (rank_step built_table bitmap) LOOP_BOUND (rank_init ntotbits nsetbits)
  <> OutOfFuel /\
  run (rank_step built_table bitmap) fuel (rank_init ntotbits nsetbits) =
  run (rank_step built_table bitmap) LOOP_BOUND (rank_init ntotbits nsetbits).
Proof.
  intros Hf.
  assert (H : run (rank_step built_table bitmap) LOOP_BOUND
                (rank_init ntotbits nsetbits) <> OutOfFuel).
  { destruct (Z.le_gt_cases 0 ntotbits) as [Hn|Hn];
      [destruct (Z.le_gt_cases ntotbits 32) as [Hw|Hw]|].
    - apply (rank_bound_any bitmap (Z.to_nat ntotbits)).
      + cbn [rank_init rk_row]. lia.
      + unfold LOOP_BOUND, MAXBITS. lia.
    - rewrite run_unfold. unfold rank_step, reading. cbn [rank_init rk_row].
      destruct (tbl_get built_table ntotbits _) as [e|] eqn:He; [|discriminate].
      apply built_get_inv in He. lia.
    - rewrite run_unfold. unfold rank_step, reading. cbn [rank_init rk_row].
      destruct (tbl_get built_table ntotbits _) as [e|] eqn:He; [|discriminate].
      apply built_get_inv in He. lia. }
  split; [exact H|]. apply run_more; assumption.
Qed.

Lemma rank_bound_enough (bitmap ntotbits nsetbits : Z) :
  rank_from_permutation built_table bitmap ntotbits nsetbits <> OutOfFuel.
Proof.
  unfold rank_from_permutation.
  destruct (rk_thisbit (rank_init ntotbits nsetbits)); [|discriminate].
  apply (rank_loop_bound bitmap ntotbits nsetbits LOOP_BOUND). lia.
Qed.

Lemma unrank_bound_any (row : nat) :
  forall (fuel : nat) (s : unrank_state),
    ur_row s = Z.of_nat row -> (row <= fuel)%nat ->
    Z.of_nat row < 2 ^ 32 ->
    run (unrank_step built_table) fuel s <> OutOfFuel.
Proof.
  induction row as [|row IH]; intros fuel s Hrow Hf Hlt;
    rewrite run_unfold; unfold unrank_step, reading; rewrite Hrow.
  - discriminate.
  - replace (Z.of_nat (S row) =? 0) with false by lia.
    assert (Hpred : wrap (Z.of_nat (S row) - 1) = Z.of_nat row)
      by (rewrite wrap_small; lia).
    destruct (bit_is_clear built_table _ _ _) as [[|]|]; try discriminate.
    + destruct fuel as [|fuel]; [lia|].
      apply IH; [cbn [ur_row]; exact Hpred|lia|lia].
    + destruct (rank_after_set built_table _ _ _); try discriminate.
      destruct (ur_thisbit s); try discriminate.
      destruct fuel as [|fuel]; [lia|].
      apply IH; [cbn [ur_row]; exact Hpred|lia|lia].
Qed.

Lemma unrank_loop_bound (rank ntotbits nsetbits : Z) (fuel : nat) :
  0 <= ntotbits < 2 ^ 32 -> (LOOP_BOUND <= fuel)%nat ->
  run (unrank_step built_table) LOOP_BOUND
    (unrank_init rank ntotbits nsetbits) <> OutOfFuel /\
  run (unrank_step built_table) fuel (unrank_init rank ntotbits nsetbits) =
  run (unrank_step built_table) LOOP_BOUND
    (unrank_init rank ntotbits nsetbits).
Proof.
  intros Hn Hf.
  assert (H : run (unrank_step built_table) LOOP_BOUND
                (unrank_init rank ntotbits nsetbits) <> OutOfFuel).
  { destruct (Z.le_gt_cases ntotbits 33) as [Hw|Hw].
    - apply (unrank_bound_any (Z.to_nat ntotbits)).
      + cbn [unrank_init ur_row]. lia.
      + unfold LOOP_BOUND, MAXBITS. lia.
      + lia.
    - rewrite run_unfold. unfold unrank_step, reading.
      cbn [unrank_init ur_row ur_col ur_rank ur_thisbit].
      replace (ntotbits =? 0) with false by lia.
      assert (Hpred : wrap (ntotbits - 1) = ntotbits - 1)
        by (apply wrap_small; lia).
      rewrite Hpred. unfold bit_is_clear, rank_after_set.
      assert (Hcol : 0 <= wrap (ntotbits - nsetbits))
        by (apply Z.mod_pos_bound; lia).
      destruct (0 <? wrap (ntotbits - nsetbits)) eqn:Hpos.
      + destruct (tbl_get built_table (ntotbits - 1) _) as [e|] eqn:He;
          [|discriminate].
        apply built_get_inv in He. lia.
      + replace (negb (wrap (ntotbits - nsetbits) =? 0)) with false by lia.
        unfold shl_one.
        replace ((0 <=? ntotbits - 1) && (ntotbits - 1 <? 32)) with false
          by lia.
        discriminate. }
  split; [exact H|]. apply run_more; assumption.
Qed.

Lemma unrank_bound_enough (rank ntotbits nsetbits : Z) :
  0 <= ntotbits < 2 ^ 32 ->
  permutation_from_rank built_table rank ntotbits nsetbits <> OutOfFuel.
Proof.
  intros Hn. unfold permutation_from_rank.
  destruct (ur_thisbit (unrank_init rank ntotbits nsetbits)); [|discriminate].
  apply (unrank_loop_bound rank ntotbits nsetbits LOOP_BOUND); [exact Hn|lia].
Qed.

(** An iteration of the unrank loop that goes on leaves one row less. *)
Lemma unrank_step_row (t : table) (s s' : unrank_state) :
  0 <= ur_row s < 2 ^ 32 ->
  unrank_step t s = Continue s' -> ur_row s' = ur_row s - 1 /\ 1 <= ur_row s.
Proof.
  intros Hrow. unfold unrank_step, reading.
  destruct (Z.eqb_spec (ur_row s) 0) as [|Hne]; [discriminate|].
  destruct (bit_is_clear t _ _ _) as [[|]|]; try discriminate.
  - intros E. injection E as <-. cbn [ur_row].
    rewrite wrap_small by lia. lia.
  - destruct (rank_after_set t _ _ _); try discriminate.
    destruct (ur_thisbit s); try discriminate.
    intros E. injection E as <-. cbn [ur_row].
    rewrite wrap_small by lia. lia.
Qed.

(** The unrank loop only returns from a loop head with no row left: with
    fewer iterations allowed than it has rows, it has not returned. *)
Lemma unrank_run_not_early (t : table) (row : nat) :
  forall (fuel : nat) (s : unrank_state) (b : Z),
    ur_row s = Z.of_nat row -> Z.of_nat row < 2 ^ 32 ->
    (fuel < row)%nat ->
    run (unrank_step t) fuel s <> Done b.
Proof.
  induction row as [|row IH]; intros fuel s b Hrow Hlt Hf; [lia|].
  rewrite run_unfold.
  destruct (unrank_step t s) as [s'| v |] eqn:Hstep.
  - destruct (unrank_step_row t s s' ltac:(lia) Hstep) as [Hrow' _].
    destruct fuel as [|fuel]; [discriminate|].
    apply IH; lia.
  - exfalso. unfold unrank_step, reading in Hstep. rewrite Hrow in Hstep.
    replace (Z.of_nat (S row) =? 0) with false in Hstep by lia.
    destruct (bit_is_clear t _ _ _) as [[|]|]; try discriminate.
    destruct (rank_after_set t _ _ _); try discriminate.
    destruct (ur_thisbit s); discriminate.
  - discriminate.
Qed.

(* ================================================================= *)
(** ** Checking a property on every class up to [MAXBITS] *)

Lemma outcome_eqb_eq (a b : outcome) : outcome_eqb a b = true -> a = b.
Proof.
  destruct a, b; cbn; try discriminate; try reflexivity.
  intros H. f_equal. lia.
Qed.

Lemma in_widths (n : Z) : 0 <= n <= 32 -> In n widths.
Proof.
  intros H. unfold widths. rewrite <- (Z2Nat.id n) by lia.
  apply in_map, in_seq. unfold MAXBITS. lia.
Qed.

Lemma in_shift_widths (n : Z) : 1 <= n <= 32 -> In n shift_widths.
Proof.
  intros H. unfold shift_widths. rewrite <- (Z2Nat.id n) by lia.
  apply in_map, in_seq. unfold MAXBITS. lia.
Qed.

Lemma on_classes_spec (check : Z -> Z -> bool) :
  on_classes check = true ->
  forall n k : Z, 1 <= n -> 0 <= k <= n -> n <= 32 -> check n k = true.
Proof.
  unfold on_classes. intros H n k Hpos Hk Hn.
  rewrite forallb_forall in H.
  specialize (H n (in_shift_widths n ltac:(lia))).
  rewrite forallb_forall in H. specialize (H k (in_widths k ltac:(lia))).
  apply orb_true_iff in H. destruct H as [H|H]; [lia|exact H].
Qed.

Lemma past_last_rank_all : on_classes past_last_rank_checked = true.
Proof. vm_compute. reflexivity. Qed.

Lemma boundary_all : forallb boundary_checked shift_widths = true.
Proof. vm_compute. reflexivity. Qed.

(* ================================================================= *)
(** ** The properties of the specification *)

(** C1. For every class [(ntotbits, nsetbits)] with
    [nsetbits <= ntotbits <= 32] and every rank [r] with
    [0 <= r < C(ntotbits, nsetbits)]: when [1 <= ntotbits],
    [permutation_from_rank] returns a bit-vector, and
    [rank_from_permutation] applied to it returns [r]; when
    [ntotbits = 0], the class [(0, 0)] with its one rank 0, both engines
    evaluate [1 << (0u - 1)], a shift by [2^32 - 1], and the calls are
    undefined. *)
Theorem rank_of_unrank (ntotbits nsetbits r : Z) :
  0 <= nsetbits <= ntotbits -> ntotbits <= 32 ->
  0 <= r < choose ntotbits nsetbits ->
  (1 <= ntotbits ->
   exists b : Z,
     permutation_from_rank built_table r ntotbits nsetbits = Done b /\
     rank_from_permutation built_table b ntotbits nsetbits = Done r) /\
  (ntotbits = 0 ->
   permutation_from_rank built_table r ntotbits nsetbits = Undefined /\
   forall b : Z,
     rank_from_permutation built_table b ntotbits nsetbits = Undefined).
Proof.
  intros Hc Hw Hr. split.
  - intros Hpos. eexists. split; [apply unrank_call; assumption|].
    rewrite rank_call by assumption. f_equal.
    apply rank_unrank_value; [lia|].
    rewrite choose_col by assumption. exact Hr.
  - intros ->. split; [apply unrank_call_width_0|].
    intros b. apply rank_call_width_0.
Qed.

Lemma rank_of_unrank_witness :
  (exists b : Z,
     permutation_from_rank built_table 3 8 5 = Done b /\
     rank_from_permutation built_table b 8 5 = Done 3) /\
  (permutation_from_rank built_table 0 0 0 = Undefined /\
   forall b : Z, rank_from_permutation built_table b 0 0 = Undefined).
Proof.
  split.
  - apply (rank_of_unrank 8 5 3); [lia|lia| |lia].
    cbv; split; [discriminate|reflexivity].
  - apply (rank_of_unrank 0 0 0); [lia|lia| |reflexivity].
    cbv; split; [discriminate|reflexivity].
Defined.

(** C2. For every class with [nsetbits <= ntotbits <= 32] and every
    bit-vector [b] of the class (exactly [nsetbits] ones among the low
    [ntotbits] bits, nothing above): when [1 <= ntotbits],
    [rank_from_permutation] returns a rank, and [permutation_from_rank]
    applied to it returns [b]; when [ntotbits = 0], where [b = 0] is the
    one vector of the class, the call of [rank_from_permutation] is
    undefined, and so is [permutation_from_rank] with any rank, by the
    shift [1 << (0u - 1)]. *)
Theorem unrank_of_rank (ntotbits nsetbits b : Z) :
  0 <= nsetbits <= ntotbits -> ntotbits <= 32 ->
  in_class b ntotbits nsetbits = true ->
  (1 <= ntotbits ->
   exists r : Z,
     rank_from_permutation built_table b ntotbits nsetbits = Done r /\
     permutation_from_rank built_table r ntotbits nsetbits = Done b) /\
  (ntotbits = 0 ->
   b = 0 /\
   rank_from_permutation built_table b ntotbits nsetbits = Undefined /\
   forall r : Z,
     permutation_from_rank built_table r ntotbits nsetbits = Undefined).
Proof.
  intros Hc Hw Hb. split.
  - intros Hpos. eexists. split; [apply rank_call; assumption|].
    destruct (in_class_spec ntotbits nsetbits Hc b Hb) as [Hrange Hpop].
    rewrite unrank_call; try assumption.
    + f_equal. apply unrank_rank_value; [lia|exact Hrange|exact Hpop].
    + rewrite <- choose_col by assumption. apply rank_value_range. lia.
  - intros ->. split; [|split].
    + unfold in_class in Hb. cbn in Hb. lia.
    + apply rank_call_width_0.
    + intros r. apply unrank_call_width_0.
Qed.

Lemma unrank_of_rank_witness :
  (exists r : Z,
     rank_from_permutation built_table 59 8 5 = Done r /\
     permutation_from_rank built_table r 8 5 = Done 59) /\
  (0 = 0 /\
   rank_from_permutation built_table 0 0 0 = Undefined /\
   forall r : Z, permutation_from_rank built_table r 0 0 = Undefined).
Proof.
  split.
  - apply (unrank_of_rank 8 5 59); [lia|lia|reflexivity|lia].
  - apply (unrank_of_rank 0 0 0); [lia|lia|reflexivity|reflexivity].
Defined.

(** C3. [make_pascal_triangle] runs and leaves a table of rows [0..32];
    row [i] has [i+1] entries, its first and last are 1, every entry
    between them is the sum of the two above it, and every entry is the
    binomial coefficient [C(i,j)], which fits 32 bits and satisfies the
    closed form [C(i,j) * j! * (i-j)! = i!]. *)
Theorem pascal_triangle_correct :
  make_pascal_triangle = Some built_table /\
  length built_table = 33%nat /\
  (forall i : Z, 0 <= i <= 32 ->
     exists row : list Z,
       vec_at built_table i = Some row /\ Z.of_nat (length row) = i + 1 /\
       vec_at row 0 = Some 1 /\ vec_at row i = Some 1) /\
  (forall i j : Z, 0 < j < i -> i <= 32 ->
     exists above_left above entry : Z,
       tbl_get built_table (i - 1) (j - 1) = Some above_left /\
       tbl_get built_table (i - 1) j = Some above /\
       tbl_get built_table i j = Some entry /\
       entry = above_left + above) /\
  (forall i j : Z, 0 <= j <= i -> i <= 32 ->
     tbl_get built_table i j = Some (choose i j) /\
     0 < choose i j < 2 ^ 32 /\
     choose i j * factorial (Z.to_nat j) * factorial (Z.to_nat (i - j)) =
     factorial (Z.to_nat i)).
Proof.
  split; [exact make_pascal_triangle_runs|].
  split; [exact built_rows|]. split; [|split].
  - intros i Hi.
    pose proof (built_get_Z i 0 ltac:(lia) ltac:(lia)) as H0.
    pose proof (built_get_Z i i ltac:(lia) ltac:(lia)) as Hd.
    unfold tbl_get in H0, Hd.
    destruct (vec_at built_table i) as [row|] eqn:Hrow; [|discriminate].
    exists row. unfold choose in H0, Hd. cbn [Z.to_nat] in H0.
    rewrite binom_0_r in H0. rewrite binom_diag in Hd.
    repeat split; try assumption.
    unfold vec_at in Hrow.
    destruct ((0 <=? i) && (i <? Z.of_nat (length built_table)));
      [|discriminate].
    apply built_row_length in Hrow. lia.
  - intros i j Hj Hi.
    exists (choose (i - 1) (j - 1)), (choose (i - 1) j), (choose i j).
    rewrite !built_get_Z by lia. repeat split. unfold choose.
    replace (Z.to_nat i) with (S (Z.to_nat (i - 1))) by lia.
    replace (Z.to_nat j) with (S (Z.to_nat (j - 1))) by lia.
    apply binom_pascal.
  - intros i j Hj Hi. split; [apply built_get_Z; lia|]. unfold choose.
    pose proof (binom_fits (Z.to_nat i) (Z.to_nat j) ltac:(lia)).
    pose proof (binom_pos (Z.to_nat i) (Z.to_nat j) ltac:(lia)).
    split; [lia|].
    replace (Z.to_nat (i - j)) with (Z.to_nat i - Z.to_nat j)%nat by lia.
    apply binom_factorial. lia.
Qed.

Lemma pascal_triangle_correct_witness :
  tbl_get built_table 4 2 = Some (choose 4 2) /\
  0 < choose 4 2 < 2 ^ 32 /\
  choose 4 2 * factorial (Z.to_nat 2) * factorial (Z.to_nat (4 - 2)) =
  factorial (Z.to_nat 4).
Proof.
  apply (proj2 (proj2 (proj2 (proj2 pascal_triangle_correct))) 4 2); lia.
Defined.

(** C4. For every class with [nsetbits <= ntotbits <= 32] and every
    bit-vector [b] of the class: when [1 <= ntotbits],
    [rank_from_permutation] returns a value in
    [0, C(ntotbits, nsetbits))); when [ntotbits = 0] the call is undefined,
    by the shift [1 << (0u - 1)]. *)
Theorem rank_in_range (ntotbits nsetbits b : Z) :
  0 <= nsetbits <= ntotbits -> ntotbits <= 32 ->
  in_class b ntotbits nsetbits = true ->
  (1 <= ntotbits ->
   exists r : Z,
     rank_from_permutation built_table b ntotbits nsetbits = Done r /\
     0 <= r < choose ntotbits nsetbits) /\
  (ntotbits = 0 ->
   rank_from_permutation built_table b ntotbits nsetbits = Undefined).
Proof.
  intros Hc Hw _. split.
  - intros Hpos. eexists. split; [apply rank_call; assumption|].
    rewrite <- choose_col by assumption. apply rank_value_range. lia.
  - intros ->. apply rank_call_width_0.
Qed.

Lemma rank_in_range_witness :
  (exists r : Z,
     rank_from_permutation built_table 122 8 5 = Done r /\
     0 <= r < choose 8 5) /\
  rank_from_permutation built_table 0 0 0 = Undefined.
Proof.
  split.
  - apply (rank_in_range 8 5 122); [lia|lia|reflexivity|lia].
  - apply (rank_in_range 0 0 0); [lia|lia|reflexivity|reflexivity].
Defined.

(** C5. For every class with [nsetbits <= ntotbits <= 32], the vectors
    [permutation_from_rank] returns for the ranks
    [0, 1, ..., C(ntotbits,nsetbits) - 1] are strictly increasing as
    unsigned integers: a larger rank gives a larger vector. *)
Theorem unrank_strictly_increasing (ntotbits nsetbits r1 r2 : Z) :
  0 <= nsetbits <= ntotbits -> ntotbits <= 32 ->
  0 <= r1 -> r1 < r2 -> r2 < choose ntotbits nsetbits ->
  exists b1 b2 : Z,
    permutation_from_rank built_table r1 ntotbits nsetbits = Done b1 /\
    permutation_from_rank built_table r2 ntotbits nsetbits = Done b2 /\
    0 <= b1 /\ b1 < b2 /\ b2 < 2 ^ 32.
Proof.
  intros Hc Hw H1 H12 H2.
  pose proof (two_ranks_width ntotbits nsetbits Hc r2 ltac:(lia)) as Hpos.
  eexists _, _.
  split; [apply unrank_call; [assumption|assumption|lia|assumption]|].
  split; [apply unrank_call; [assumption|assumption|lia|assumption]|].
  pose proof (unrank_value_range (Z.to_nat ntotbits)
                (Z.to_nat ntotbits - Z.to_nat nsetbits) r1) as R1.
  pose proof (unrank_value_range (Z.to_nat ntotbits)
                (Z.to_nat ntotbits - Z.to_nat nsetbits) r2) as R2.
  assert (2 ^ Z.of_nat (Z.to_nat ntotbits) <= 2 ^ 32)
    by (apply Z.pow_le_mono_r; lia).
  split; [lia|]. split; [|lia].
  apply unrank_value_increasing; try lia.
  rewrite choose_col by assumption. exact H2.
Qed.

Lemma unrank_strictly_increasing_witness :
  exists b1 b2 : Z,
    permutation_from_rank built_table 5 8 5 = Done b1 /\
    permutation_from_rank built_table 6 8 5 = Done b2 /\
    0 <= b1 /\ b1 < b2 /\ b2 < 2 ^ 32.
Proof.
  apply (unrank_strictly_increasing 8 5 5 6); [lia|lia|lia|lia|].
  cbv. reflexivity.
Defined.

(** C6. In class [(8, 5)]: rank 0 gives 31 (binary 00011111); 31 has rank
    0; the ranks [0..19] give the 20 smallest 8-bit values with exactly 5
    ones, in ascending order; the first seven of them are 00011111,
    00101111, 00110111, 00111011, 00111101, 00111110, 01001111. *)
Theorem scenario_8_5 :
  permutation_from_rank built_table 0 8 5 = Done 31 /\
  rank_from_permutation built_table 31 8 5 = Done 0 /\
  map (fun r => permutation_from_rank built_table r 8 5)
      (map Z.of_nat (seq 0 20)) =
  map Done (firstn 20 (class_members 8 5)) /\
  firstn 7 (class_members 8 5) = [31; 47; 55; 59; 61; 62; 79].
Proof. vm_compute. repeat split. Qed.

(** C7, as the code has it. Neither engine checks a precondition or fails
    with an error of its own. For [nsetbits <= ntotbits <= 32] and
    [1 <= ntotbits], [rank_from_permutation] returns a value in
    [0, C(ntotbits,nsetbits)) for every bitmap, whatever its population
    count; and [permutation_from_rank] called with the rank
    [C(ntotbits,nsetbits)] returns [2^ntotbits - 1] when
    [ntotbits - nsetbits <= 1] and otherwise has undefined behaviour, a
    table read out of range. *)
Theorem preconditions_unchecked (ntotbits nsetbits : Z) :
  1 <= ntotbits -> 0 <= nsetbits <= ntotbits -> ntotbits <= 32 ->
  (forall bitmap : Z,
     exists r : Z,
       rank_from_permutation built_table bitmap ntotbits nsetbits = Done r /\
       0 <= r < choose ntotbits nsetbits) /\
  permutation_from_rank built_table (choose ntotbits nsetbits)
    ntotbits nsetbits =
  (if ntotbits - nsetbits <=? 1 then Done (2 ^ ntotbits - 1) else Undefined).
Proof.
  intros Hpos Hc Hw. split.
  - intros bitmap. eexists. split; [apply rank_call; assumption|].
    rewrite <- choose_col by assumption. apply rank_value_range. lia.
  - pose proof (on_classes_spec _ past_last_rank_all ntotbits nsetbits
                  Hpos Hc Hw) as H.
    unfold past_last_rank_checked in H.
    rewrite built_get_Z in H by lia.
    apply outcome_eqb_eq. exact H.
Qed.

Lemma preconditions_unchecked_witness :
  (forall bitmap : Z,
     exists r : Z,
       rank_from_permutation built_table bitmap 8 5 = Done r /\
       0 <= r < choose 8 5) /\
  permutation_from_rank built_table (choose 8 5) 8 5 =
  (if 8 - 5 <=? 1 then Done (2 ^ 8 - 1) else Undefined).
Proof. apply (preconditions_unchecked 8 5); lia. Defined.

(** C7 fails as stated. The bitmap 255 has 8 ones, not 5, and
    [rank_from_permutation(255, 8, 5)] returns 55; [C(1,0) = 1] is one past
    the only rank of class [(1, 0)], and [permutation_from_rank(1, 1, 0)]
    returns 1. Neither call is rejected. *)
Lemma violations_return_results :
  popcount 8 255 = 8%nat /\
  rank_from_permutation built_table 255 8 5 = Done 55 /\
  choose 1 0 = 1 /\
  permutation_from_rank built_table 1 1 0 = Done 1.
Proof. vm_compute. repeat split. Qed.

(** C8. The boundary classes, for every width [1 <= ntotbits <= 32]. With
    [nsetbits = 0] the all-zero vector has rank 0 and rank 0 gives 0; with
    [nsetbits = ntotbits] the vector of [ntotbits] ones has rank 0 and
    rank 0 gives it. With [ntotbits = 0] and [nsetbits = 0], where rank 0
    and the vector 0 should map to each other, both calls are undefined:
    [1 << (0u - 1)] shifts by [2^32 - 1]. *)
Theorem boundary_classes (ntotbits : Z) :
  0 <= ntotbits <= 32 ->
  (1 <= ntotbits ->
   (in_class 0 ntotbits 0 = true /\
    rank_from_permutation built_table 0 ntotbits 0 = Done 0 /\
    permutation_from_rank built_table 0 ntotbits 0 = Done 0) /\
   (in_class (2 ^ ntotbits - 1) ntotbits ntotbits = true /\
    rank_from_permutation built_table (2 ^ ntotbits - 1) ntotbits ntotbits
    = Done 0 /\
    permutation_from_rank built_table 0 ntotbits ntotbits
    = Done (2 ^ ntotbits - 1))) /\
  (permutation_from_rank built_table 0 0 0 = Undefined /\
   rank_from_permutation built_table 0 0 0 = Undefined).
Proof.
  intros Hn. split; [|split; reflexivity].
  intros Hpos. pose proof boundary_all as H.
  rewrite forallb_forall in H.
  specialize (H ntotbits (in_shift_widths ntotbits ltac:(lia))).
  unfold boundary_checked in H.
  repeat (apply andb_prop in H; destruct H as [H ?]).
  repeat match goal with
         | E : outcome_eqb _ _ = true |- _ => apply outcome_eqb_eq in E
         end.
  repeat split; assumption.
Qed.

Lemma boundary_classes_witness :
  ((in_class 0 6 0 = true /\
    rank_from_permutation built_table 0 6 0 = Done 0 /\
    permutation_from_rank built_table 0 6 0 = Done 0) /\
   (in_class (2 ^ 6 - 1) 6 6 = true /\
    rank_from_permutation built_table (2 ^ 6 - 1) 6 6 = Done 0 /\
    permutation_from_rank built_table 0 6 6 = Done (2 ^ 6 - 1))) /\
  (permutation_from_rank built_table 0 0 0 = Undefined /\
   rank_from_permutation built_table 0 0 0 = Undefined).
Proof.
  destruct (boundary_classes 6 ltac:(lia)) as [H U].
  split; [apply H; lia|exact U].
Defined.

(** C9. No table read is out of range under the preconditions. In
    [rank_from_permutation], for every bitmap and
    [nsetbits <= ntotbits <= 32], every loop head has
    [col <= row <= 32]; the loop leaves there when [col = 0] or
    [col = row]; the iteration does not fault; and an iteration that goes
    on, so any that reads [pascalt[row][col-1]], has [col >= 1] and
    [col - 1 <= row] for the decremented [row]. In
    [permutation_from_rank], with [rank < C(ntotbits,nsetbits)] as well,
    every loop head has [col <= row <= 32], the iteration does not fault,
    and [col - 1 <= row] for the decremented [row] whenever [col > 0];
    with [col = 0] the cell is not read at all, whatever the table. *)
Theorem table_reads_in_range (ntotbits nsetbits : Z) :
  0 <= nsetbits <= ntotbits -> ntotbits <= 32 ->
  (forall (bitmap : Z) (s : rank_state),
     reachable (rank_step built_table bitmap)
       (rank_init ntotbits nsetbits) s ->
     0 <= rk_col s <= rk_row s /\ rk_row s <= 32 /\
     (rk_col s = 0 \/ rk_col s = rk_row s ->
      rank_step built_table bitmap s = Break (rk_total s)) /\
     rank_step built_table bitmap s <> Fault /\
     forall s' : rank_state,
       rank_step built_table bitmap s = Continue s' ->
       rk_row s' = rk_row s - 1 /\ 1 <= rk_col s /\
       rk_col s - 1 <= rk_row s') /\
  (forall (rank : Z) (s : unrank_state),
     0 <= rank < choose ntotbits nsetbits ->
     reachable (unrank_step built_table)
       (unrank_init rank ntotbits nsetbits) s ->
     0 <= ur_col s <= ur_row s /\ ur_row s <= 32 /\
     unrank_step built_table s <> Fault /\
     forall s' : unrank_state,
       unrank_step built_table s = Continue s' ->
       ur_row s' = ur_row s - 1 /\
       (0 < ur_col s -> ur_col s - 1 <= ur_row s')) /\
  (forall (pascalt : table) (rank row : Z),
     bit_is_clear pascalt rank row 0 = Some false /\
     rank_after_set pascalt rank row 0 = Some rank).
Proof.
  intros Hc Hw. split; [|split].
  - intros bitmap s Hreach.
    pose proof (rank_inv_reachable bitmap _ s
                  (rank_inv_init ntotbits nsetbits Hc Hw) Hreach) as Hinv.
    pose proof (rank_inv_step bitmap s Hinv) as Hstep.
    pose proof (rank_inv_break bitmap s Hinv) as Hbreak.
    destruct Hinv as (row & col & Hrc & Hrow & Hcol & _).
    split; [lia|]. split; [lia|]. split; [exact Hbreak|]. split.
    + intros E. rewrite E in Hstep. exact Hstep.
    + intros s' E. rewrite E in Hstep. lia.
  - intros rank s Hr Hreach.
    pose proof (unrank_inv_reachable _ s
                  (unrank_inv_init rank ntotbits nsetbits Hc Hw Hr) Hreach)
      as Hinv.
    pose proof (unrank_inv_step s Hinv) as Hstep.
    destruct Hinv as (row & col & Hrc & Hrow & Hcol & _).
    split; [lia|]. split; [lia|]. split.
    + intros E. rewrite E in Hstep. exact Hstep.
    + intros s' E. rewrite E in Hstep. split; [lia|]. apply Hstep.
  - intros pascalt rank row. split; reflexivity.
Qed.

Lemma table_reads_in_range_witness :
  (let s := rank_init 8 5 in
   0 <= rk_col s <= rk_row s /\ rk_row s <= 32 /\
   (rk_col s = 0 \/ rk_col s = rk_row s ->
    rank_step built_table 47 s = Break (rk_total s)) /\
   rank_step built_table 47 s <> Fault /\
   forall s' : rank_state,
     rank_step built_table 47 s = Continue s' ->
     rk_row s' = rk_row s - 1 /\ 1 <= rk_col s /\
     rk_col s - 1 <= rk_row s') /\
  (let s := unrank_init 3 8 5 in
   0 <= ur_col s <= ur_row s /\ ur_row s <= 32 /\
   unrank_step built_table s <> Fault /\
   forall s' : unrank_state,
     unrank_step built_table s = Continue s' ->
     ur_row s' = ur_row s - 1 /\
     (0 < ur_col s -> ur_col s - 1 <= ur_row s')).
Proof.
  destruct (table_reads_in_range 8 5 ltac:(lia) ltac:(lia)) as (Hr & Hu & _).
  split.
  - apply (Hr 47). apply reach_start.
  - apply (Hu 3).
    + cbv. split; [discriminate|reflexivity].
    + apply reach_start.
Defined.

(** C10. Both loops terminate on the precondition domain
    [nsetbits <= ntotbits <= 32]. The loop of [rank_from_permutation]
    leaves within [ntotbits] iterations for every bitmap. The loop of
    [permutation_from_rank] never takes more than [ntotbits] iterations,
    whatever the rank; when it returns it has taken exactly [ntotbits]:
    it has returned when that many are allowed and is still running when
    fewer are; and it returns for every rank below
    [C(ntotbits,nsetbits)]. From [ntotbits = 1] on, where the shift in
    front of the loop is defined, what the loop returns is what the call
    returns. *)
Theorem loops_terminate (ntotbits nsetbits : Z) :
  0 <= nsetbits <= ntotbits -> ntotbits <= 32 ->
  (forall bitmap : Z,
     exists r : Z,
       run (rank_step built_table bitmap) (Z.to_nat ntotbits)
         (rank_init ntotbits nsetbits) = Done r /\
       (1 <= ntotbits ->
        rank_from_permutation built_table bitmap ntotbits nsetbits
        = Done r)) /\
  (forall rank : Z,
     run (unrank_step built_table) (Z.to_nat ntotbits)
       (unrank_init rank ntotbits nsetbits) <> OutOfFuel) /\
  (forall (rank b : Z) (allowed : nat),
     run (unrank_step built_table) allowed
       (unrank_init rank ntotbits nsetbits) = Done b ->
     (Z.to_nat ntotbits <= allowed)%nat /\
     run (unrank_step built_table) (Z.to_nat ntotbits)
       (unrank_init rank ntotbits nsetbits) = Done b /\
     (forall fewer : nat,
        (fewer < Z.to_nat ntotbits)%nat ->
        run (unrank_step built_table) fewer
          (unrank_init rank ntotbits nsetbits) = OutOfFuel) /\
     (1 <= ntotbits ->
      permutation_from_rank built_table rank ntotbits nsetbits = Done b)) /\
  (forall rank : Z,
     0 <= rank < choose ntotbits nsetbits ->
     exists b : Z,
       run (unrank_step built_table) (Z.to_nat ntotbits)
         (unrank_init rank ntotbits nsetbits) = Done b).
Proof.
  intros Hc Hw.
  assert (Hbound : forall rank : Z,
             run (unrank_step built_table) (Z.to_nat ntotbits)
               (unrank_init rank ntotbits nsetbits) <> OutOfFuel).
  { intros rank. apply (unrank_bound_any (Z.to_nat ntotbits)).
    - cbn [unrank_init ur_row]. lia.
    - lia.
    - lia. }
  assert (Hearly : forall (rank v : Z) (fewer : nat),
             (fewer < Z.to_nat ntotbits)%nat ->
             run (unrank_step built_table) fewer
               (unrank_init rank ntotbits nsetbits) <> Done v).
  { intros rank v fewer Hf.
    apply (unrank_run_not_early built_table (Z.to_nat ntotbits));
      [cbn [unrank_init ur_row]; lia|lia|exact Hf]. }
  split; [|split; [exact Hbound|split]].
  - intros bitmap. eexists. split.
    + apply rank_iterations; [assumption|assumption|lia].
    + intros Hpos. apply rank_call; assumption.
  - intros rank b allowed Hdone.
    assert (Hallowed : (Z.to_nat ntotbits <= allowed)%nat).
    { destruct (Nat.le_gt_cases (Z.to_nat ntotbits) allowed) as [L|G];
        [exact L|]. exfalso. exact (Hearly rank b allowed G Hdone). }
    assert (Hexact : run (unrank_step built_table) (Z.to_nat ntotbits)
                       (unrank_init rank ntotbits nsetbits) = Done b).
    { rewrite <- Hdone. symmetry.
      apply run_more; [apply Hbound|exact Hallowed]. }
    split; [exact Hallowed|]. split; [exact Hexact|]. split.
    + intros fewer Hf.
      destruct (run (unrank_step built_table) fewer
                  (unrank_init rank ntotbits nsetbits)) as [v| |] eqn:E;
        [| |reflexivity]; exfalso.
      * exact (Hearly rank v fewer Hf E).
      * rewrite (run_more _ fewer (Z.to_nat ntotbits)) in Hexact;
          [congruence|rewrite E; discriminate|lia].
    + intros Hpos. rewrite unrank_call_loop by lia.
      rewrite (run_more _ (Z.to_nat ntotbits) LOOP_BOUND);
        [exact Hexact|apply Hbound|unfold LOOP_BOUND, MAXBITS; lia].
  - intros rank Hr. eexists.
    apply unrank_iterations; [assumption|assumption|assumption|lia].
Qed.

Lemma loops_terminate_witness :
  (exists r : Z,
     run (rank_step built_table 255) (Z.to_nat 8) (rank_init 8 5) = Done r /\
     rank_from_permutation built_table 255 8 5 = Done r) /\
  run (unrank_step built_table) (Z.to_nat 8) (unrank_init 56 8 5)
  <> OutOfFuel /\
  ((Z.to_nat 8 <= 20)%nat /\
   run (unrank_step built_table) (Z.to_nat 8) (unrank_init 3 8 5)
   = Done 59 /\
   (forall fewer : nat,
      (fewer < Z.to_nat 8)%nat ->
      run (unrank_step built_table) fewer (unrank_init 3 8 5) = OutOfFuel) /\
   permutation_from_rank built_table 3 8 5 = Done 59) /\
  (exists b : Z,
     run (unrank_step built_table) (Z.to_nat 8) (unrank_init 3 8 5)
     = Done b).
Proof.
  destruct (loops_terminate 8 5 ltac:(lia) ltac:(lia))
    as (Hr & Hb & He & Hu).
  split; [|split; [|split]].
  - destruct (Hr 255) as (r & Hrun & Hcall). exists r.
    split; [exact Hrun|apply Hcall; lia].
  - apply (Hb 56).
  - destruct (He 3 59 20%nat eq_refl) as (Hle & Hrun & Hfewer & Hcall).
    split; [exact Hle|]. split; [exact Hrun|]. split; [exact Hfewer|].
    apply Hcall. lia.
  - apply (Hu 3). cbv. split; [discriminate|reflexivity].
Defined.


(* ================================================================= *)
(** ** Further properties of the table and the engines *)

(** X1. The built table is symmetric: [pascalt[i][j]] and
    [pascalt[i][i-j]] hold the same value, for every cell of rows
    [0..32]. *)
Theorem table_symmetric (i j : Z) :
  0 <= j <= i -> i <= 32 ->
  exists e : Z,
    tbl_get built_table i j = Some e /\
    tbl_get built_table i (i - j) = Some e.
Proof.
  intros Hj Hi. exists (choose i j).
  rewrite !built_get_Z by lia. split; [reflexivity|]. f_equal.
  unfold choose. replace (Z.to_nat (i - j)) with (Z.to_nat i - Z.to_nat j)%nat
    by lia.
  apply binom_sym. lia.
Qed.

Lemma table_symmetric_witness :
  exists e : Z,
    tbl_get built_table 7 2 = Some e /\ tbl_get built_table 7 (7 - 2) = Some e.
Proof. apply (table_symmetric 7 2); lia. Defined.

(** X2. For a class with [nsetbits <= ntotbits] and
    [1 <= ntotbits <= 32], and a rank below [C(ntotbits,nsetbits)],
    [permutation_from_rank] returns a vector of the class: below
    [2^ntotbits], with exactly [nsetbits] ones. *)
Theorem unrank_in_class (ntotbits nsetbits r : Z) :
  1 <= ntotbits -> 0 <= nsetbits <= ntotbits -> ntotbits <= 32 ->
  0 <= r < choose ntotbits nsetbits ->
  exists b : Z,
    permutation_from_rank built_table r ntotbits nsetbits = Done b /\
    in_class b ntotbits nsetbits = true.
Proof.
  intros Hpos Hc Hw Hr. eexists. split; [apply unrank_call; assumption|].
  pose proof (unrank_value_range (Z.to_nat ntotbits)
                (Z.to_nat ntotbits - Z.to_nat nsetbits) r) as Hrange.
  pose proof (popcount_unrank_value (Z.to_nat ntotbits)
                (Z.to_nat ntotbits - Z.to_nat nsetbits) r ltac:(lia)) as Hpop.
  rewrite choose_col in Hpop by assumption. specialize (Hpop Hr).
  rewrite Z2Nat.id in Hrange by lia.
  unfold in_class. rewrite Hpop. lia.
Qed.

Lemma unrank_in_class_witness :
  exists b : Z,
    permutation_from_rank built_table 17 8 5 = Done b /\
    in_class b 8 5 = true.
Proof.
  apply (unrank_in_class 8 5 17); [lia|lia|lia|].
  cbv. split; [discriminate|reflexivity].
Defined.

(** X3. [rank_from_permutation] never looks at a bit at position
    [ntotbits] or above: two bitmaps that agree below [2^ntotbits] get the
    same result. *)
Theorem rank_ignores_high_bits (ntotbits nsetbits b b' : Z) :
  0 <= nsetbits <= ntotbits -> ntotbits <= 32 ->
  b mod 2 ^ ntotbits = b' mod 2 ^ ntotbits ->
  rank_from_permutation built_table b ntotbits nsetbits =
  rank_from_permutation built_table b' ntotbits nsetbits.
Proof.
  intros Hc Hw Hmod.
  destruct (Z.eq_dec ntotbits 0) as [->|Hpos];
    [rewrite !rank_call_width_0; reflexivity|].
  rewrite !rank_call by (assumption || lia). f_equal.
  apply rank_value_ext. intros i Hi.
  rewrite <- (Z.mod_pow2_bits_low b ntotbits (Z.of_nat i)) by lia.
  rewrite <- (Z.mod_pow2_bits_low b' ntotbits (Z.of_nat i)) by lia.
  rewrite Hmod. reflexivity.
Qed.

Lemma rank_ignores_high_bits_witness :
  rank_from_permutation built_table 59 8 5 =
  rank_from_permutation built_table (59 + 3 * 256) 8 5.
Proof. apply (rank_ignores_high_bits 8 5); [lia|lia|reflexivity]. Defined.

(** X4. On the vectors of a class [rank_from_permutation] keeps the
    order: the smaller vector gets the smaller rank. *)
Theorem rank_strictly_increasing (ntotbits nsetbits b1 b2 : Z) :
  0 <= nsetbits <= ntotbits -> ntotbits <= 32 ->
  in_class b1 ntotbits nsetbits = true ->
  in_class b2 ntotbits nsetbits = true ->
  b1 < b2 ->
  exists r1 r2 : Z,
    rank_from_permutation built_table b1 ntotbits nsetbits = Done r1 /\
    rank_from_permutation built_table b2 ntotbits nsetbits = Done r2 /\
    r1 < r2.
Proof.
  intros Hc Hw H1 H2 Hlt.
  destruct (in_class_spec ntotbits nsetbits Hc b1 H1) as [Hr1 Hp1].
  destruct (in_class_spec ntotbits nsetbits Hc b2 H2) as [Hr2 Hp2].
  assert (Hpos : 1 <= ntotbits).
  { destruct (Z.eq_dec ntotbits 0) as [E|]; [|lia].
    rewrite E in Hr1, Hr2. cbn in Hr1, Hr2. lia. }
  eexists _, _.
  split; [apply rank_call; assumption|].
  split; [apply rank_call; assumption|].
  set (col := (Z.to_nat ntotbits - Z.to_nat nsetbits)%nat) in *.
  set (row := Z.to_nat ntotbits) in *.
  assert (Hcol : (col <= row)%nat) by (subst row col; lia).
  pose proof (unrank_rank_value row col b1 Hcol Hr1 Hp1) as E1.
  pose proof (unrank_rank_value row col b2 Hcol Hr2 Hp2) as E2.
  pose proof (rank_value_range b1 row col Hcol) as R1.
  pose proof (rank_value_range b2 row col Hcol) as R2.
  destruct (Z.lt_trichotomy (rank_value row col b1) (rank_value row col b2))
    as [L|[E|G]]; [exact L| |].
  - rewrite E in E1. lia.
  - pose proof (unrank_value_increasing row col _ _ Hcol
                  (proj1 R2) G (proj2 R1)). lia.
Qed.

Lemma rank_strictly_increasing_witness :
  exists r1 r2 : Z,
    rank_from_permutation built_table 47 8 5 = Done r1 /\
    rank_from_permutation built_table 122 8 5 = Done r2 /\
    r1 < r2.
Proof.
  apply (rank_strictly_increasing 8 5 47 122);
    [lia|lia|reflexivity|reflexivity|lia].
Defined.

(* ================================================================= *)
(** ** A class listed in ascending order *)

(** Two strictly ascending lists with the same elements are the same
    list. *)
Lemma ascending_unique (l1 : list Z) :
  forall l2 : list Z,
    StronglySorted Z.lt l1 -> StronglySorted Z.lt l2 ->
    (forall x : Z, In x l1 <-> In x l2) -> l1 = l2.
Proof.
  induction l1 as [|a l1 IH]; intros l2 S1 S2 Hin.
  - destruct l2 as [|b l2]; [reflexivity|].
    destruct (proj2 (Hin b) (or_introl eq_refl)).
  - destruct l2 as [|b l2]; [destruct (proj1 (Hin a) (or_introl eq_refl))|].
    apply StronglySorted_inv in S1. destruct S1 as [S1 F1].
    apply StronglySorted_inv in S2. destruct S2 as [S2 F2].
    rewrite Forall_forall in F1, F2.
    assert (a = b).
    { destruct (proj1 (Hin a) (or_introl eq_refl)) as [E|Ha]; [lia|].
      destruct (proj2 (Hin b) (or_introl eq_refl)) as [E|Hb]; [lia|].
      specialize (F1 b Hb). specialize (F2 a Ha). lia. }
    subst b. f_equal. apply IH; [exact S1|exact S2|].
    intros x. split; intros Hx.
    + destruct (proj1 (Hin x) (or_intror Hx)) as [E|H]; [|exact H].
      specialize (F1 x Hx). lia.
    + destruct (proj2 (Hin x) (or_intror Hx)) as [E|H]; [|exact H].
      specialize (F2 x Hx). lia.
Qed.

Lemma ascending_filter (keep : Z -> bool) (l : list Z) :
  StronglySorted Z.lt l -> StronglySorted Z.lt (filter keep l).
Proof.
  induction 1 as [|a l S IH F]; cbn [filter]; [constructor|].
  destruct (keep a); [|exact IH]. constructor; [exact IH|].
  rewrite Forall_forall in *. intros x Hx. apply F.
  apply filter_In in Hx. apply Hx.
Qed.

(** Mapping an increasing function over [start, start + len). *)
Lemma ascending_map_seq (f : Z -> Z) (len : nat) :
  forall start : nat,
    (forall i j : nat,
       (start <= i)%nat -> (i < j)%nat -> (j < start + len)%nat ->
       f (Z.of_nat i) < f (Z.of_nat j)) ->
    StronglySorted Z.lt (map f (map Z.of_nat (seq start len))).
Proof.
  induction len as [|len IH]; intros start Hinc; cbn [seq map];
    constructor.
  - apply IH. intros i j Hi Hij Hj. apply Hinc; lia.
  - rewrite Forall_forall. intros x Hx.
    apply in_map_iff in Hx. destruct Hx as (z & <- & Hz).
    apply in_map_iff in Hz. destruct Hz as (j & <- & Hj).
    apply in_seq in Hj. apply Hinc; lia.
Qed.

(** The vectors of the ranks [0 .. C-1] are the members of the class, in
    ascending order. *)
Lemma class_members_unrank (ntotbits nsetbits : Z) :
  0 <= nsetbits <= ntotbits -> ntotbits <= 32 ->
  map (unrank_value (Z.to_nat ntotbits)
         (Z.to_nat ntotbits - Z.to_nat nsetbits))
      (all_ranks ntotbits nsetbits) =
  class_members ntotbits nsetbits.
Proof.
  intros Hc Hw.
  set (col := (Z.to_nat ntotbits - Z.to_nat nsetbits)%nat).
  set (row := Z.to_nat ntotbits).
  assert (Hcol : (col <= row)%nat) by (subst row col; lia).
  assert (Hchoose : binom row col = choose ntotbits nsetbits)
    by (apply choose_col; assumption).
  apply ascending_unique.
  - apply ascending_map_seq. intros i j _ Hij Hj.
    apply unrank_value_increasing; lia.
  - apply ascending_filter.
    rewrite <- (map_id (map Z.of_nat _)).
    apply ascending_map_seq. intros i j _ Hij _. lia.
  - intros x. unfold class_members, all_ranks.
    rewrite filter_In, in_map_iff. split.
    + intros (r & <- & Hr). apply in_map_iff in Hr.
      destruct Hr as (i & <- & Hi). apply in_seq in Hi.
      assert (Hr : 0 <= Z.of_nat i < binom row col) by lia.
      pose proof (unrank_value_range row col (Z.of_nat i)) as Hrange.
      pose proof (popcount_unrank_value row col _ Hcol Hr) as Hpop.
      subst row. rewrite Z2Nat.id in Hrange by lia. split.
      * apply in_map_iff.
        exists (Z.to_nat (unrank_value (Z.to_nat ntotbits) col (Z.of_nat i))).
        split; [lia|]. apply in_seq. lia.
      * unfold in_class. rewrite Hpop. lia.
    + intros [_ Hin].
      destruct (in_class_spec ntotbits nsetbits Hc x Hin) as [Hrange Hpop].
      fold row col in Hrange, Hpop.
      pose proof (rank_value_range x row col Hcol) as Hr.
      exists (rank_value row col x). split.
      * apply unrank_rank_value; assumption.
      * apply in_map_iff. exists (Z.to_nat (rank_value row col x)).
        split; [lia|]. apply in_seq. lia.
Qed.

(** X5. Unranking the ranks [0, 1, ..., C(ntotbits,nsetbits) - 1] of a
    class with [nsetbits <= ntotbits] and [1 <= ntotbits <= 32] lists
    every vector of the class once, in ascending order; so the class has
    exactly [C(ntotbits,nsetbits)] vectors. *)
Theorem unrank_enumerates_class (ntotbits nsetbits : Z) :
  1 <= ntotbits -> 0 <= nsetbits <= ntotbits -> ntotbits <= 32 ->
  map (fun r => permutation_from_rank built_table r ntotbits nsetbits)
      (all_ranks ntotbits nsetbits) =
  map Done (class_members ntotbits nsetbits) /\
  Z.of_nat (length (class_members ntotbits nsetbits)) =
  choose ntotbits nsetbits.
Proof.
  intros Hpos Hc Hw. rewrite <- class_members_unrank by assumption. split.
  - rewrite map_map. apply map_ext_in. intros r Hr.
    apply unrank_call; try assumption.
    unfold all_ranks in Hr. apply in_map_iff in Hr.
    destruct Hr as (i & <- & Hi). apply in_seq in Hi. lia.
  - unfold all_ranks. rewrite !length_map, length_seq.
    pose proof (binom_nonneg (Z.to_nat ntotbits) (Z.to_nat nsetbits)).
    unfold choose in *. lia.
Qed.

Lemma unrank_enumerates_class_witness :
  map (fun r => permutation_from_rank built_table r 5 2) (all_ranks 5 2) =
  map Done (class_members 5 2) /\
  Z.of_nat (length (class_members 5 2)) = choose 5 2.
Proof. apply (unrank_enumerates_class 5 2); lia. Defined.

(** X6. In a class with [nsetbits <= ntotbits] and [1 <= ntotbits <= 32]
    the rank of a vector is its position in the class: the vector with
    rank [r] is entry [r], counting from 0, of the ascending list of all
    vectors of the class. *)
Theorem rank_is_position (ntotbits nsetbits b : Z) :
  1 <= ntotbits -> 0 <= nsetbits <= ntotbits -> ntotbits <= 32 ->
  in_class b ntotbits nsetbits = true ->
  exists r : Z,
    rank_from_permutation built_table b ntotbits nsetbits = Done r /\
    0 <= r /\
    nth_error (class_members ntotbits nsetbits) (Z.to_nat r) = Some b.
Proof.
  intros Hpos Hc Hw Hb. eexists. split; [apply rank_call; assumption|].
  destruct (in_class_spec ntotbits nsetbits Hc b Hb) as [Hrange Hpop].
  set (col := (Z.to_nat ntotbits - Z.to_nat nsetbits)%nat) in *.
  set (row := Z.to_nat ntotbits) in *.
  assert (Hcol : (col <= row)%nat) by (subst row col; lia).
  pose proof (rank_value_range b row col Hcol) as Hr.
  split; [lia|].
  rewrite <- class_members_unrank by assumption. fold row col.
  rewrite <- (unrank_rank_value row col b Hcol Hrange Hpop) at 2.
  apply map_nth_error. unfold all_ranks.
  rewrite <- (Z2Nat.id (rank_value row col b)) at 2 by lia.
  apply map_nth_error.
  rewrite nth_error_seq; [reflexivity|].
  rewrite <- choose_col by assumption. fold row col. lia.
Qed.

Lemma rank_is_position_witness :
  exists r : Z,
    rank_from_permutation built_table 62 8 5 = Done r /\
    0 <= r /\
    nth_error (class_members 8 5) (Z.to_nat r) = Some 62.
Proof. apply (rank_is_position 8 5 62); [lia|lia|lia|reflexivity]. Defined.

(* ================================================================= *)
(** ** Calls outside the preconditions *)

(** The first iteration of the unrank loop when it must read a cell the
    table does not have. *)
Lemma unrank_first_read_fault (t : table) (rank ntotbits nsetbits : Z) :
  1 <= ntotbits < 2 ^ 32 -> wrap (ntotbits - nsetbits) <> 0 ->
  tbl_get t (ntotbits - 1) (wrap (wrap (ntotbits - nsetbits) - 1)) = None ->
  permutation_from_rank t rank ntotbits nsetbits = Undefined.
Proof.
  intros Hn Hcol Hnone. apply unrank_call_fault.
  unfold unrank_step, reading. cbn [unrank_init ur_row ur_col ur_rank].
  replace (ntotbits =? 0) with false by lia.
  rewrite (wrap_small (ntotbits - 1)) by lia.
  unfold bit_is_clear.
  assert (0 <= wrap (ntotbits - nsetbits)) by (apply Z.mod_pos_bound; lia).
  replace (0 <? wrap (ntotbits - nsetbits)) with true by lia.
  rewrite Hnone. reflexivity.
Qed.

(** X7. A width beyond the table is undefined behaviour: for
    [ntotbits > 32], [rank_from_permutation] reads a row the table does
    not have, whatever the bitmap and [nsetbits], if the shift in front
    of its loop has not been undefined already; for [ntotbits >= 34],
    [permutation_from_rank] evaluates a shift by 33 or more. *)
Theorem width_beyond_table (bitmap rank ntotbits nsetbits : Z) :
  (32 < ntotbits ->
   rank_from_permutation built_table bitmap ntotbits nsetbits = Undefined) /\
  (34 <= ntotbits < 2 ^ 32 ->
   permutation_from_rank built_table rank ntotbits nsetbits = Undefined).
Proof.
  split; intros Hn.
  - apply rank_call_fault.
    unfold rank_step, reading. cbn [rank_init rk_row rk_col].
    destruct (tbl_get built_table ntotbits _) as [e|] eqn:He; [|reflexivity].
    apply built_get_inv in He. lia.
  - unfold permutation_from_rank, unrank_init, shl_one. cbn [ur_thisbit].
    rewrite (wrap_small (ntotbits - 1)) by lia.
    replace ((0 <=? ntotbits - 1) && (ntotbits - 1 <? 32)) with false
      by lia.
    reflexivity.
Qed.

Lemma width_beyond_table_witness :
  rank_from_permutation built_table 1 33 1 = Undefined /\
  permutation_from_rank built_table 0 40 3 = Undefined.
Proof.
  destruct (width_beyond_table 1 0 33 1) as [Hr _].
  destruct (width_beyond_table 1 0 40 3) as [_ Hu].
  split; [apply Hr; lia|apply Hu; lia].
Defined.

(** X8. More set bits than bits is undefined behaviour:
    [row - nsetbits] wraps to a column far right of the table. For
    [ntotbits <= 32] and [ntotbits < nsetbits < 2^32],
    [rank_from_permutation] is undefined, and so is
    [permutation_from_rank] from [ntotbits = 1] on: with [1 <= ntotbits]
    the first iteration reads out of range. *)
Theorem more_set_bits_than_bits (bitmap rank ntotbits nsetbits : Z) :
  0 <= ntotbits <= 32 -> ntotbits < nsetbits < 2 ^ 32 ->
  rank_from_permutation built_table bitmap ntotbits nsetbits = Undefined /\
  (1 <= ntotbits ->
   permutation_from_rank built_table rank ntotbits nsetbits = Undefined).
Proof.
  intros Hn Hk.
  assert (Hcol : wrap (ntotbits - nsetbits) = 2 ^ 32 + ntotbits - nsetbits).
  { unfold wrap. symmetry. apply Z.mod_unique with (q := -1); lia. }
  split.
  - apply rank_call_fault.
    unfold rank_step, reading. cbn [rank_init rk_row rk_col].
    destruct (tbl_get built_table ntotbits _) as [e|] eqn:He; [|reflexivity].
    apply built_get_inv in He. lia.
  - intros H1. apply unrank_first_read_fault; [lia|lia|].
    destruct (tbl_get built_table (ntotbits - 1) _) as [e|] eqn:He;
      [|reflexivity].
    apply built_get_inv in He. rewrite Hcol in He.
    rewrite wrap_small in He by lia. lia.
Qed.

Lemma more_set_bits_than_bits_witness :
  rank_from_permutation built_table 7 3 5 = Undefined /\
  (1 <= 3 -> permutation_from_rank built_table 0 3 5 = Undefined).
Proof. apply (more_set_bits_than_bits 7 0 3 5); lia. Defined.

(** X9. Before [make_pascal_triangle] has run the table is empty, and the
    engines read it all the same: [rank_from_permutation] is undefined
    behaviour for every argument, and [permutation_from_rank] for every
    width from 1 on unless [nsetbits = ntotbits]. *)
Theorem engines_need_the_table (bitmap rank ntotbits nsetbits : Z) :
  rank_from_permutation [] bitmap ntotbits nsetbits = Undefined /\
  (1 <= ntotbits < 2 ^ 32 -> wrap (ntotbits - nsetbits) <> 0 ->
   permutation_from_rank [] rank ntotbits nsetbits = Undefined).
Proof.
  assert (Hempty : forall i j : Z, tbl_get [] i j = None).
  { intros i j. unfold tbl_get, vec_at. cbn [length Z.of_nat].
    replace ((0 <=? i) && (i <? 0)) with false by lia. reflexivity. }
  split.
  - apply rank_call_fault. unfold rank_step, reading. rewrite Hempty.
    reflexivity.
  - intros Hn Hcol. apply unrank_first_read_fault; [exact Hn|exact Hcol|].
    apply Hempty.
Qed.

Lemma engines_need_the_table_witness :
  rank_from_permutation [] 31 8 5 = Undefined /\
  permutation_from_rank [] 0 8 5 = Undefined.
Proof.
  destruct (engines_need_the_table 31 0 8 5) as [Hr Hu].
  split; [exact Hr|]. apply Hu; [lia|]. cbv. discriminate.
Defined.

(** The unrank loop with no zero left to place: it sets every remaining
    bit, reading neither the rank nor the table. *)
Lemma unrank_run_all_ones (t : table) (row : nat) :
  forall (rank res : Z) (fuel : nat) (tb : option Z),
    (row <= 32)%nat -> (row <= fuel)%nat -> bit_at row tb ->
    run (unrank_step t) fuel (unrank_at rank res row O tb) =
    Done (Z.lor res (2 ^ Z.of_nat row - 1)).
Proof.
  induction row as [|row IH]; intros rank res fuel tb Hr Hf Hb;
    rewrite run_unfold.
  - cbn. rewrite Z.lor_0_r. reflexivity.
  - rewrite (Hb row eq_refl).
    unfold unrank_step, unrank_at, reading.
    cbn [ur_row ur_col ur_rank ur_res ur_thisbit].
    replace (Z.of_nat (S row) =? 0) with false by lia.
    rewrite wrap_pred by lia.
    unfold bit_is_clear, rank_after_set. change (Z.of_nat 0) with 0.
    cbn [Z.ltb Z.compare Z.eqb negb].
    destruct fuel as [|fuel]; [lia|].
    change (mk_unrank_state rank (Z.lor res (2 ^ Z.of_nat row))
              (Z.of_nat row) 0 (Some (Z.shiftr (2 ^ Z.of_nat row) 1)))
      with (unrank_at rank (Z.lor res (2 ^ Z.of_nat row)) row O
              (Some (Z.shiftr (2 ^ Z.of_nat row) 1))).
    rewrite IH by (try apply bit_at_shift; lia).
    rewrite <- Z.lor_assoc. do 2 f_equal.
    pose proof (Z.pow_pos_nonneg 2 (Z.of_nat row)).
    rewrite lor_pow2_low by lia.
    replace (Z.of_nat (S row)) with (Z.of_nat row + 1) by lia.
    rewrite Z.pow_add_r by lia. lia.
Qed.

(** X10. With [nsetbits = ntotbits] the result of [permutation_from_rank]
    depends on nothing else: for every width from 1 to 32, every rank and
    every state of the table, built or not, it returns the vector of
    [ntotbits] ones. *)
Theorem all_bits_set_ignores_rank (t : table) (rank ntotbits : Z) :
  1 <= ntotbits <= 32 ->
  permutation_from_rank t rank ntotbits ntotbits = Done (2 ^ ntotbits - 1).
Proof.
  intros Hn. rewrite unrank_call_loop by lia. unfold unrank_init.
  rewrite Z.sub_diag. change (wrap 0) with 0.
  rewrite <- (Z2Nat.id ntotbits) at 1 2 by lia.
  change (mk_unrank_state rank 0 (Z.of_nat (Z.to_nat ntotbits)) 0
            (shl_one (wrap (Z.of_nat (Z.to_nat ntotbits) - 1))))
    with (unrank_at rank 0 (Z.to_nat ntotbits) O
            (shl_one (wrap (Z.of_nat (Z.to_nat ntotbits) - 1)))).
  rewrite unrank_run_all_ones.
  - rewrite Z.lor_0_l, Z2Nat.id by lia. reflexivity.
  - lia.
  - unfold LOOP_BOUND, MAXBITS. lia.
  - apply bit_at_init. lia.
Qed.

Lemma all_bits_set_ignores_rank_witness :
  permutation_from_rank [] 12345 6 6 = Done (2 ^ 6 - 1).
Proof. apply (all_bits_set_ignores_rank [] 12345 6). lia. Defined.

(** X11. Neither loop runs away: whatever the arguments, the loop of
    [rank_from_permutation] has returned or hit undefined behaviour within
    [MAXBITS + 1] iterations, and so has the loop of
    [permutation_from_rank] for every [unsigned] width; allowing more
    iterations changes nothing. The result of the loop is the result of
    the call whenever the shift in front of the loop is defined, and no
    call ends by the bound. *)
Theorem loops_end_on_every_input
        (bitmap rank ntotbits nsetbits : Z) (more : nat) :
  (LOOP_BOUND <= more)%nat ->
  (rank_from_permutation built_table bitmap ntotbits nsetbits <> OutOfFuel /\
   run (rank_step built_table bitmap) more (rank_init ntotbits nsetbits)
   <> OutOfFuel /\
   run (rank_step built_table bitmap) more (rank_init ntotbits nsetbits) =
   run (rank_step built_table bitmap) LOOP_BOUND
     (rank_init ntotbits nsetbits) /\
   (rk_thisbit (rank_init ntotbits nsetbits) <> None ->
    run (rank_step built_table bitmap) more (rank_init ntotbits nsetbits) =
    rank_from_permutation built_table bitmap ntotbits nsetbits)) /\
  (0 <= ntotbits < 2 ^ 32 ->
   permutation_from_rank built_table rank ntotbits nsetbits <> OutOfFuel /\
   run (unrank_step built_table) more (unrank_init rank ntotbits nsetbits)
   <> OutOfFuel /\
   run (unrank_step built_table) more (unrank_init rank ntotbits nsetbits) =
   run (unrank_step built_table) LOOP_BOUND
     (unrank_init rank ntotbits nsetbits) /\
   (ur_thisbit (unrank_init rank ntotbits nsetbits) <> None ->
    run (unrank_step built_table) more (unrank_init rank ntotbits nsetbits) =
    permutation_from_rank built_table rank ntotbits nsetbits)).
Proof.
  intros Hmore. split.
  - destruct (rank_loop_bound bitmap ntotbits nsetbits more Hmore)
      as [Hend Hsame].
    split; [apply rank_bound_enough|].
    split; [rewrite Hsame; exact Hend|]. split; [exact Hsame|].
    intros Hshift. rewrite Hsame. unfold rank_from_permutation.
    destruct (rk_thisbit (rank_init ntotbits nsetbits));
      [reflexivity|congruence].
  - intros Hn.
    destruct (unrank_loop_bound rank ntotbits nsetbits more Hn Hmore)
      as [Hend Hsame].
    split; [apply unrank_bound_enough; exact Hn|].
    split; [rewrite Hsame; exact Hend|]. split; [exact Hsame|].
    intros Hshift. rewrite Hsame. unfold permutation_from_rank.
    destruct (ur_thisbit (unrank_init rank ntotbits nsetbits));
      [reflexivity|congruence].
Qed.

Lemma loops_end_on_every_input_witness :
  (rank_from_permutation built_table 99 20 50 <> OutOfFuel /\
   run (rank_step built_table 99) 1000 (rank_init 20 50) <> OutOfFuel /\
   run (rank_step built_table 99) 1000 (rank_init 20 50) =
   run (rank_step built_table 99) LOOP_BOUND (rank_init 20 50) /\
   run (rank_step built_table 99) 1000 (rank_init 20 50) =
   rank_from_permutation built_table 99 20 50) /\
  (permutation_from_rank built_table 7 20 50 <> OutOfFuel /\
   run (unrank_step built_table) 1000 (unrank_init 7 20 50) <> OutOfFuel /\
   run (unrank_step built_table) 1000 (unrank_init 7 20 50) =
   run (unrank_step built_table) LOOP_BOUND (unrank_init 7 20 50) /\
   run (unrank_step built_table) 1000 (unrank_init 7 20 50) =
   permutation_from_rank built_table 7 20 50).
Proof.
  assert (Hmore : (LOOP_BOUND <= 1000)%nat)
    by (unfold LOOP_BOUND, MAXBITS; cbn; lia).
  destruct (loops_end_on_every_input 99 7 20 50 1000 Hmore) as [Hr Hu].
  split.
  - destruct Hr as (H1 & H2 & H3 & H4).
    split; [exact H1|]. split; [exact H2|]. split; [exact H3|].
    apply H4. cbv. discriminate.
  - destruct (Hu ltac:(lia)) as (H1 & H2 & H3 & H4).
    split; [exact H1|]. split; [exact H2|]. split; [exact H3|].
    apply H4. cbv. discriminate.
Defined.


(* ================================================================= *)
(** ** Counting the passes of a loop *)

Lemma passes_add {St R : Type} (step : St -> St + R) (n m : nat) (s : St) :
  passes step (n + m) s =
  match passes step n s with
  | inl s' => passes step m s'
  | inr r => inr r
  end.
Proof.
  revert s; induction n as [|n IH]; intros s; cbn [passes Nat.add];
    [reflexivity|].
  destruct (step s); [apply IH|reflexivity].
Qed.

Lemma iterate_passes {St R : Type} (step : St -> St + R) (p : positive) :
  forall s : St, iterate step p s = passes step (Pos.to_nat p) s.
Proof.
  induction p as [p IH|p IH|]; intros s; cbn [iterate].
  - rewrite Pos2Nat.inj_xI.
    replace (S (2 * Pos.to_nat p))%nat
      with (S (Pos.to_nat p + Pos.to_nat p))%nat by lia.
    cbn [passes]. destruct (step s) as [s'|r]; [|reflexivity].
    rewrite passes_add, <- IH. destruct (iterate step p s'); [apply IH|].
    reflexivity.
  - rewrite Pos2Nat.inj_xO.
    replace (2 * Pos.to_nat p)%nat with (Pos.to_nat p + Pos.to_nat p)%nat
      by lia.
    rewrite passes_add, <- IH. destruct (iterate step p s); [apply IH|].
    reflexivity.
  - change (Pos.to_nat 1) with 1%nat. cbn [passes].
    destruct (step s); reflexivity.
Qed.

(** A loop that has ended within [n] passes has ended within any larger
    number. *)
Lemma passes_more {St R : Type} (step : St -> St + R) (n m : nat) (s : St)
      (r : R) :
  passes step n s = inr r -> (n <= m)%nat -> passes step m s = inr r.
Proof.
  intros H Hle. replace m with (n + (m - n))%nat by lia.
  rewrite passes_add, H. reflexivity.
Qed.

(* ================================================================= *)
(** ** The number a string of 0 and 1 spells *)

Lemma binary_value_range (bs : list bool) :
  0 <= binary_value bs < 2 ^ Z.of_nat (length bs).
Proof.
  induction bs as [|b bs IH]; cbn [binary_value length]; [simpl; lia|].
  replace (Z.of_nat (S (length bs))) with (Z.of_nat (length bs) + 1) by lia.
  rewrite Z.pow_add_r by lia. destruct b; lia.
Qed.

Lemma binary_value_app (pre suf : list bool) :
  binary_value (pre ++ suf) =
  binary_value pre * 2 ^ Z.of_nat (length suf) + binary_value suf.
Proof.
  induction pre as [|b pre IH]; cbn [binary_value app]; [lia|].
  rewrite IH, length_app, Nat2Z.inj_add, Z.pow_add_r by lia.
  destruct b; lia.
Qed.

Lemma binary_value_zeros (n : nat) : binary_value (zeros n) = 0.
Proof.
  unfold zeros. induction n as [|n IH]; cbn [repeat binary_value];
    [reflexivity|]. rewrite IH. reflexivity.
Qed.

Lemma binary_value_ones (n : nat) : binary_value (ones n) = 2 ^ Z.of_nat n - 1.
Proof.
  unfold ones. induction n as [|n IH]; cbn [repeat binary_value];
    [reflexivity|].
  rewrite IH, repeat_length.
  replace (Z.of_nat (S n)) with (Z.of_nat n + 1) by lia.
  rewrite Z.pow_add_r by lia. lia.
Qed.

Lemma binary_string_nth (bs : list bool) (i : nat) (b : bool) :
  nth_error bs i = Some b ->
  str_at (binary_string bs) (Z.of_nat i) = Some (bit_char b).
Proof.
  intros H. unfold str_at.
  assert (Hi : (i < length bs)%nat)
    by (apply nth_error_Some; congruence).
  unfold binary_string at 1. rewrite length_map.
  replace (Z.of_nat i =? Z.of_nat (length bs)) with false by lia.
  rewrite vec_at_nat. unfold binary_string.
  apply map_nth_error. exact H.
Qed.

Lemma bit_char_is_one (b : bool) : Ascii.eqb (bit_char b) "1"%char = b.
Proof. destruct b; reflexivity. Qed.

(** The reading loop, with [pre] still to read and [suf] read. *)
Lemma bits_loop_value (n : Z) (pre : list bool) :
  forall suf : list bool,
    Z.of_nat (length (pre ++ suf)) = n -> n <= 32 ->
    bits_loop (length pre) (binary_string (pre ++ suf)) n
      (Z.of_nat (length suf)) (binary_value suf)
      (wrap (2 ^ Z.of_nat (length suf))) =
    Some (binary_value (pre ++ suf)).
Proof.
  induction pre as [|b pre IH] using rev_ind; intros suf Hlen Hn.
  - reflexivity.
  - rewrite length_app in Hlen |- *. cbn [length] in Hlen |- *.
    rewrite length_app in Hlen. cbn [length] in Hlen.
    replace (length pre + 1)%nat with (S (length pre)) by lia.
    cbn [bits_loop].
    rewrite (wrap_small (n - Z.of_nat (length suf))) by lia.
    replace (wrap (n - Z.of_nat (length suf) - 1))
      with (Z.of_nat (length pre)) by (rewrite wrap_small; lia).
    rewrite (binary_string_nth _ _ b).
    2:{ rewrite <- app_assoc. rewrite nth_error_app2 by lia.
        rewrite Nat.sub_diag. reflexivity. }
    rewrite bit_char_is_one. rewrite <- app_assoc. cbn [app].
    specialize (IH (b :: suf)). cbn [length binary_value] in IH.
    replace (wrap (Z.of_nat (length suf) + 1))
      with (Z.of_nat (S (length suf))) by (rewrite wrap_small; lia).
    assert (Hval : wrap (Z.shiftl (wrap (2 ^ Z.of_nat (length suf))) 1) =
                   wrap (2 ^ Z.of_nat (S (length suf)))).
    { unfold wrap. rewrite Z.shiftl_mul_pow2 by lia.
      replace (Z.of_nat (S (length suf))) with (Z.of_nat (length suf) + 1)
        by lia.
      rewrite Z.pow_add_r by lia.
      rewrite Z.mul_mod_idemp_l by lia. reflexivity. }
    rewrite Hval.
    assert (Hbits :
              (if b then wrap (binary_value suf
                               + wrap (2 ^ Z.of_nat (length suf)))
               else binary_value suf) =
              (if b then 2 ^ Z.of_nat (length suf) else 0)
              + binary_value suf).
    { destruct b; [|lia].
      pose proof (binary_value_range suf).
      pose proof (pow2_le_31 (length suf) ltac:(lia)).
      rewrite (wrap_small (2 ^ Z.of_nat (length suf))) by lia.
      rewrite wrap_small by lia. lia. }
    rewrite Hbits. apply IH; [|exact Hn].
    rewrite length_app. cbn [length]. lia.
Qed.

Lemma bits_of_binary_string (bs : list bool) :
  (length bs <= 32)%nat ->
  bits_of_string (binary_string bs) (Z.of_nat (length bs)) =
  Some (binary_value bs).
Proof.
  intros H. unfold bits_of_string. rewrite Nat2Z.id.
  pose proof (bits_loop_value (Z.of_nat (length bs)) bs []) as E.
  rewrite app_nil_r in E. apply E; [reflexivity|lia].
Qed.

Lemma binary_value_top (b : bool) (bs : list bool) :
  Z.testbit (binary_value (b :: bs)) (Z.of_nat (length bs)) = b.
Proof.
  pose proof (binary_value_range (b :: bs)) as Hr.
  rewrite testbit_top by exact Hr. cbn [binary_value] in *.
  pose proof (binary_value_range bs).
  pose proof (Z.pow_pos_nonneg 2 (Z.of_nat (length bs))).
  destruct b; lia.
Qed.

Lemma binary_value_low (b : bool) (bs : list bool) (i : nat) :
  (i < length bs)%nat ->
  Z.testbit (binary_value (b :: bs)) (Z.of_nat i) =
  Z.testbit (binary_value bs) (Z.of_nat i).
Proof.
  intros Hi. cbn [binary_value]. destruct b; [|reflexivity].
  pose proof (binary_value_range bs) as Hr.
  rewrite <- lor_pow2_low by exact Hr.
  apply testbit_lor_pow2_low. exact Hi.
Qed.

Lemma count_zeros_app (a b : list bool) :
  count_zeros (a ++ b) = (count_zeros a + count_zeros b)%nat.
Proof. unfold count_zeros. rewrite filter_app, length_app. reflexivity. Qed.

Lemma count_zeros_zeros (n : nat) : count_zeros (zeros n) = n.
Proof.
  unfold count_zeros, zeros. induction n as [|n IH]; cbn; [reflexivity|].
  rewrite IH. reflexivity.
Qed.

Lemma count_zeros_ones (n : nat) : count_zeros (ones n) = O.
Proof.
  unfold count_zeros, ones. induction n as [|n IH]; cbn; [reflexivity|].
  exact IH.
Qed.

Lemma count_zeros_cons (b : bool) (bs : list bool) :
  count_zeros (b :: bs) = ((if b then 0 else 1) + count_zeros bs)%nat.
Proof. unfold count_zeros. destruct b; reflexivity. Qed.

Lemma count_zeros_le (bs : list bool) : (count_zeros bs <= length bs)%nat.
Proof. unfold count_zeros. apply filter_length_le. Qed.

(** The ones of the number are the ones of the string. *)
Lemma popcount_binary_value (bs : list bool) :
  (popcount (length bs) (binary_value bs) + count_zeros bs)%nat = length bs.
Proof.
  induction bs as [|b bs IH]; [reflexivity|].
  cbn [length popcount]. rewrite binary_value_top, count_zeros_cons.
  rewrite (popcount_ext (length bs) _ (binary_value bs))
    by (intros i Hi; apply binary_value_low; exact Hi).
  destruct b; lia.
Qed.

(** One step of the rank recursion, read off the first character. *)
Lemma rank_value_cons (b : bool) (bs : list bool) (col : nat) :
  rank_value (S (length bs)) col (binary_value (b :: bs)) =
  if (col =? 0)%nat || (col =? S (length bs))%nat then 0
  else if b
       then binom (length bs) (col - 1)
            + rank_value (length bs) col (binary_value bs)
       else rank_value (length bs) (col - 1) (binary_value bs).
Proof.
  cbn [rank_value]. rewrite binary_value_top.
  rewrite (rank_value_ext (length bs) col _ (binary_value bs))
    by (intros i Hi; apply binary_value_low; exact Hi).
  rewrite (rank_value_ext (length bs) (col - 1) _ (binary_value bs))
    by (intros i Hi; apply binary_value_low; exact Hi).
  reflexivity.
Qed.

(** The smallest vector of a class, zeros then ones, has rank 0. *)
Lemma rank_value_first (z o : nat) :
  rank_value (z + o) z (binary_value (zeros z ++ ones o)) = 0.
Proof.
  induction z as [|z IH].
  - destruct o; reflexivity.
  - pose proof (rank_value_cons false (zeros z ++ ones o) (S z)) as E.
    unfold zeros, ones in *.
    rewrite length_app, !repeat_length in E.
    cbn [repeat app Nat.add]. rewrite E.
    destruct ((S z =? 0)%nat || (S z =? S (z + o))%nat); [reflexivity|].
    replace (S z - 1)%nat with z by lia. exact IH.
Qed.

(** The largest vector of a class, ones then zeros, has the last rank. *)
Lemma rank_value_last (o z : nat) :
  rank_value (o + z) z (binary_value (ones o ++ zeros z)) =
  binom (o + z) z - 1.
Proof.
  induction o as [|o IH].
  - cbn [Nat.add]. rewrite binom_diag. destruct z; [reflexivity|].
    cbn [rank_value]. replace ((S z =? 0)%nat || (S z =? S z)%nat) with true
      by lia. reflexivity.
  - pose proof (rank_value_cons true (ones o ++ zeros z) z) as E.
    unfold zeros, ones in *.
    rewrite length_app, !repeat_length in E.
    cbn [repeat app Nat.add]. rewrite E.
    destruct z as [|z]; [rewrite binom_0_r; reflexivity|].
    replace ((S z =? 0)%nat || (S z =? S (o + S z))%nat) with false by lia.
    rewrite IH. replace (S z - 1)%nat with z by lia.
    rewrite (binom_pascal (o + S z) z). lia.
Qed.

(** Moving the lowest run of ones up by one place, and its other ones
    to the bottom, moves the rank up by one. *)
Lemma rank_value_successor (a z : nat) (pre : list bool) :
  forall col : nat,
    col = (count_zeros pre + 1 + z)%nat ->
    rank_value (length pre + (1 + (S a + z))) col
      (binary_value (pre ++ true :: zeros (S z) ++ ones a)) =
    rank_value (length pre + (1 + (S a + z))) col
      (binary_value (pre ++ false :: ones (S a) ++ zeros z)) + 1.
Proof.
  induction pre as [|p pre IH]; intros col Hcol.
  - cbn [count_zeros filter length Nat.add app] in *. subst col.
    pose proof (rank_value_cons true (zeros (S z) ++ ones a) (S z)) as E1.
    pose proof (rank_value_cons false (ones (S a) ++ zeros z) (S z)) as E2.
    pose proof (rank_value_first (S z) a) as F.
    pose proof (rank_value_last (S a) z) as L.
    unfold zeros, ones in *.
    rewrite length_app, !repeat_length in E1, E2.
    cbn [Nat.add] in E1, E2, F, L.
    replace (z + a)%nat with (a + z)%nat in E1, F by lia.
    rewrite E1, E2.
    replace ((S z =? 0)%nat || (S z =? S (S (a + z)))%nat) with false by lia.
    replace (S z - 1)%nat with z by lia.
    rewrite F, L. lia.
  - pose proof (rank_value_cons p
                  (pre ++ true :: zeros (S z) ++ ones a) col) as E1.
    pose proof (rank_value_cons p
                  (pre ++ false :: ones (S a) ++ zeros z) col) as E2.
    pose proof (IH col) as IH1. pose proof (IH (col - 1)%nat) as IH2.
    unfold zeros, ones in *.
    rewrite length_app in E1, E2. cbn [length] in E1, E2.
    rewrite length_app, !repeat_length in E1, E2.
    replace (S z + a)%nat with (S a + z)%nat in E1 by lia.
    cbn [app length Nat.add] in *.
    rewrite E1, E2. rewrite count_zeros_cons in Hcol.
    pose proof (count_zeros_le pre).
    destruct ((col =? 0)%nat || (col =? S (length pre + S (S (a + z))))%nat)
      eqn:Hedge; [destruct p; lia|].
    destruct p.
    + rewrite IH1 by lia. lia.
    + rewrite IH2 by lia. lia.
Qed.


(* ================================================================= *)
(** ** next_permutation on strings of 0 and 1 *)

Lemma char_lt_bits (x y : bool) :
  char_lt (bit_char x) (bit_char y) = bit_lt x y.
Proof. destruct x, y; reflexivity. Qed.

Lemma find_pivot_map {A B : Type} (f : A -> B)
      (lt : A -> A -> bool) (lt' : B -> B -> bool) :
  (forall a b : A, lt' (f a) (f b) = lt a b) ->
  forall (before_rev after : list A) (x : A),
    find_pivot lt' (map f after) (f x) (map f before_rev) =
    match find_pivot lt after x before_rev with
    | Some (front, pivot, range) =>
        Some (map f front, f pivot, map f range)
    | None => None
    end.
Proof.
  intros Hlt. induction before_rev as [|y r IH]; intros after x;
    cbn [map find_pivot]; [reflexivity|].
  rewrite Hlt. destruct (lt y x); [reflexivity|].
  apply (IH (x :: after) y).
Qed.

Lemma swap_pivot_map {A B : Type} (f : A -> B)
      (lt : A -> A -> bool) (lt' : B -> B -> bool) :
  (forall a b : A, lt' (f a) (f b) = lt a b) ->
  forall (range_rev : list A) (pivot : A),
    swap_pivot lt' (f pivot) (map f range_rev) =
    match swap_pivot lt pivot range_rev with
    | Some (e, rest) => Some (f e, map f rest)
    | None => None
    end.
Proof.
  intros Hlt. induction range_rev as [|e r IH]; intros pivot;
    cbn [map swap_pivot]; [reflexivity|].
  rewrite Hlt. destruct (lt pivot e); [reflexivity|].
  rewrite IH. destruct (swap_pivot lt pivot r) as [[e' r']|]; reflexivity.
Qed.

(** [next_permutation] commutes with a renaming of the elements that
    keeps the order. *)
Lemma next_permutation_map {A B : Type} (f : A -> B)
      (lt : A -> A -> bool) (lt' : B -> B -> bool) (l : list A) :
  (forall a b : A, lt' (f a) (f b) = lt a b) ->
  next_permutation lt' (map f l) =
  (map f (fst (next_permutation lt l)), snd (next_permutation lt l)).
Proof.
  intros Hlt. unfold next_permutation. rewrite <- map_rev.
  destruct (rev l) as [|x r]; [reflexivity|]. cbn [map].
  pose proof (find_pivot_map f lt lt' Hlt r [] x) as E. cbn [map] in E.
  rewrite E. destruct (find_pivot lt [] x r) as [[[front pivot] range]|].
  - rewrite <- map_rev, (swap_pivot_map f lt lt' Hlt).
    destruct (swap_pivot lt pivot (rev range)) as [[e range']|];
      [|reflexivity].
    cbn [fst snd]. rewrite map_app, map_rev. reflexivity.
  - reflexivity.
Qed.

Lemma rev_repeat_same {A : Type} (x : A) (n : nat) :
  rev (repeat x n) = repeat x n.
Proof.
  induction n as [|n IH]; [reflexivity|]. cbn [repeat rev].
  rewrite IH. symmetry. apply repeat_cons.
Qed.

Lemma repeat_shift {A : Type} (x : A) (n : nat) (l : list A) :
  repeat x n ++ x :: l = x :: repeat x n ++ l.
Proof.
  induction n as [|n IH]; [reflexivity|]. cbn [repeat app].
  rewrite IH. reflexivity.
Qed.

(** The scan from the back goes through zeros ... *)
Lemma find_pivot_zeros (n : nat) :
  forall (after rest : list bool),
    find_pivot bit_lt after false (zeros n ++ rest) =
    find_pivot bit_lt (zeros n ++ after) false rest.
Proof.
  unfold zeros. induction n as [|n IH]; intros after rest; [reflexivity|].
  cbn [repeat app find_pivot bit_lt negb andb].
  rewrite IH, repeat_shift. reflexivity.
Qed.

(** ... and through ones ... *)
Lemma find_pivot_ones (n : nat) :
  forall (after rest : list bool),
    find_pivot bit_lt after true (ones n ++ rest) =
    find_pivot bit_lt (ones n ++ after) true rest.
Proof.
  unfold ones. induction n as [|n IH]; intros after rest; [reflexivity|].
  cbn [repeat app find_pivot bit_lt negb andb].
  rewrite IH, repeat_shift. reflexivity.
Qed.

(** ... and stops at the first 0 in front of a 1. *)
Lemma find_pivot_run (a z : nat) (front_rev : list bool) :
  match zeros z ++ ones (S a) ++ false :: front_rev with
  | x :: before_rev => find_pivot bit_lt [] x before_rev
  | [] => None
  end = Some (front_rev, false, ones (S a) ++ zeros z).
Proof.
  destruct z as [|z].
  - cbn [zeros ones repeat app]. fold (ones a).
    rewrite find_pivot_ones. cbn [find_pivot bit_lt negb andb].
    rewrite !app_nil_r. reflexivity.
  - cbn [zeros repeat app]. fold (zeros z).
    rewrite find_pivot_zeros, app_nil_r.
    cbn [ones repeat app find_pivot bit_lt negb andb]. fold (ones a).
    rewrite find_pivot_ones. cbn [find_pivot bit_lt negb andb].
    reflexivity.
Qed.

(** With no 0 in front of a 1 there is no pivot. *)
Lemma find_pivot_none (z o : nat) :
  match zeros z ++ ones o with
  | x :: before_rev => find_pivot bit_lt [] x before_rev
  | [] => None
  end = None.
Proof.
  destruct z as [|z].
  - destruct o as [|o]; [reflexivity|].
    cbn [zeros ones repeat app]. fold (ones o).
    rewrite <- (app_nil_r (ones o)), find_pivot_ones. reflexivity.
  - cbn [zeros repeat app]. fold (zeros z).
    rewrite find_pivot_zeros.
    destruct o as [|o]; [reflexivity|].
    cbn [ones repeat find_pivot bit_lt negb andb]. fold (ones o).
    rewrite <- (app_nil_r (ones o)), find_pivot_ones. reflexivity.
Qed.

Lemma swap_pivot_run (a z : nat) :
  swap_pivot bit_lt false (zeros z ++ ones (S a)) =
  Some (true, zeros (S z) ++ ones a).
Proof.
  unfold zeros, ones. induction z as [|z IH]; [reflexivity|].
  cbn [repeat app swap_pivot bit_lt negb andb] in *. rewrite IH.
  reflexivity.
Qed.

Lemma next_permutation_bits_step (pre : list bool) (a z : nat) :
  next_permutation bit_lt (pre ++ false :: ones (S a) ++ zeros z) =
  (pre ++ true :: zeros (S z) ++ ones a, true).
Proof.
  unfold next_permutation.
  assert (Hrev : rev (pre ++ false :: ones (S a) ++ zeros z) =
                 zeros z ++ ones (S a) ++ false :: rev pre).
  { rewrite rev_app_distr. cbn [rev]. rewrite rev_app_distr.
    unfold zeros, ones. rewrite !rev_repeat_same, <- !app_assoc.
    reflexivity. }
  rewrite Hrev. pose proof (find_pivot_run a z (rev pre)) as E.
  destruct (zeros z ++ ones (S a) ++ false :: rev pre) as [|x r];
    [discriminate|].
  rewrite E.
  assert (Hrange : rev (ones (S a) ++ zeros z) = zeros z ++ ones (S a)).
  { rewrite rev_app_distr. unfold zeros, ones.
    rewrite !rev_repeat_same. reflexivity. }
  rewrite Hrange, swap_pivot_run, rev_involutive. reflexivity.
Qed.

Lemma next_permutation_bits_last (o z : nat) :
  next_permutation bit_lt (ones o ++ zeros z) = (zeros z ++ ones o, false).
Proof.
  unfold next_permutation.
  assert (Hrev : rev (ones o ++ zeros z) = zeros z ++ ones o).
  { rewrite rev_app_distr. unfold zeros, ones.
    rewrite !rev_repeat_same. reflexivity. }
  rewrite Hrev. pose proof (find_pivot_none z o) as E.
  destruct (zeros z ++ ones o) as [|x r] eqn:El.
  - destruct o, z; try discriminate. reflexivity.
  - rewrite E. reflexivity.
Qed.

(** A string that has a 0 in front of a 1: the last such 0 and the run of
    ones behind it change as in [rank_value_successor]. *)
Lemma next_permutation_step (pre : list bool) (a z : nat) :
  next_permutation char_lt
    (binary_string (pre ++ false :: ones (S a) ++ zeros z)) =
  (binary_string (pre ++ true :: zeros (S z) ++ ones a), true).
Proof.
  unfold binary_string.
  rewrite (next_permutation_map bit_char bit_lt char_lt)
    by (intros x y; apply char_lt_bits).
  rewrite next_permutation_bits_step. reflexivity.
Qed.

(** A string with no 0 in front of a 1 is the last of its class:
    [next_permutation] returns [false] and leaves the first. *)
Lemma next_permutation_last (o z : nat) :
  next_permutation char_lt (binary_string (ones o ++ zeros z)) =
  (binary_string (zeros z ++ ones o), false).
Proof.
  unfold binary_string.
  rewrite (next_permutation_map bit_char bit_lt char_lt)
    by (intros x y; apply char_lt_bits).
  rewrite next_permutation_bits_last. reflexivity.
Qed.

(** Every string of bits is of one of the two kinds. *)
Lemma bits_last_or_step (bs : list bool) :
  (exists o z : nat, bs = ones o ++ zeros z) \/
  (exists (pre : list bool) (a z : nat),
     bs = pre ++ false :: ones (S a) ++ zeros z).
Proof.
  induction bs as [|b bs IH]; [left; exists O, O; reflexivity|].
  destruct IH as [(o & z & ->)|(pre & a & z & ->)].
  - destruct b.
    + left. exists (S o), z. reflexivity.
    + destruct o as [|o].
      * left. exists O, (S z). reflexivity.
      * right. exists [], o, z. reflexivity.
  - right. exists (b :: pre), a, z. reflexivity.
Qed.

(* ================================================================= *)
(** ** The next bit permutation *)

Lemma testbit_below_pow2 (l p i : Z) :
  0 <= l < 2 ^ p -> p <= i -> Z.testbit l i = false.
Proof.
  intros Hl Hi.
  assert (0 <= p).
  { destruct (Z.le_gt_cases 0 p) as [L|G]; [exact L|].
    rewrite Z.pow_neg_r in Hl by lia. lia. }
  rewrite <- (Z.mod_small l (2 ^ p)) by exact Hl.
  apply Z.mod_pow2_bits_high. lia.
Qed.

(** A number below [2^p] and a multiple of [2^p] share no bit. *)
Lemma aligned_land (h l p : Z) :
  0 <= l < 2 ^ p -> Z.land (h * 2 ^ p) l = 0.
Proof.
  intros Hl. apply Z.bits_inj'. intros i Hi.
  rewrite Z.land_spec, Z.bits_0.
  destruct (Z.lt_ge_cases i p) as [L|G].
  - rewrite Z.mul_pow2_bits_low by lia. reflexivity.
  - rewrite (testbit_below_pow2 l p i) by lia. apply andb_false_r.
Qed.

Lemma aligned_lor (h l p : Z) :
  0 <= l < 2 ^ p -> Z.lor (h * 2 ^ p) l = h * 2 ^ p + l.
Proof.
  intros Hl. pose proof (aligned_land h l p Hl) as E.
  rewrite <- Z.lxor_lor by exact E. symmetry.
  apply Z.add_nocarry_lxor. exact E.
Qed.

Lemma aligned_lxor (h l p : Z) :
  0 <= l < 2 ^ p -> Z.lxor (h * 2 ^ p) l = h * 2 ^ p + l.
Proof.
  intros Hl. symmetry. apply Z.add_nocarry_lxor.
  apply aligned_land. exact Hl.
Qed.

Lemma lor_same_left (a p q : Z) :
  Z.lor (Z.lor a p) (Z.lor a q) = Z.lor a (Z.lor p q).
Proof.
  apply Z.bits_inj'. intros i Hi. rewrite !Z.lor_spec.
  destruct (Z.testbit a i), (Z.testbit p i), (Z.testbit q i); reflexivity.
Qed.

Lemma lxor_same_left (a p q : Z) :
  Z.lxor (Z.lxor a p) (Z.lxor a q) = Z.lxor p q.
Proof.
  apply Z.bits_inj'. intros i Hi. rewrite !Z.lxor_spec.
  destruct (Z.testbit a i), (Z.testbit p i), (Z.testbit q i); reflexivity.
Qed.

(** [v | (v - 1)] fills the zeros below the lowest one. *)
Lemma lor_pred (y z : Z) :
  0 <= z ->
  Z.lor ((2 * y + 1) * 2 ^ z) ((2 * y + 1) * 2 ^ z - 1) =
  (2 * y + 1) * 2 ^ z + 2 ^ z - 1.
Proof.
  intros Hz. pose proof (Z.pow_pos_nonneg 2 z ltac:(lia) Hz) as Hp.
  assert (E2 : 2 ^ (z + 1) = 2 * 2 ^ z) by (rewrite Z.pow_add_r; lia).
  pose proof (aligned_lor y (2 ^ z) (z + 1) ltac:(lia)) as A1.
  pose proof (aligned_lor y (2 ^ z - 1) (z + 1) ltac:(lia)) as A2.
  pose proof (aligned_lor 1 (2 ^ z - 1) z ltac:(lia)) as A3.
  pose proof (aligned_lor y (2 ^ (z + 1) - 1) (z + 1) ltac:(lia)) as A4.
  replace ((2 * y + 1) * 2 ^ z) with (y * 2 ^ (z + 1) + 2 ^ z) by lia.
  replace (y * 2 ^ (z + 1) + 2 ^ z - 1)
    with (y * 2 ^ (z + 1) + (2 ^ z - 1)) by lia.
  rewrite <- A1, <- A2, lor_same_left.
  replace (2 ^ z) with (1 * 2 ^ z) at 1 by lia. rewrite A3.
  replace (1 * 2 ^ z + (2 ^ z - 1)) with (2 ^ (z + 1) - 1) by lia.
  rewrite A4, A1. lia.
Qed.

(** [v ^ (v - 1)] keeps the lowest one and sets the zeros below it. *)
Lemma lxor_pred (y z : Z) :
  0 <= z ->
  Z.lxor ((2 * y + 1) * 2 ^ z) ((2 * y + 1) * 2 ^ z - 1) =
  2 ^ (z + 1) - 1.
Proof.
  intros Hz. pose proof (Z.pow_pos_nonneg 2 z ltac:(lia) Hz) as Hp.
  assert (E2 : 2 ^ (z + 1) = 2 * 2 ^ z) by (rewrite Z.pow_add_r; lia).
  pose proof (aligned_lxor y (2 ^ z) (z + 1) ltac:(lia)) as A1.
  pose proof (aligned_lxor y (2 ^ z - 1) (z + 1) ltac:(lia)) as A2.
  pose proof (aligned_lxor 1 (2 ^ z - 1) z ltac:(lia)) as A3.
  replace ((2 * y + 1) * 2 ^ z) with (y * 2 ^ (z + 1) + 2 ^ z) by lia.
  replace (y * 2 ^ (z + 1) + 2 ^ z - 1)
    with (y * 2 ^ (z + 1) + (2 ^ z - 1)) by lia.
  rewrite <- A1, <- A2, lxor_same_left.
  replace (2 ^ z) with (1 * 2 ^ z) at 1 by lia. rewrite A3. lia.
Qed.

Lemma shiftr_low_ones (m k : Z) :
  0 <= k <= m -> Z.shiftr (2 ^ m - 1) k = 2 ^ (m - k) - 1.
Proof.
  intros H. rewrite Z.shiftr_div_pow2 by lia.
  pose proof (Z.pow_pos_nonneg 2 k ltac:(lia) ltac:(lia)).
  pose proof (Z.pow_pos_nonneg 2 (m - k) ltac:(lia) ltac:(lia)).
  assert (E : 2 ^ m = 2 ^ (m - k) * 2 ^ k)
    by (rewrite <- Z.pow_add_r by lia; f_equal; lia).
  symmetry. apply Z.div_unique with (r := 2 ^ k - 1); [lia|]. lia.
Qed.

(** The counting loop on [z] ones counts [z]. *)
Lemma ctz_loop_ones (z : nat) :
  forall (passes_left : nat) (ctz : Z),
    (z <= passes_left)%nat -> 0 <= ctz -> ctz + Z.of_nat z < 2 ^ 32 ->
    ctz_loop passes_left (2 ^ Z.of_nat z - 1) ctz = ctz + Z.of_nat z.
Proof.
  induction z as [|z IH]; intros n ctz Hn Hc Hsum.
  - destruct n; cbn; lia.
  - destruct n as [|n]; [lia|]. cbn [ctz_loop].
    pose proof (Z.pow_pos_nonneg 2 (Z.of_nat z) ltac:(lia) ltac:(lia)).
    replace (Z.of_nat (S z)) with (Z.of_nat z + 1) by lia.
    rewrite Z.pow_add_r by lia.
    replace (2 ^ Z.of_nat z * 2 ^ 1 - 1 =? 0) with false by lia.
    replace (2 ^ Z.of_nat z * 2 ^ 1 - 1) with (2 ^ (Z.of_nat z + 1) - 1)
      by (rewrite Z.pow_add_r; lia).
    rewrite shiftr_low_ones by lia.
    replace (Z.of_nat z + 1 - 1) with (Z.of_nat z) by lia.
    rewrite wrap_small by lia. rewrite IH by lia. lia.
Qed.

(** [x & -x] is the lowest one of [x]. *)
Lemma land_opp (q m : Z) :
  0 <= m -> Z.land (- ((2 * q + 1) * 2 ^ m)) ((2 * q + 1) * 2 ^ m) = 2 ^ m.
Proof.
  intros Hm.
  replace (- ((2 * q + 1) * 2 ^ m)) with ((2 * Z.lnot q + 1) * 2 ^ m)
    by (unfold Z.lnot; lia).
  rewrite <- !Z.shiftl_mul_pow2, <- Z.shiftl_land by lia.
  replace (Z.land (2 * Z.lnot q + 1) (2 * q + 1)) with 1.
  - rewrite Z.shiftl_mul_pow2 by lia. lia.
  - symmetry. apply Z.bits_inj'. intros i Hi. rewrite Z.land_spec.
    destruct (Z.eq_dec i 0) as [->|Hne].
    + rewrite !Z.testbit_odd_0. reflexivity.
    + rewrite (testbit_below_pow2 1 1 i) by lia.
      replace i with (Z.succ (i - 1)) by lia.
      rewrite !Z.testbit_odd_succ by lia.
      rewrite Z.lnot_spec by lia.
      destruct (Z.testbit q (i - 1)); reflexivity.
Qed.

Lemma wrap_land (u v : Z) : Z.land (wrap u) (wrap v) = wrap (Z.land u v).
Proof.
  unfold wrap. rewrite <- !Z.land_ones by lia.
  rewrite Z.land_assoc, <- (Z.land_assoc u), (Z.land_comm (Z.ones 32) v),
    Z.land_assoc, <- Z.land_assoc, Z.land_diag. reflexivity.
Qed.

Lemma wrap_opp_wrap (u : Z) : wrap (- wrap u) = wrap (- u).
Proof.
  unfold wrap.
  rewrite <- (Z.mod_add (- (u mod 2 ^ 32)) (- (u / 2 ^ 32)) (2 ^ 32)) by lia.
  f_equal. pose proof (Z.div_mod u (2 ^ 32) ltac:(lia)). lia.
Qed.

Lemma pow2_lt_32 (z : nat) : 2 ^ Z.of_nat z < 2 ^ 32 -> (z <= 31)%nat.
Proof.
  intros H. apply Z.pow_lt_mono_r_iff in H; lia.
Qed.

(** What the computation comes to for a value that is not 0, written as
    an odd number times [2^z]: [t] and [ctz] are known, the rest is left
    as it is in the source. *)
Lemma next_bit_permutation_nonzero (y : Z) (z : nat) :
  0 <= y -> (2 * y + 1) * 2 ^ Z.of_nat z < 2 ^ 32 ->
  next_bit_permutation ((2 * y + 1) * 2 ^ Z.of_nat z) =
  let t := (2 * y + 1) * 2 ^ Z.of_nat z + 2 ^ Z.of_nat z - 1 in
  match shr (wrap (Z.land (wrap (Z.lnot t)) (wrap (t + 1)) - 1))
          (Z.of_nat z + 1) with
  | Some low => Some (Z.lor (wrap (t + 1)) low)
  | None => None
  end.
Proof.
  intros Hy Hb.
  pose proof (Z.pow_pos_nonneg 2 (Z.of_nat z) ltac:(lia) ltac:(lia)) as Hp.
  assert (Hz : (z <= 31)%nat) by (apply pow2_lt_32; nia).
  assert (Hpos : 1 <= (2 * y + 1) * 2 ^ Z.of_nat z) by nia.
  unfold next_bit_permutation. cbv zeta.
  rewrite (wrap_small ((2 * y + 1) * 2 ^ Z.of_nat z - 1)) by lia.
  rewrite lor_pred, lxor_pred by lia.
  replace ((2 * y + 1) * 2 ^ Z.of_nat z =? 0) with false by lia.
  cbn [negb]. rewrite shiftr_low_ones by lia.
  replace (Z.of_nat z + 1 - 1) with (Z.of_nat z) by lia.
  rewrite ctz_loop_ones by lia.
  rewrite wrap_opp_wrap.
  replace (- Z.lnot ((2 * y + 1) * 2 ^ Z.of_nat z + 2 ^ Z.of_nat z - 1))
    with ((2 * y + 1) * 2 ^ Z.of_nat z + 2 ^ Z.of_nat z - 1 + 1)
    by (unfold Z.lnot; lia).
  rewrite (wrap_small (0 + Z.of_nat z + 1)) by lia.
  reflexivity.
Qed.

(** The value with the lowest run of ones [S a] long above [z] zeros,
    and a zero above the run: the run's top one moves up, the others go
    to the bottom. *)
Lemma next_bit_permutation_run (x : Z) (a z : nat) :
  0 <= x ->
  (x + 1) * 2 ^ (Z.of_nat (S a + z) + 1) <= 2 ^ 32 ->
  next_bit_permutation
    (x * 2 ^ (Z.of_nat (S a + z) + 1)
     + (2 ^ Z.of_nat (S a) - 1) * 2 ^ Z.of_nat z) =
  Some (x * 2 ^ (Z.of_nat (S a + z) + 1)
        + 2 ^ Z.of_nat (S a + z) + 2 ^ Z.of_nat a - 1).
Proof.
  intros Hx Hbound.
  set (m := Z.of_nat (S a + z)) in *.
  pose proof (Z.pow_pos_nonneg 2 (Z.of_nat z) ltac:(lia) ltac:(lia)) as Hpz.
  pose proof (Z.pow_pos_nonneg 2 (Z.of_nat a) ltac:(lia) ltac:(lia)) as Hpa.
  pose proof (Z.pow_pos_nonneg 2 m ltac:(lia) ltac:(lia)) as Hpm.
  assert (Em1 : 2 ^ (m + 1) = 2 * 2 ^ m) by (rewrite Z.pow_add_r; lia).
  assert (Ea1 : 2 ^ Z.of_nat (S a) = 2 * 2 ^ Z.of_nat a).
  { replace (Z.of_nat (S a)) with (Z.of_nat a + 1) by lia.
    rewrite Z.pow_add_r; lia. }
  assert (Em : 2 ^ m = 2 ^ Z.of_nat (S a) * 2 ^ Z.of_nat z).
  { subst m. rewrite Nat2Z.inj_add, Z.pow_add_r by lia. reflexivity. }
  assert (Hm31 : m <= 31).
  { assert (2 ^ m < 2 ^ 32) by nia.
    apply Z.pow_lt_mono_r_iff in H; lia. }
  set (y := x * 2 ^ Z.of_nat (S a) + 2 ^ Z.of_nat a - 1).
  replace (x * 2 ^ (m + 1) + (2 ^ Z.of_nat (S a) - 1) * 2 ^ Z.of_nat z)
    with ((2 * y + 1) * 2 ^ Z.of_nat z) by (subst y; nia).
  rewrite next_bit_permutation_nonzero by (subst y; nia).
  cbv zeta.
  replace ((2 * y + 1) * 2 ^ Z.of_nat z + 2 ^ Z.of_nat z - 1)
    with ((2 * x + 1) * 2 ^ m - 1) by (subst y; nia).
  replace ((2 * x + 1) * 2 ^ m - 1 + 1) with ((2 * x + 1) * 2 ^ m) by lia.
  rewrite wrap_land.
  replace (Z.lnot ((2 * x + 1) * 2 ^ m - 1)) with (- ((2 * x + 1) * 2 ^ m))
    by (unfold Z.lnot; lia).
  rewrite land_opp by lia.
  assert (2 ^ m <= 2 ^ 31) by (apply Z.pow_le_mono_r; lia).
  rewrite (wrap_small (2 ^ m)), (wrap_small (2 ^ m - 1)) by lia.
  rewrite (wrap_small ((2 * x + 1) * 2 ^ m)) by nia.
  unfold shr.
  replace ((0 <=? Z.of_nat z + 1) && (Z.of_nat z + 1 <? 32)) with true
    by lia.
  rewrite shiftr_low_ones by lia.
  replace (m - (Z.of_nat z + 1)) with (Z.of_nat a) by lia.
  rewrite aligned_lor by nia. f_equal. lia.
Qed.


Lemma length_step_from (pre : list bool) (a z : nat) :
  length (pre ++ false :: ones (S a) ++ zeros z) =
  (length pre + (1 + (S a + z)))%nat.
Proof.
  unfold ones, zeros. rewrite length_app. cbn [length].
  rewrite length_app, !repeat_length. lia.
Qed.

Lemma length_step_to (pre : list bool) (a z : nat) :
  length (pre ++ true :: zeros (S z) ++ ones a) =
  (length pre + (1 + (S a + z)))%nat.
Proof.
  unfold ones, zeros. rewrite length_app. cbn [length].
  rewrite length_app, !repeat_length. lia.
Qed.

Lemma count_zeros_step_from (pre : list bool) (a z : nat) :
  count_zeros (pre ++ false :: ones (S a) ++ zeros z) =
  (count_zeros pre + 1 + z)%nat.
Proof.
  rewrite count_zeros_app, count_zeros_cons, count_zeros_app,
    count_zeros_ones, count_zeros_zeros. lia.
Qed.

Lemma count_zeros_step_to (pre : list bool) (a z : nat) :
  count_zeros (pre ++ true :: zeros (S z) ++ ones a) =
  (count_zeros pre + 1 + z)%nat.
Proof.
  rewrite count_zeros_app, count_zeros_cons, count_zeros_app,
    count_zeros_ones, count_zeros_zeros. lia.
Qed.

Lemma value_step_from (pre : list bool) (a z : nat) :
  binary_value (pre ++ false :: ones (S a) ++ zeros z) =
  binary_value pre * 2 ^ (Z.of_nat (S a + z) + 1)
  + (2 ^ Z.of_nat (S a) - 1) * 2 ^ Z.of_nat z.
Proof.
  rewrite binary_value_app. cbn [length binary_value].
  rewrite binary_value_app, binary_value_ones, binary_value_zeros.
  unfold ones, zeros. rewrite length_app, !repeat_length.
  replace (Z.of_nat (S (S a + z))) with (Z.of_nat (S a + z) + 1) by lia.
  lia.
Qed.

Lemma value_step_to (pre : list bool) (a z : nat) :
  binary_value (pre ++ true :: zeros (S z) ++ ones a) =
  binary_value pre * 2 ^ (Z.of_nat (S a + z) + 1)
  + 2 ^ Z.of_nat (S a + z) + 2 ^ Z.of_nat a - 1.
Proof.
  rewrite binary_value_app. cbn [length binary_value].
  rewrite binary_value_app, binary_value_ones, binary_value_zeros.
  unfold ones, zeros. rewrite length_app, !repeat_length.
  replace (Z.of_nat (S (S z + a))) with (Z.of_nat (S a + z) + 1) by lia.
  replace (Z.of_nat (S z + a)) with (Z.of_nat (S a + z)) by lia.
  lia.
Qed.

(** On the number a string spells, the next bit permutation is what
    [next_permutation] is on the string. *)
Lemma next_bit_permutation_string (pre : list bool) (a z : nat) :
  (length pre + (1 + (S a + z)) <= 32)%nat ->
  next_bit_permutation
    (binary_value (pre ++ false :: ones (S a) ++ zeros z)) =
  Some (binary_value (pre ++ true :: zeros (S z) ++ ones a)).
Proof.
  intros Hlen. rewrite value_step_from, value_step_to.
  pose proof (binary_value_range pre) as Hpre.
  apply next_bit_permutation_run; [lia|].
  assert (E : 2 ^ Z.of_nat (length pre) * 2 ^ (Z.of_nat (S a + z) + 1) =
              2 ^ Z.of_nat (length pre + (1 + (S a + z)))).
  { rewrite <- Z.pow_add_r by lia. f_equal. lia. }
  assert (2 ^ Z.of_nat (length pre + (1 + (S a + z))) <= 2 ^ 32)
    by (apply Z.pow_le_mono_r; lia).
  pose proof (Z.pow_pos_nonneg 2 (Z.of_nat (S a + z) + 1)
                ltac:(lia) ltac:(lia)).
  nia.
Qed.

(* ================================================================= *)
(** ** The next bit permutation of the last string of a class *)

Lemma next_bit_permutation_0 : next_bit_permutation 0 = None.
Proof. reflexivity. Qed.

Lemma value_last (o z : nat) :
  binary_value (ones o ++ zeros z) = (2 ^ Z.of_nat o - 1) * 2 ^ Z.of_nat z.
Proof.
  rewrite binary_value_app, binary_value_ones, binary_value_zeros.
  unfold zeros. rewrite repeat_length. lia.
Qed.

(** With at least one 1 and at most 30 zeros behind the ones, the shift
    of line 112 is by 31 at most. *)
Lemma next_bit_permutation_last (o z : nat) :
  (1 <= o)%nat -> (z <= 30)%nat -> (o + z <= 32)%nat ->
  exists b : Z,
    next_bit_permutation (binary_value (ones o ++ zeros z)) = Some b.
Proof.
  intros Ho Hz Hlen. rewrite value_last.
  pose proof (Z.pow_pos_nonneg 2 (Z.of_nat z) ltac:(lia) ltac:(lia)) as Hpz.
  pose proof (Z.pow_pos_nonneg 2 (Z.of_nat (o - 1)) ltac:(lia) ltac:(lia))
    as Hpo.
  assert (Eo : 2 ^ Z.of_nat o = 2 * 2 ^ Z.of_nat (o - 1)).
  { replace (Z.of_nat o) with (Z.of_nat (o - 1) + 1) by lia.
    rewrite Z.pow_add_r by lia. lia. }
  assert (Hsum : 2 ^ Z.of_nat o * 2 ^ Z.of_nat z <= 2 ^ 32).
  { rewrite <- Z.pow_add_r by lia. apply Z.pow_le_mono_r; lia. }
  replace ((2 ^ Z.of_nat o - 1) * 2 ^ Z.of_nat z)
    with ((2 * (2 ^ Z.of_nat (o - 1) - 1) + 1) * 2 ^ Z.of_nat z) by lia.
  rewrite next_bit_permutation_nonzero by nia.
  cbv zeta. unfold shr.
  replace ((0 <=? Z.of_nat z + 1) && (Z.of_nat z + 1 <? 32)) with true
    by lia.
  eexists. reflexivity.
Qed.

(** The last string of a class without a 1 spells 0, and the last string
    of class [(32, 1)] spells [2^31]. *)
Lemma next_bit_permutation_no_ones (z : nat) :
  next_bit_permutation (binary_value (ones 0 ++ zeros z)) = None.
Proof. rewrite value_last. reflexivity. Qed.

Lemma next_bit_permutation_top_one :
  next_bit_permutation (binary_value (ones 1 ++ zeros 31)) = None.
Proof. rewrite value_last. reflexivity. Qed.

(* ================================================================= *)
(** ** The self-test of one class *)

Section TestOfClass.

Variables ntotbits nsetbits : nat.
Hypothesis class_ok : (nsetbits <= ntotbits <= 32)%nat.

Let n := Z.of_nat ntotbits.
Let k := Z.of_nat nsetbits.
Let col := (ntotbits - nsetbits)%nat.

Lemma of_class_rank (bs : list bool) :
  of_class ntotbits nsetbits bs ->
  0 <= rank_value ntotbits col (binary_value bs) < binom ntotbits col.
Proof. intros _. apply rank_value_range. subst col. lia. Qed.

(** The last string of the class has the last rank. *)
Lemma of_class_last (o z : nat) :
  of_class ntotbits nsetbits (ones o ++ zeros z) ->
  rank_value ntotbits col (binary_value (ones o ++ zeros z)) =
  binom ntotbits col - 1.
Proof.
  intros [Hlen Hzeros].
  unfold ones, zeros in Hlen. rewrite length_app, !repeat_length in Hlen.
  rewrite count_zeros_app, count_zeros_ones, count_zeros_zeros in Hzeros.
  cbn [Nat.add] in Hzeros. subst col.
  rewrite <- Hzeros, <- Hlen. apply rank_value_last.
Qed.

(** The ones and zeros of the last string of the class. *)
Lemma of_class_last_shape (o z : nat) :
  of_class ntotbits nsetbits (ones o ++ zeros z) ->
  o = nsetbits /\ z = col.
Proof.
  intros [Hlen Hzeros].
  unfold ones, zeros in Hlen. rewrite length_app, !repeat_length in Hlen.
  rewrite count_zeros_app, count_zeros_ones, count_zeros_zeros in Hzeros.
  cbn [Nat.add] in Hzeros. subst col. lia.
Qed.

(** A string with a successor: the successor is of the class, and its
    rank is one more. *)
Lemma of_class_step (pre : list bool) (a z : nat) :
  of_class ntotbits nsetbits (pre ++ false :: ones (S a) ++ zeros z) ->
  of_class ntotbits nsetbits (pre ++ true :: zeros (S z) ++ ones a) /\
  rank_value ntotbits col
    (binary_value (pre ++ true :: zeros (S z) ++ ones a)) =
  rank_value ntotbits col
    (binary_value (pre ++ false :: ones (S a) ++ zeros z)) + 1.
Proof.
  intros [Hlen Hzeros].
  rewrite length_step_from in Hlen. rewrite count_zeros_step_from in Hzeros.
  split.
  - split; [rewrite length_step_to|rewrite count_zeros_step_to]; assumption.
  - rewrite <- Hlen. apply rank_value_successor. lia.
Qed.

(** An iteration whose shift is undefined. *)
Lemma test_body_shift (bs : list bool) :
  of_class ntotbits nsetbits bs ->
  next_bit_permutation (binary_value bs) = None ->
  test_body built_table n k (test_at ntotbits nsetbits bs) =
  inr TestUndefined.
Proof.
  intros [Hlen Hzeros] Hnext.
  unfold test_body, test_at. cbn [ts_nd ts_bitperm ts_count].
  subst n. rewrite <- Hlen. rewrite bits_of_binary_string by lia.
  rewrite Z.eqb_refl. cbn [negb]. rewrite Hnext. reflexivity.
Qed.

(** An iteration whose shift is defined: the three checks pass, and the
    iteration ends on [next_permutation]. *)
Lemma test_body_checks (bs : list bool) (bitperm : Z) :
  of_class ntotbits nsetbits bs ->
  next_bit_permutation (binary_value bs) = Some bitperm ->
  test_body built_table n k (test_at ntotbits nsetbits bs) =
  let (nd, more) := next_permutation char_lt (binary_string bs) in
  if more
  then inl (mk_test_state nd bitperm
              (rank_value ntotbits col (binary_value bs) + 1))
  else inr Passed.
Proof.
  intros [Hlen Hzeros] Hnext.
  assert (Hwidth : (1 <= ntotbits)%nat).
  { destruct (Nat.eq_dec ntotbits 0) as [E|]; [|lia]. exfalso.
    rewrite E in Hlen. destruct bs; [|discriminate Hlen].
    change (binary_value []) with 0 in Hnext.
    rewrite next_bit_permutation_0 in Hnext. discriminate. }
  pose proof (of_class_rank bs (conj Hlen Hzeros)) as Hrank.
  pose proof (binom_fits ntotbits col ltac:(lia)) as Hfit.
  pose proof (binary_value_range bs) as Hval. rewrite Hlen in Hval.
  pose proof (popcount_binary_value bs) as Hpop.
  rewrite Hlen, Hzeros in Hpop.
  unfold test_body, test_at. cbn [ts_nd ts_bitperm ts_count].
  subst n k.
  replace (bits_of_string (binary_string bs) (Z.of_nat ntotbits))
    with (Some (binary_value bs))
    by (symmetry; rewrite <- Hlen; apply bits_of_binary_string; lia).
  rewrite Z.eqb_refl. cbn [negb]. rewrite Hnext.
  rewrite rank_call by lia.
  rewrite !Nat2Z.id. fold col. cbn [engine_result].
  rewrite Z.eqb_refl. cbn [negb].
  rewrite unrank_call;
    [|lia|lia|rewrite <- choose_col by lia; rewrite !Nat2Z.id; exact Hrank
     |lia].
  rewrite !Nat2Z.id. fold col. cbn [engine_result].
  rewrite unrank_rank_value by (subst col; lia).
  rewrite Z.eqb_refl. cbn [negb].
  rewrite wrap_small by lia. reflexivity.
Qed.

Lemma test_body_step (pre : list bool) (a z : nat) :
  of_class ntotbits nsetbits (pre ++ false :: ones (S a) ++ zeros z) ->
  test_body built_table n k
    (test_at ntotbits nsetbits (pre ++ false :: ones (S a) ++ zeros z)) =
  inl (test_at ntotbits nsetbits (pre ++ true :: zeros (S z) ++ ones a)).
Proof.
  intros Hclass. destruct (of_class_step pre a z Hclass) as [_ Hsucc].
  pose proof Hclass as [Hlen _]. rewrite length_step_from in Hlen.
  rewrite (test_body_checks _ _ Hclass
             (next_bit_permutation_string pre a z ltac:(lia))).
  rewrite next_permutation_step.
  unfold test_at. fold col. rewrite Hsucc. reflexivity.
Qed.

(** The iteration on the last string of the class ends the loop: the
    test of the class returns when the class has a 1 and at most 30
    zeros, and has undefined behaviour for the classes without a 1 and
    for class [(32, 1)]. *)
Lemma test_body_last (o z : nat) :
  of_class ntotbits nsetbits (ones o ++ zeros z) ->
  test_body built_table n k (test_at ntotbits nsetbits (ones o ++ zeros z)) =
  inr (if (1 <=? nsetbits)%nat && (col <=? 30)%nat
       then Passed else TestUndefined).
Proof.
  intros Hclass. destruct (of_class_last_shape o z Hclass) as [Ho Hz].
  destruct ((1 <=? nsetbits)%nat && (col <=? 30)%nat) eqn:Hcase.
  - destruct (next_bit_permutation_last o z) as [b Hb]; try lia.
    rewrite (test_body_checks _ b Hclass Hb).
    rewrite next_permutation_last. reflexivity.
  - apply test_body_shift; [exact Hclass|].
    destruct (Nat.eq_dec o 0) as [->|Hne];
      [apply next_bit_permutation_no_ones|].
    assert (E1 : o = 1%nat) by lia. assert (E2 : z = 31%nat) by lia.
    rewrite E1, E2. apply next_bit_permutation_top_one.
Qed.

(** From the string of rank [C - 1 - left], the loop ends after
    [left + 1] passes, no check having failed. *)
Lemma test_loop_passes (left : nat) :
  forall bs : list bool,
    of_class ntotbits nsetbits bs ->
    rank_value ntotbits col (binary_value bs) + Z.of_nat left + 1 =
    binom ntotbits col ->
    passes (test_body built_table n k) (S left)
      (test_at ntotbits nsetbits bs) =
    inr (if (1 <=? nsetbits)%nat && (col <=? 30)%nat
         then Passed else TestUndefined).
Proof.
  induction left as [|left IH]; intros bs Hclass Hleft; cbn [passes].
  - destruct (bits_last_or_step bs) as [(o & z & ->)|(pre & a & z & ->)].
    + rewrite test_body_last by exact Hclass. reflexivity.
    + destruct (of_class_step pre a z Hclass) as (Hnext & Hsucc).
      pose proof (of_class_rank _ Hnext). lia.
  - destruct (bits_last_or_step bs) as [(o & z & ->)|(pre & a & z & ->)].
    + rewrite (of_class_last o z Hclass) in Hleft. lia.
    + destruct (of_class_step pre a z Hclass) as (Hnext & Hsucc).
      rewrite (test_body_step pre a z Hclass). apply IH; [exact Hnext|lia].
Qed.

(** The state the loop starts in. *)
Lemma class_test_start :
  of_class ntotbits nsetbits (zeros col ++ ones nsetbits) /\
  test_start n k =
  Some (test_at ntotbits nsetbits (zeros col ++ ones nsetbits)).
Proof.
  split.
  - split.
    + unfold zeros, ones. rewrite length_app, !repeat_length. subst col. lia.
    + rewrite count_zeros_app, count_zeros_zeros, count_zeros_ones. lia.
  - unfold test_start. cbv zeta.
    replace ((0 <=? k) && (k <? 64)) with true by (subst k; lia).
    unfold test_at. fold col.
    replace ntotbits with (col + nsetbits)%nat at 1 by (subst col; lia).
    rewrite rank_value_first.
    rewrite binary_value_app, binary_value_zeros, binary_value_ones.
    unfold binary_string. rewrite map_app. unfold zeros, ones.
    rewrite !map_repeat. cbn [bit_char].
    subst n k. rewrite wrap_small by lia.
    replace (Z.to_nat (Z.of_nat ntotbits - Z.of_nat nsetbits)) with col
      by (subst col; lia).
    rewrite Nat2Z.id, Z.shiftl_1_l.
    assert (2 ^ Z.of_nat nsetbits <= 2 ^ 32)
      by (apply Z.pow_le_mono_r; lia).
    pose proof (Z.pow_pos_nonneg 2 (Z.of_nat nsetbits) ltac:(lia) ltac:(lia)).
    rewrite Z.mod_small by lia. rewrite wrap_small by lia.
    do 3 f_equal; lia.
Qed.

(** ... and is still running after any smaller number of passes. *)
Lemma test_loop_running (fewer : nat) :
  forall (left : nat) (bs : list bool),
    of_class ntotbits nsetbits bs ->
    rank_value ntotbits col (binary_value bs) + Z.of_nat left + 1 =
    binom ntotbits col ->
    (fewer <= left)%nat ->
    exists s : test_state,
      passes (test_body built_table n k) fewer
        (test_at ntotbits nsetbits bs) = inl s.
Proof.
  induction fewer as [|fewer IH]; intros left bs Hclass Hleft Hfewer;
    cbn [passes]; [eexists; reflexivity|].
  destruct (bits_last_or_step bs) as [(o & z & ->)|(pre & a & z & ->)].
  - rewrite (of_class_last o z Hclass) in Hleft. lia.
  - destruct (of_class_step pre a z Hclass) as (Hnext & Hsucc).
    rewrite (test_body_step pre a z Hclass).
    apply (IH (left - 1)%nat); [exact Hnext|lia|lia].
Qed.

(** The loop of the class makes [C(ntotbits,nsetbits)] passes; no check
    fails, and the last pass ends the loop as [test_body_last] says. *)
Lemma class_test_passes_counted :
  exists start : test_state,
    test_start n k = Some start /\
    passes (test_body built_table n k) (Z.to_nat (binom ntotbits col)) start =
    inr (if (1 <=? nsetbits)%nat && (col <=? 30)%nat
         then Passed else TestUndefined) /\
    forall fewer : nat,
      (fewer < Z.to_nat (binom ntotbits col))%nat ->
      exists s : test_state,
        passes (test_body built_table n k) fewer start = inl s.
Proof.
  destruct class_test_start as [Hclass Hstart].
  eexists. split; [exact Hstart|].
  pose proof (binom_pos ntotbits col ltac:(subst col; lia)) as Hpos.
  assert (Hfirst : rank_value ntotbits col
                     (binary_value (zeros col ++ ones nsetbits)) = 0).
  { replace ntotbits with (col + nsetbits)%nat at 1 by (subst col; lia).
    apply rank_value_first. }
  split.
  - replace (Z.to_nat (binom ntotbits col))
      with (S (Z.to_nat (binom ntotbits col - 1))) by lia.
    apply test_loop_passes; [exact Hclass|lia].
  - intros fewer Hfewer.
    apply (test_loop_running fewer (Z.to_nat (binom ntotbits col - 1)));
      [exact Hclass|lia|lia].
Qed.

Lemma class_test_built :
  class_test built_table n k =
  if (1 <=? nsetbits)%nat && (col <=? 30)%nat then Passed else TestUndefined.
Proof.
  destruct class_test_passes_counted as (start & Hstart & Hlast & _).
  unfold class_test. rewrite Hstart, iterate_passes.
  pose proof (binom_fits ntotbits col ltac:(lia)) as Hfit.
  rewrite (passes_more _ (Z.to_nat (binom ntotbits col)) _ _ _ Hlast);
    [reflexivity|].
  apply Nat2Z.inj_le. rewrite positive_nat_Z.
  change (Z.pos (2 ^ 32)) with (2 ^ 32). lia.
Qed.

End TestOfClass.

(* ================================================================= *)
(** ** From a number back to its string *)

Lemma bits_below_length (width : nat) (b : Z) :
  length (bits_below width b) = width.
Proof.
  induction width as [|w IH]; cbn [bits_below length]; [reflexivity|].
  rewrite IH. reflexivity.
Qed.

Lemma bits_below_ext (width : nat) (b b' : Z) :
  (forall i : nat, (i < width)%nat ->
                   Z.testbit b (Z.of_nat i) = Z.testbit b' (Z.of_nat i)) ->
  bits_below width b = bits_below width b'.
Proof.
  induction width as [|w IH]; intros H; [reflexivity|].
  cbn [bits_below]. rewrite (H w) by lia. rewrite IH; [reflexivity|].
  intros i Hi. apply H. lia.
Qed.

Lemma bits_below_value (width : nat) :
  forall b : Z,
    0 <= b < 2 ^ Z.of_nat width -> binary_value (bits_below width b) = b.
Proof.
  induction width as [|w IH]; intros b Hb.
  - simpl in Hb. cbn. lia.
  - cbn [bits_below binary_value]. rewrite bits_below_length.
    pose proof (testbit_top b w Hb) as Ht.
    replace (Z.of_nat (S w)) with (Z.of_nat w + 1) in Hb by lia.
    rewrite Z.pow_add_r in Hb by lia.
    destruct (Z.testbit b (Z.of_nat w)).
    + rewrite (bits_below_ext w b (b - 2 ^ Z.of_nat w)).
      * rewrite IH by lia. lia.
      * intros i Hi. symmetry. apply testbit_drop_top; [|exact Hi].
        replace (Z.of_nat (S w)) with (Z.of_nat w + 1) by lia.
        rewrite Z.pow_add_r by lia. lia.
    + rewrite IH by lia. lia.
Qed.

Lemma bits_below_zeros (width : nat) (b : Z) :
  (count_zeros (bits_below width b) + popcount width b)%nat = width.
Proof.
  induction width as [|w IH]; [reflexivity|].
  cbn [bits_below popcount]. rewrite count_zeros_cons.
  destruct (Z.testbit b (Z.of_nat w)); lia.
Qed.

(** A vector of the class is spelt by a string of the class. *)
Lemma in_class_string (ntotbits nsetbits : nat) (b : Z) :
  (nsetbits <= ntotbits)%nat ->
  0 <= b < 2 ^ Z.of_nat ntotbits ->
  popcount ntotbits b = nsetbits ->
  exists bs : list bool,
    of_class ntotbits nsetbits bs /\ binary_value bs = b.
Proof.
  intros Hk Hb Hpop. exists (bits_below ntotbits b). split.
  - split; [apply bits_below_length|].
    pose proof (bits_below_zeros ntotbits b). lia.
  - apply bits_below_value. exact Hb.
Qed.

(** Every positive number is an odd number times a power of 2. *)
Lemma odd_times_pow2 (p : positive) :
  exists (y : Z) (z : nat), 0 <= y /\ Z.pos p = (2 * y + 1) * 2 ^ Z.of_nat z.
Proof.
  induction p as [p _|p IH|].
  - exists (Z.pos p), O. split; [lia|]. cbn [Z.of_nat]. lia.
  - destruct IH as (y & z & Hy & E). exists y, (S z). split; [exact Hy|].
    replace (Z.of_nat (S z)) with (Z.of_nat z + 1) by lia.
    rewrite Z.pow_add_r by lia. lia.
  - exists 0, O. split; [lia|]. reflexivity.
Qed.

(* ================================================================= *)
(** ** Properties of the self-test *)

(** X12. The loop that turns the string [nd] into [bits] reads a string
    of up to 32 characters 0 and 1 as the binary number it spells, first
    character most significant. *)
Theorem bits_of_string_reads_binary (bs : list bool) :
  (length bs <= 32)%nat ->
  bits_of_string (binary_string bs) (Z.of_nat (length bs)) =
  Some (binary_value bs) /\
  0 <= binary_value bs < 2 ^ Z.of_nat (length bs) /\
  (popcount (length bs) (binary_value bs) + count_zeros bs)%nat = length bs.
Proof.
  intros H. split; [apply bits_of_binary_string; exact H|].
  split; [apply binary_value_range|apply popcount_binary_value].
Qed.

Lemma bits_of_string_reads_binary_witness :
  bits_of_string (binary_string [false; true; true; false; true])
    (Z.of_nat 5) = Some 13 /\
  0 <= 13 < 2 ^ Z.of_nat 5 /\
  (popcount 5 13 + count_zeros [false; true; true; false; true])%nat = 5%nat.
Proof.
  apply (bits_of_string_reads_binary [false; true; true; false; true]).
  cbn. lia.
Defined.

(** X13. On the string of a vector of a class with
    [nsetbits <= ntotbits] and [1 <= ntotbits <= 32],
    [std::next_permutation] follows the ranks: the vector has a rank [r]
    of the class; if [r + 1] is a rank of the class too,
    [next_permutation] returns [true] and leaves the string of the vector
    of rank [r + 1]; if [r] is the last rank, it returns [false] and
    leaves the first string of the class, zeros then ones. *)
Theorem next_permutation_follows_rank (ntotbits nsetbits : nat)
        (bs : list bool) :
  (1 <= ntotbits)%nat -> (nsetbits <= ntotbits <= 32)%nat ->
  of_class ntotbits nsetbits bs ->
  exists r : Z,
    rank_from_permutation built_table (binary_value bs)
      (Z.of_nat ntotbits) (Z.of_nat nsetbits) = Done r /\
    0 <= r < choose (Z.of_nat ntotbits) (Z.of_nat nsetbits) /\
    ((r + 1 < choose (Z.of_nat ntotbits) (Z.of_nat nsetbits) /\
      exists bs' : list bool,
        of_class ntotbits nsetbits bs' /\
        next_permutation char_lt (binary_string bs) =
        (binary_string bs', true) /\
        permutation_from_rank built_table (r + 1)
          (Z.of_nat ntotbits) (Z.of_nat nsetbits) =
        Done (binary_value bs')) \/
     (r + 1 = choose (Z.of_nat ntotbits) (Z.of_nat nsetbits) /\
      next_permutation char_lt (binary_string bs) =
      (binary_string (zeros (ntotbits - nsetbits) ++ ones nsetbits),
       false))).
Proof.
  intros Hpos Hk Hclass. eexists. split; [apply rank_call; lia|].
  rewrite !Nat2Z.id.
  assert (Hcol : binom ntotbits (ntotbits - nsetbits) =
                 choose (Z.of_nat ntotbits) (Z.of_nat nsetbits)).
  { rewrite <- choose_col by lia. rewrite !Nat2Z.id. reflexivity. }
  pose proof (of_class_rank ntotbits nsetbits Hk _ Hclass) as Hrank.
  split; [lia|].
  destruct (bits_last_or_step bs) as [(o & z & ->)|(pre & a & z & ->)].
  - right. rewrite (of_class_last ntotbits nsetbits o z Hclass).
    split; [lia|]. rewrite next_permutation_last.
    destruct (of_class_last_shape ntotbits nsetbits Hk o z Hclass) as [-> ->].
    reflexivity.
  - left. destruct (of_class_step ntotbits nsetbits Hk pre a z Hclass)
      as (Hnext & Hsucc).
    pose proof (of_class_rank ntotbits nsetbits Hk _ Hnext) as Hr.
    split; [lia|].
    eexists. split; [exact Hnext|]. split; [apply next_permutation_step|].
    rewrite <- Hsucc.
    rewrite unrank_call; [|lia|lia|rewrite <- Hcol; exact Hr|lia].
    rewrite !Nat2Z.id. f_equal.
    destruct Hnext as [Hlen Hzeros].
    pose proof (binary_value_range
                  (pre ++ true :: zeros (S z) ++ ones a)) as Hval.
    pose proof (popcount_binary_value
                  (pre ++ true :: zeros (S z) ++ ones a)) as Hpop.
    rewrite Hlen in Hval, Hpop.
    apply unrank_rank_value; [lia|exact Hval|lia].
Qed.

Lemma next_permutation_follows_rank_witness :
  exists r : Z,
    rank_from_permutation built_table
      (binary_value [false; true; false; true; true])
      (Z.of_nat 5) (Z.of_nat 3) = Done r /\
    0 <= r < choose (Z.of_nat 5) (Z.of_nat 3) /\
    ((r + 1 < choose (Z.of_nat 5) (Z.of_nat 3) /\
      exists bs' : list bool,
        of_class 5 3 bs' /\
        next_permutation char_lt
          (binary_string [false; true; false; true; true]) =
        (binary_string bs', true) /\
        permutation_from_rank built_table (r + 1) (Z.of_nat 5) (Z.of_nat 3) =
        Done (binary_value bs')) \/
     (r + 1 = choose (Z.of_nat 5) (Z.of_nat 3) /\
      next_permutation char_lt
        (binary_string [false; true; false; true; true]) =
      (binary_string (zeros (5 - 3) ++ ones 3), false))).
Proof.
  apply (next_permutation_follows_rank 5 3 [false; true; false; true; true]).
  - lia.
  - lia.
  - split; reflexivity.
Defined.

(** X14. The bit hack follows the ranks too: for a valid class and two
    consecutive ranks [r] and [r + 1] of it, the next bit permutation of
    the vector of rank [r] is the vector of rank [r + 1]. *)
Theorem next_bit_permutation_follows_rank (ntotbits nsetbits r : Z) :
  0 <= nsetbits <= ntotbits -> ntotbits <= 32 ->
  0 <= r -> r + 1 < choose ntotbits nsetbits ->
  exists b b' : Z,
    permutation_from_rank built_table r ntotbits nsetbits = Done b /\
    permutation_from_rank built_table (r + 1) ntotbits nsetbits = Done b' /\
    next_bit_permutation b = Some b'.
Proof.
  intros Hc Hw Hr Hnext.
  pose proof (two_ranks_width ntotbits nsetbits Hc (r + 1) ltac:(lia))
    as Hpos.
  eexists _, _.
  split; [apply unrank_call; [assumption|assumption|lia|assumption]|].
  split; [apply unrank_call; [assumption|assumption|lia|assumption]|].
  set (N := Z.to_nat ntotbits). set (K := Z.to_nat nsetbits).
  replace (Z.to_nat ntotbits - Z.to_nat nsetbits)%nat with (N - K)%nat
    by reflexivity.
  assert (HK : (K <= N <= 32)%nat) by (subst N K; lia).
  assert (Hcol : binom N (N - K) = choose ntotbits nsetbits)
    by (apply choose_col; assumption).
  pose proof (unrank_value_range N (N - K) r) as Hrange.
  pose proof (popcount_unrank_value N (N - K) r ltac:(lia) ltac:(lia))
    as Hpop.
  destruct (in_class_string N K (unrank_value N (N - K) r)
              ltac:(lia) Hrange ltac:(lia)) as (bs & Hclass & Hbs).
  assert (Hrank : rank_value N (N - K) (binary_value bs) = r).
  { rewrite Hbs. apply rank_unrank_value; lia. }
  destruct (bits_last_or_step bs) as [(o & z & ->)|(pre & a & z & ->)].
  - rewrite (of_class_last N K o z Hclass) in Hrank. lia.
  - destruct (of_class_step N K HK pre a z Hclass) as (Hto & Hsucc).
    rewrite <- Hbs.
    destruct Hclass as [Hlen _]. rewrite length_step_from in Hlen.
    rewrite next_bit_permutation_string by lia. f_equal.
    rewrite <- Hrank, <- Hsucc.
    destruct Hto as [Hlen' Hzeros'].
    pose proof (binary_value_range
                  (pre ++ true :: zeros (S z) ++ ones a)) as Hval.
    pose proof (popcount_binary_value
                  (pre ++ true :: zeros (S z) ++ ones a)) as Hpop'.
    rewrite Hlen' in Hval, Hpop'.
    symmetry. apply unrank_rank_value; [lia|exact Hval|lia].
Qed.

Lemma next_bit_permutation_follows_rank_witness :
  exists b b' : Z,
    permutation_from_rank built_table 5 8 5 = Done b /\
    permutation_from_rank built_table (5 + 1) 8 5 = Done b' /\
    next_bit_permutation b = Some b'.
Proof.
  apply (next_bit_permutation_follows_rank 8 5 5); [lia|lia|lia|].
  cbv. reflexivity.
Defined.

(** X15. The bit hack shifts by [ctz + 1], and that is a shift by 32 or
    more for exactly two values of [bitperm]: 0, where [ctz] is set to
    32, and [2^31], where it is 31. For every other [unsigned] value the
    computation is defined. *)
Theorem next_bit_permutation_defined (bitperm : Z) :
  0 <= bitperm < 2 ^ 32 ->
  (next_bit_permutation bitperm = None <->
   bitperm = 0 \/ bitperm = 2 ^ 31).
Proof.
  intros Hb. destruct (Z.eq_dec bitperm 0) as [->|Hne].
  - split; [intros _; left; reflexivity|intros _; reflexivity].
  - destruct bitperm as [|p|p]; [lia| |lia].
    destruct (odd_times_pow2 p) as (y & z & Hy & E). rewrite E in *.
    rewrite next_bit_permutation_nonzero by lia. cbv zeta. unfold shr.
    pose proof (Z.pow_pos_nonneg 2 (Z.of_nat z) ltac:(lia) ltac:(lia)) as Hp.
    assert (Hz : (z <= 31)%nat) by (apply pow2_lt_32; nia).
    destruct (Nat.eq_dec z 31) as [->|Hz31].
    + change (Z.of_nat 31) with 31 in *. cbn [Z.add Z.leb Z.ltb andb].
      split; [intros _; right|intros _; reflexivity].
      assert (y = 0) by lia. subst y. reflexivity.
    + replace ((0 <=? Z.of_nat z + 1) && (Z.of_nat z + 1 <? 32)) with true
        by lia.
      split; [discriminate|]. intros [H0|H31]; [lia|].
      exfalso. assert (2 ^ Z.of_nat z <= 2 ^ 30)
        by (apply Z.pow_le_mono_r; lia).
      assert (H2 : 2 ^ 31 = 2 * 2 ^ 30) by reflexivity.
      assert (Hdiv : (2 ^ Z.of_nat z * 2 ^ (30 - Z.of_nat z)) = 2 ^ 30)
        by (rewrite <- Z.pow_add_r by lia; f_equal; lia).
      pose proof (Z.pow_pos_nonneg 2 (30 - Z.of_nat z) ltac:(lia) ltac:(lia)).
      nia.
Qed.

Lemma next_bit_permutation_defined_witness :
  next_bit_permutation 2147483648 = None <->
  2147483648 = 0 \/ 2147483648 = 2 ^ 31.
Proof. apply (next_bit_permutation_defined 2147483648). lia. Defined.

(** X16. The self-test of one class, on the built table. For every
    class with [nsetbits <= ntotbits <= 32] the [do ... while] loop makes
    [C(ntotbits,nsetbits)] passes, one for each vector of the class, and
    in none of them a check throws. In a class with [1 <= nsetbits] and
    [ntotbits - nsetbits <= 30] the last pass ends the loop and the test
    of the class returns. In the classes with [nsetbits = 0], and in
    class [(32, 1)], the last pass computes the next bit permutation of 0,
    or of [2^31], with the shift of line 112 by 33, or by 32: the test of
    the class has undefined behaviour. *)
Theorem class_test_result (ntotbits nsetbits : Z) :
  0 <= nsetbits <= ntotbits -> ntotbits <= 32 ->
  exists start : test_state,
    test_start ntotbits nsetbits = Some start /\
    (forall fewer : nat,
       (fewer < Z.to_nat (choose ntotbits nsetbits))%nat ->
       exists s : test_state,
         passes (test_body built_table ntotbits nsetbits) fewer start
         = inl s) /\
    (1 <= nsetbits -> ntotbits - nsetbits <= 30 ->
     passes (test_body built_table ntotbits nsetbits)
       (Z.to_nat (choose ntotbits nsetbits)) start = inr Passed /\
     class_test built_table ntotbits nsetbits = Passed) /\
    (nsetbits = 0 \/ ntotbits - nsetbits = 31 ->
     passes (test_body built_table ntotbits nsetbits)
       (Z.to_nat (choose ntotbits nsetbits)) start = inr TestUndefined /\
     class_test built_table ntotbits nsetbits = TestUndefined).
Proof.
  intros Hc Hw.
  assert (HK : (Z.to_nat nsetbits <= Z.to_nat ntotbits <= 32)%nat) by lia.
  pose proof (class_test_built _ _ HK) as Hresult.
  destruct (class_test_passes_counted _ _ HK)
    as (start & Hstart & Hlast & Hrunning).
  rewrite choose_col in Hlast, Hrunning by assumption.
  rewrite !Z2Nat.id in Hresult, Hstart, Hlast, Hrunning by lia.
  exists start. split; [exact Hstart|]. split; [exact Hrunning|]. split.
  - intros H1 H30.
    replace ((1 <=? Z.to_nat nsetbits)%nat
             && (Z.to_nat ntotbits - Z.to_nat nsetbits <=? 30)%nat)
      with true in Hresult, Hlast by lia.
    split; assumption.
  - intros Hcase.
    replace ((1 <=? Z.to_nat nsetbits)%nat
             && (Z.to_nat ntotbits - Z.to_nat nsetbits <=? 30)%nat)
      with false in Hresult, Hlast by lia.
    split; assumption.
Qed.

Lemma class_test_result_witness :
  (exists start : test_state,
     test_start 6 3 = Some start /\
     (forall fewer : nat,
        (fewer < Z.to_nat (choose 6 3))%nat ->
        exists s : test_state,
          passes (test_body built_table 6 3) fewer start = inl s) /\
     passes (test_body built_table 6 3) (Z.to_nat (choose 6 3)) start
     = inr Passed /\
     class_test built_table 6 3 = Passed) /\
  class_test built_table 3 0 = TestUndefined.
Proof.
  split.
  - destruct (class_test_result 6 3 ltac:(lia) ltac:(lia))
      as (start & Hstart & Hrunning & Hpassed & _).
    exists start. split; [exact Hstart|]. split; [exact Hrunning|].
    apply Hpassed; lia.
  - destruct (class_test_result 3 0 ltac:(lia) ltac:(lia))
      as (start & _ & _ & _ & Hundefined).
    apply Hundefined. left. reflexivity.
Defined.

(** The first class the test goes through is [(0, 0)], and its only pass
    shifts by 33. *)
Lemma class_test_0_0 : class_test built_table 0 0 = TestUndefined.
Proof.
  exact (class_test_built 0 0 ltac:(lia)).
Qed.

Lemma test_classes_first :
  exists rest : list (Z * Z), test_classes = (0, 0) :: rest.
Proof. eexists. reflexivity. Qed.

Lemma bit_permutation_test_built :
  bit_permutation_test built_table = TestUndefined.
Proof.
  unfold bit_permutation_test.
  destruct test_classes_first as [rest ->].
  cbn [for_each_class]. rewrite class_test_0_0. reflexivity.
Qed.

(** X17. [bit_permutation_test] on the built table has undefined
    behaviour, and has it in the first of its 561 classes: in class
    [(0, 0)] the value of [bitperm] is 0, [ctz] is set to 32, and line 112
    shifts a 32-bit value by 33. *)
Theorem bit_permutation_test_undefined :
  bit_permutation_test built_table = TestUndefined /\
  length test_classes = 561%nat /\
  hd_error test_classes = Some (0, 0) /\
  class_test built_table 0 0 = TestUndefined /\
  next_bit_permutation 0 = None.
Proof.
  split; [exact bit_permutation_test_built|].
  split; [reflexivity|]. split; [reflexivity|].
  split; [exact class_test_0_0|reflexivity].
Qed.

(** X18. [main] builds the table and computes the 20 vectors it prints,
    then runs the self-test, whose behaviour is undefined: so is the
    behaviour of [main]. *)
Theorem main_undefined :
  make_pascal_triangle = Some built_table /\
  map (fun i => permutation_from_rank built_table i 8 5)
    (map Z.of_nat (seq 0 20)) =
  map Done (firstn 20 (class_members 8 5)) /\
  main = Undefined.
Proof.
  split; [exact make_pascal_triangle_runs|].
  split; [vm_compute; reflexivity|].
  unfold main. rewrite make_pascal_triangle_runs.
  assert (Hprinted :
            forallb
              (fun i =>
                 match permutation_from_rank built_table i 8 5 with
                 | Done _ => true
                 | _ => false
                 end)
              (map Z.of_nat (seq 0 20)) = true)
    by (vm_compute; reflexivity).
  rewrite Hprinted.
  rewrite bit_permutation_test_built. reflexivity.
Qed.
